(** * Conway's Game of Life engine (class [Life]): shallow embedding

    The model follows [Yoni_Ifrah_ConwaysGameOfLife.py].  Python lists are
    Rocq lists subscripted the way Python does it (a negative subscript
    counts from the end, a subscript outside [-len, len) raises
    [IndexError]); Python ints are [Z]; the dirty set [needs_update] is a
    [gset Z].  A method is a function from the engine state to an
    [outcome]: either it returns, or it raises and the object is left in
    the state reached at the raise. *)

From Stdlib Require Import ZArith Lia List Ascii String.
From stdpp Require Import base decidable option numbers list sets gmap strings.

Local Open Scope Z_scope.

(** ** Python sequences *)

Inductive exn : Type := IndexError.

(** The position a subscript [i] denotes in a sequence of length [len]. *)
Definition py_index (len : nat) (i : Z) : option nat :=
  if decide (0 <= i) then
    if decide (i < Z.of_nat len) then Some (Z.to_nat i) else None
  else
    if decide (- Z.of_nat len <= i) then Some (Z.to_nat (Z.of_nat len + i))
    else None.

(** [l[i]]; [None] stands for [IndexError]. *)
Definition getitem {A : Type} (l : list A) (i : Z) : option A :=
  match py_index (length l) i with
  | Some k => l !! k
  | None => None
  end.

(** [l[i] = v]; [None] stands for [IndexError]. *)
Definition setitem {A : Type} (l : list A) (i : Z) (v : A) : option (list A) :=
  match py_index (length l) i with
  | Some k => Some (<[k := v]> l)
  | None => None
  end.

(** [range(n)] *)
Definition py_range (n : Z) : list Z :=
  map Z.of_nat (seq 0 (Z.to_nat n)).

(** [[v] * n] *)
Definition py_repeat {A : Type} (v : A) (n : Z) : list A :=
  replicate (Z.to_nat n) v.

(** A [for] loop whose body may raise, over a list being built. *)
Fixpoint for_opt {A B : Type} (body : A -> B -> option B) (xs : list A) (acc : B)
  : option B :=
  match xs with
  | [] => Some acc
  | x :: xs' =>
      match body x acc with
      | Some acc' => for_opt body xs' acc'
      | None => None
      end
  end.

(** ** [product] *)

Definition product (args : list (list Z)) (repeat : nat) : list (list Z) :=
  let pools := concat (replicate repeat args) in
  foldl (fun result pool =>
           flat_map (fun x => map (fun y => x ++ [y]) pool) result)
        [[]] pools.

(** ** The engine *)

Record Life : Type := mkLife {
  width : Z;
  height : Z;
  live : list bool;
  in_bounds : list bool;
  neighbours : list Z;
  neighbourhood : list Z;
  needs_update : gset Z
}.

Inductive outcome : Type :=
| Ok (s : Life)
| Raise (e : exn) (s : Life).

Definition state_of (r : outcome) : Life :=
  match r with
  | Ok s => s
  | Raise _ s => s
  end.

(** A [for] loop over a method body. *)
Fixpoint for_each {A : Type} (body : A -> Life -> outcome) (xs : list A) (s : Life)
  : outcome :=
  match xs with
  | [] => Ok s
  | x :: xs' =>
      match body x s with
      | Ok s' => for_each body xs' s'
      | Raise e s' => Raise e s'
      end
  end.

(** *** [Life.__init__] *)

(** [for i in range(width + 2): in_bounds[i] = in_bounds[-i] = False] *)
Definition init_rows (w : Z) (ib : list bool) : option (list bool) :=
  for_opt (fun i ib =>
             match setitem ib i false with
             | Some ib1 => setitem ib1 (- i) false
             | None => None
             end)
          (py_range (w + 2)) ib.

(** [for j in range(height): k = (j + 1) * (width + 2);
     in_bounds[k - 1] = in_bounds[k] = False] *)
Definition init_cols (w h : Z) (ib : list bool) : option (list bool) :=
  for_opt (fun j ib =>
             let k := (j + 1) * (w + 2) in
             match setitem ib (k - 1) false with
             | Some ib1 => setitem ib1 k false
             | None => None
             end)
          (py_range h) ib.

(** [[y * (width + 2) + x for x, y in product((-1, 0, 1), repeat=2) if x or y]] *)
Definition init_neighbourhood (w : Z) : list Z :=
  flat_map (fun t =>
              match t with
              | [x; y] =>
                  if negb (x =? 0) || negb (y =? 0) then [y * (w + 2) + x] else []
              | _ => []
              end)
           (product [[-1; 0; 1]] 2).

(** The constructor: the engine, or the exception it raises. *)
Definition Life_init (w h : Z) : exn + Life :=
  let cells := (w + 2) * (h + 2) in
  match init_rows w (py_repeat true cells) with
  | None => inl IndexError
  | Some ib1 =>
      match init_cols w h ib1 with
      | None => inl IndexError
      | Some ib2 =>
          inr {| width := w;
                 height := h;
                 live := py_repeat false cells;
                 in_bounds := ib2;
                 neighbours := py_repeat 0 cells;
                 neighbourhood := init_neighbourhood w;
                 needs_update := ∅ |}
      end
  end.

(** *** [Life.cell] *)

Definition cell (s : Life) (x y : Z) : Z :=
  (width s + 2) * (y + 1) + x + 1.

(** *** [Life.set] *)

Definition with_live (s : Life) (l : list bool) : Life :=
  {| width := width s; height := height s; live := l;
     in_bounds := in_bounds s; neighbours := neighbours s;
     neighbourhood := neighbourhood s; needs_update := needs_update s |}.

Definition with_neighbours (s : Life) (nb : list Z) : Life :=
  {| width := width s; height := height s; live := live s;
     in_bounds := in_bounds s; neighbours := nb;
     neighbourhood := neighbourhood s; needs_update := needs_update s |}.

Definition with_needs_update (s : Life) (d : gset Z) : Life :=
  {| width := width s; height := height s; live := live s;
     in_bounds := in_bounds s; neighbours := neighbours s;
     neighbourhood := neighbourhood s; needs_update := d |}.

(** [self.needs_update.add(p)] *)
Definition add_dirty (p : Z) (s : Life) : Life :=
  with_needs_update s (needs_update s ∪ {[ p ]}).

(** The body of [for n in self.neighbourhood], with [n0] the offset. *)
Definition set_neighbour (p adjust : Z) (n0 : Z) (s : Life) : outcome :=
  let n := n0 + p in
  match getitem (in_bounds s) n with
  | None => Raise IndexError s
  | Some false => Ok s
  | Some true =>
      match getitem (neighbours s) n with
      | None => Raise IndexError s
      | Some c =>
          match setitem (neighbours s) n (c + adjust) with
          | None => Raise IndexError s
          | Some nb => Ok (add_dirty n (with_neighbours s nb))
          end
      end
  end.

Definition set (p : Z) (value : bool) (s : Life) : outcome :=
  match getitem (live s) p with
  | None => Raise IndexError s
  | Some lp =>
      if negb (eqb value lp) then
        match getitem (in_bounds s) p with
        | None => Raise IndexError s
        | Some false => Ok s
        | Some true =>
            match setitem (live s) p value with
            | None => Raise IndexError s
            | Some l =>
                let s1 := add_dirty p (with_live s l) in
                let adjust := if value then 1 else -1 in
                for_each (set_neighbour p adjust) (neighbourhood s1) s1
            end
        end
      else Ok s
  end.

(** *** [Life.update] *)

(** [[(p, self.live[p], self.neighbours[p]) for p in self.needs_update]],
    the set being iterated in the order [order]. *)
Fixpoint snapshot (s : Life) (order : list Z) : option (list (Z * bool * Z)) :=
  match order with
  | [] => Some []
  | p :: rest =>
      match getitem (live s) p, getitem (neighbours s) p with
      | Some l, Some n =>
          match snapshot s rest with
          | Some u => Some ((p, l, n) :: u)
          | None => None
          end
      | _, _ => None
      end
  end.

(** The birth and death rule applied to one snapshotted triple. *)
Definition rule (t : Z * bool * Z) (s : Life) : outcome :=
  let '(p, l, n) := t in
  if l && negb ((2 <=? n) && (n <=? 3)) then set p false s
  else if negb l && (n =? 3) then set p true s
  else Ok s.

(** An iteration order of the dirty set: every member once. *)
Definition enumerates (order : list Z) (s : Life) : Prop :=
  NoDup order /\ forall p, p ∈ order <-> p ∈ needs_update s.

(** One generation: the body of [for _ in range(steps)], the set being
    iterated in the order [order]. *)
Definition update_gen (order : list Z) (s : Life) : outcome :=
  match snapshot s order with
  | None => Raise IndexError s
  | Some u => for_each rule u (with_needs_update s ∅)
  end.

(** [update(steps)] with [steps = length orders], generation [k] iterating
    its dirty set in the order [orders !! k]. *)
Definition update (orders : list (list Z)) (s : Life) : outcome :=
  for_each update_gen orders s.

(** *** [Life.paste] *)

(** A pattern is a Rocq [string]: a Python [str] whose characters have code
    points below 256. *)

(** Code points below 256, as characters of a Python [str]. *)
Definition code (c : ascii) : N := N_of_ascii c.

(** [str.isspace] on one character. *)
Definition is_space (c : ascii) : bool :=
  let n := code c in
  (((9 <=? n) && (n <=? 13)) || ((28 <=? n) && (n <=? 32))
   || (n =? 133) || (n =? 160))%N.

(** The characters [str.splitlines] breaks a line at. *)
Definition is_linebreak (c : ascii) : bool :=
  let n := code c in
  (((10 <=? n) && (n <=? 13)) || ((28 <=? n) && (n <=? 30)) || (n =? 133))%N.

Fixpoint lstrip (s : list ascii) : list ascii :=
  match s with
  | c :: s' => if is_space c then lstrip s' else s
  | [] => []
  end.

Definition rstrip (s : list ascii) : list ascii :=
  rev (lstrip (rev s)).

(** [str.strip()] *)
Definition strip (s : list ascii) : list ascii :=
  rstrip (lstrip s).

(** [str.splitlines()]: [cur] is the line being read, reversed. *)
Fixpoint splitlines_aux (cur : list ascii) (s : list ascii) : list (list ascii) :=
  match s with
  | [] => match cur with [] => [] | _ => [rev cur] end
  | c :: s' =>
      if is_linebreak c then
        match s' with
        | c' :: s'' =>
            if ((code c =? 13) && (code c' =? 10))%N
            then rev cur :: splitlines_aux [] s''
            else rev cur :: splitlines_aux [] s'
        | [] => [rev cur]
        end
      else splitlines_aux (c :: cur) s'
  end.

Definition splitlines (s : list ascii) : list (list ascii) :=
  splitlines_aux [] s.

(** [enumerate(xs)] *)
Definition enumerate {A : Type} (xs : list A) : list (Z * A) :=
  imap (fun i x => (Z.of_nat i, x)) xs.

Definition is_o (c : ascii) : bool :=
  (code c =? 111)%N.

(** The calls [set(cell(x + i, y + j), char == 'o')] of [paste], in order. *)
Definition paste_calls (text : list ascii) (x y : Z) : list (Z * Z * bool) :=
  flat_map (fun '(j, line) =>
              map (fun '(i, char) => (x + i, y + j, is_o char))
                  (enumerate (strip line)))
           (enumerate (splitlines (strip text))).

Definition paste (text : string) (x y : Z) (s : Life) : outcome :=
  for_each (fun '(cx, cy, v) s => set (cell s cx cy) v s)
           (paste_calls (list_ascii_of_string text) x y) s.

(** ** Specification-side vocabulary *)

(** The slots assigned by the two loops of [__init__], in order. *)
Definition rows_subscripts (w : Z) : list Z :=
  flat_map (fun i => [i; - i]) (py_range (w + 2)).

Definition cols_subscripts (w h : Z) : list Z :=
  flat_map (fun j => [(j + 1) * (w + 2) - 1; (j + 1) * (w + 2)]) (py_range h).

(** A run of subscript assignments [l[i] = v], any of which may raise. *)
Fixpoint setitems {A : Type} (idxs : list Z) (v : A) (l : list A) : option (list A) :=
  match idxs with
  | [] => Some l
  | i :: rest =>
      match setitem l i v with
      | Some l' => setitems rest v l'
      | None => None
      end
  end.

(** The border ring of the padded [(w+2) x (h+2)] grid: padded row [0] or
    [h+1], padded column [0] or [w+1]. *)
Definition border_ring (w h : Z) (j : Z) : bool :=
  let r := j / (w + 2) in
  let c := j mod (w + 2) in
  (r =? 0) || (r =? h + 1) || (c =? 0) || (c =? w + 1).

(** The interior of the padded grid. *)
Definition interior (w h : Z) (j : Z) : bool :=
  let r := j / (w + 2) in
  let c := j mod (w + 2) in
  (1 <=? r) && (r <=? h) && (1 <=? c) && (c <=? w).

(** What [__init__] leaves in [in_bounds]: the interior and two more slots,
    the right end of the last interior row and the bottom-left corner. *)
Definition mask (w h : Z) (j : Z) : bool :=
  interior w h j || (j =? (h + 1) * (w + 2) - 1) || (j =? (h + 1) * (w + 2)).

(** The number of storage slots of the padded grid. *)
Definition cells (w h : Z) : Z := (w + 2) * (h + 2).

(** The eight neighbour offsets for a padded row of [W] slots, in the order
    [__init__] lists them. *)
Definition offsets (W : Z) : list Z :=
  [- W - 1; -1; W - 1; - W; W; - W + 1; 1; W + 1].

(** The engine [__init__] builds for positive dimensions. *)
Definition fresh (w h : Z) : Life :=
  {| width := w;
     height := h;
     live := py_repeat false (cells w h);
     in_bounds := map (mask w h) (py_range (cells w h));
     neighbours := py_repeat 0 (cells w h);
     neighbourhood := offsets (w + 2);
     needs_update := ∅ |}.

(** ** The neighbour loop of [set], in closed form *)

(** The fields [set] never assigns. *)
Definition same_frame (s s' : Life) : Prop :=
  width s' = width s /\ height s' = height s /\
  in_bounds s' = in_bounds s /\ neighbourhood s' = neighbourhood s.

(** How many of the offsets [offs], added to the subscript [p], denote the
    position [k] of an [in_bounds] list [ib] and find it set. *)
Fixpoint hits (ib : list bool) (p : Z) (k : nat) (offs : list Z) : Z :=
  match offs with
  | [] => 0
  | off :: rest =>
      (if bool_decide (py_index (length ib) (off + p) = Some k /\ ib !! k = Some true)
       then 1 else 0) + hits ib p k rest
  end.

(** The subscripts the loop adds to the dirty set. *)
Definition touched (ib : list bool) (p : Z) (offs : list Z) : list Z :=
  filter (fun n => getitem ib n = Some true) (map (fun off => off + p) offs).

(** ** Engine states *)

(** A state with the frame of the engine [__init__] builds for [w] by [h]:
    only [live], [neighbours] and [needs_update] vary. *)
Record shaped (w h : Z) (s : Life) : Prop := mk_shaped {
  shaped_width : width s = w;
  shaped_height : height s = h;
  shaped_live : length (live s) = Z.to_nat (cells w h);
  shaped_in_bounds : in_bounds s = in_bounds (fresh w h);
  shaped_neighbours : length (neighbours s) = Z.to_nat (cells w h);
  shaped_neighbourhood : neighbourhood s = offsets (w + 2)
}.

(** The content of storage slot [j]; a [j] outside the storage is neither
    live nor in bounds. *)
Definition live_at (s : Life) (j : Z) : bool :=
  bool_decide (0 <= j) && default false (live s !! Z.to_nat j).

Definition in_bounds_at (s : Life) (j : Z) : bool :=
  bool_decide (0 <= j) && default false (in_bounds s !! Z.to_nat j).

Definition neighbours_at (s : Life) (j : Z) : Z :=
  default 0 (neighbours s !! Z.to_nat j).

(** The eight slots around slot [i], row by row. *)
Definition surrounding (W i : Z) : list Z :=
  [i - W - 1; i - W; i - W + 1; i - 1; i + 1; i + W - 1; i + W; i + W + 1].

(** The number of surrounding slots that are in bounds and live. *)
Definition live_neighbours (s : Life) (i : Z) : Z :=
  Z.of_nat (length (filter (fun n => in_bounds_at s n && live_at s n)
                           (surrounding (width s + 2) i))).

(** Slot [j] is one of the eight around slot [q]. *)
Definition adjacent (W q j : Z) : bool :=
  bool_decide ((j - q) ∈ offsets W).

(** [+1] or [-1], the [adjust] of [set]. *)
Definition adjust_of (value : bool) : Z := if value then 1 else -1.

(** What a call [set(p, value)] that changes slot [q] does to a state. *)
Record set_effect (w h p q : Z) (value : bool) (s s' : Life) : Prop := mk_set_effect {
  effect_shaped : shaped w h s';
  effect_live : live s' = <[Z.to_nat q := value]> (live s);
  effect_neighbours : forall j, 0 <= j < cells w h ->
    neighbours_at s' j =
    neighbours_at s j +
    (if in_bounds_at s j && adjacent (w + 2) q j then adjust_of value else 0);
  effect_needs_update :
    needs_update s' =
    needs_update s ∪ {[ p ]} ∪ list_to_set (touched (in_bounds s) p (offsets (w + 2)))
}.

(** ** Reachable states and their invariant *)

(** The invariant of the engine: the frame, exact neighbour counts at the
    slots flagged in bounds, no live slot outside them, and a dirty set of
    subscripts of such slots. *)
Record consistent (w h : Z) (s : Life) : Prop := mk_consistent {
  consistent_shaped : shaped w h s;
  consistent_counts : forall i, 0 <= i < cells w h ->
    in_bounds_at s i = true -> neighbours_at s i = live_neighbours s i;
  consistent_live : forall j, live_at s j = true -> in_bounds_at s j = true;
  consistent_dirty : forall p, p ∈ needs_update s ->
    exists q, 0 <= q < cells w h /\ (p = q \/ p = q - cells w h) /\
              in_bounds_at s q = true
}.

(** States a freshly constructed engine reaches by calls of [set] that
    return. *)
Inductive reachable_by_set (w h : Z) : Life -> Prop :=
| by_set_init s :
    Life_init w h = inr s -> reachable_by_set w h s
| by_set_step s p v s' :
    reachable_by_set w h s -> set p v s = Ok s' -> reachable_by_set w h s'.

(** Calls [update(steps)] in which each generation iterates the dirty set
    it finds, in the order the list gives for it. *)
Fixpoint scheduled (orders : list (list Z)) (s : Life) : Prop :=
  match orders with
  | [] => True
  | order :: rest =>
      enumerates order s /\
      match update_gen order s with
      | Ok s' => scheduled rest s'
      | Raise _ _ => True
      end
  end.

(** States reached through the public methods [set], [update] and [paste],
    each call returning. *)
Inductive reachable (w h : Z) : Life -> Prop :=
| reachable_init s :
    Life_init w h = inr s -> reachable w h s
| reachable_set s p v s' :
    reachable w h s -> set p v s = Ok s' -> reachable w h s'
| reachable_update s orders s' :
    reachable w h s -> scheduled orders s -> update orders s = Ok s' ->
    reachable w h s'
| reachable_paste s text x y s' :
    reachable w h s -> paste text x y s = Ok s' -> reachable w h s'.

(** ** The order of a generation *)

(** What the rule does with a snapshotted triple: a call of [set], or
    nothing. *)
Definition action (t : Z * bool * Z) : option bool :=
  let '(_, l, n) := t in
  if l && negb ((2 <=? n) && (n <=? 3)) then Some false
  else if negb l && (n =? 3) then Some true
  else None.

(** The triple the snapshot holds for the subscript [p]. *)
Definition triple (s : Life) (p : Z) : Z * bool * Z :=
  (p, default false (getitem (live s) p), default 0 (getitem (neighbours s) p)).

(** No two subscripts of the dirty set denote the same slot. *)
Definition no_alias (w h : Z) (d : gset Z) : Prop :=
  forall p1 p2, p1 ∈ d -> p2 ∈ d ->
    py_index (Z.to_nat (cells w h)) p1 = py_index (Z.to_nat (cells w h)) p2 ->
    p1 = p2.

(** ** Patterns on the board *)

(** [set(cell(x, y), True)] for each listed coordinate, in order. *)
Definition place (cs : list (Z * Z)) (s : Life) : outcome :=
  for_each (fun '(x, y) s => set (cell s x y) true s) cs s.

(** The coordinates of the live cells of the logical grid, column by
    column, read the way [draw] reads them: [live[cell(x, y)]] for [x] in
    [range(width)] and [y] in [range(height)]. *)
Definition live_cells (s : Life) : list (Z * Z) :=
  flat_map (fun x =>
              flat_map (fun y =>
                          match getitem (live s) (cell s x y) with
                          | Some true => [(x, y)]
                          | _ => []
                          end)
                       (py_range (height s)))
           (py_range (width s)).

(** The horizontal blinker on the 20 by 20 board, and the board one and two
    generations later, the dirty set iterated in the order [elements]
    lists it. *)
Definition blinker : Life :=
  state_of (place [(5, 5); (6, 5); (7, 5)] (fresh 20 20)).

Definition blinker_1 : Life :=
  state_of (update_gen (elements (needs_update blinker)) blinker).

Definition blinker_2 : Life :=
  state_of (update_gen (elements (needs_update blinker_1)) blinker_1).

(** A board of 3 by 3 in which slot [12] is dirty under two subscripts. *)
Definition aliased : Life :=
  state_of (set (-13) true
              (state_of (set (-13) false (state_of (set 12 true (fresh 3 3)))))).

(** ** Pasting near the edges *)

(** The coordinate [(cx, cy)] is a cell of the logical grid. *)
Definition in_grid (w h : Z) (c : Z * Z * bool) : bool :=
  let '(cx, cy, _) := c in
  (0 <=? cx) && (cx <? w) && (0 <=? cy) && (cy <? h).

(** The coordinate lies on the grid or on the ring of one cell around it,
    and is not one of the two ring positions [__init__] leaves flagged:
    [(w, h - 1)] and [(-1, h)]. *)
Definition near_grid (w h : Z) (c : Z * Z * bool) : Prop :=
  let '(cx, cy, _) := c in
  -1 <= cx <= w /\ -1 <= cy <= h /\
  ~ (cx = w /\ cy = h - 1) /\ ~ (cx = -1 /\ cy = h).

(** One call of the loop of [paste]. *)
Definition paste_call (c : Z * Z * bool) (s : Life) : outcome :=
  let '(cx, cy, v) := c in set (cell s cx cy) v s.

(** States reached from a freshly constructed engine by calls of [set]
    with storage indices, the subscripts in [[0, (w+2)*(h+2))], and calls
    of [update], every call returning: a call that raises is not
    followed. *)
Inductive reachable_storage (w h : Z) : Life -> Prop :=
| storage_init s :
    Life_init w h = inr s -> reachable_storage w h s
| storage_set s p v s' :
    reachable_storage w h s -> 0 <= p < cells w h -> set p v s = Ok s' ->
    reachable_storage w h s'
| storage_update s orders s' :
    reachable_storage w h s -> scheduled orders s -> update orders s = Ok s' ->
    reachable_storage w h s'.

(** ** The rule of the game *)

(** The next state of a cell that is live or not ([l]) and has [n] live
    neighbours: a live cell survives with two or three, a dead cell is
    born with exactly three. *)
Definition conway (l : bool) (n : Z) : bool :=
  if l then (2 <=? n) && (n <=? 3) else (n =? 3).

(** Slot [q] is in the dirty set, under one of its two subscripts. *)
Definition dirty_slot (w h : Z) (s : Life) (q : Z) : Prop :=
  q ∈ needs_update s \/ q - cells w h ∈ needs_update s.

(** Every slot flagged in bounds that is not dirty is one the rule of
    [update] would leave as it is. *)
Definition settled (w h : Z) (s : Life) : Prop :=
  forall q, 0 <= q < cells w h -> in_bounds_at s q = true ->
    ~ dirty_slot w h s q ->
    action (q, live_at s q, neighbours_at s q) = None.

(** The two border slots [__init__] leaves flagged in bounds are dead. *)
Definition flagged_border_dead (w h : Z) (s : Life) : Prop :=
  live_at s ((h + 1) * (w + 2) - 1) = false /\
  live_at s ((h + 1) * (w + 2)) = false.

(** ** [PygameLife] *)

(** The exceptions of the front end: the engine's, and those of a
    subscript [None] and of a division by a cell size of zero. *)
Inductive error : Type :=
| EngineError (e : exn)
| TypeError
| ZeroDivisionError.

(** A colour, as the four components of a [pygame.Color]. *)
Definition colour : Type := (Z * Z * Z * Z)%type.

Definition black : colour := (0, 0, 0, 255).
Definition white : colour := (255, 255, 255, 255).

(** A [pygame.Rect]: left, top, width, height. *)
Definition rect : Type := (Z * Z * Z * Z)%type.

(** A call [screen.fill(colour)] or [screen.fill(colour, rect)]. *)
Definition fill : Type := (colour * option rect)%type.

(** An instance of [PygameLife]: the fields of [Life] and its own. *)
Record PygameLife : Type := mkPygameLife {
  engine : Life;
  background : colour;
  foreground : colour;
  cell_size : Z
}.

(** *** [PygameLife.__init__] *)

Definition PygameLife_init (w h : Z) (bg fg : colour) (size : Z) : exn + PygameLife :=
  match Life_init w h with
  | inl e => inl e
  | inr s => inr {| engine := s; background := bg; foreground := fg;
                    cell_size := size |}
  end.

Definition with_engine (g : PygameLife) (s : Life) : PygameLife :=
  {| engine := s; background := background g; foreground := foreground g;
     cell_size := cell_size g |}.

(** *** [PygameLife.draw] *)

(** The calls of [screen.fill], in order; the surface is what they leave. *)
Definition draw (g : PygameLife) : error + list fill :=
  let c := cell_size g in
  let body :=
    fun w screen =>
      for_opt (fun h screen =>
                 match getitem (live (engine g)) (cell (engine g) w h) with
                 | None => None
                 | Some true =>
                     Some (screen ++ [(foreground g, Some (w * c, h * c, c, c))])
                 | Some false => Some screen
                 end)
              (py_range (height (engine g))) screen in
  match for_opt body (py_range (width (engine g))) [(background g, None)] with
  | None => inl (EngineError IndexError)
  | Some screen => inr screen
  end.

(** *** [PygameLife.screen_cell] *)

Definition screen_cell (g : PygameLife) (pos : Z * Z) : error + option Z :=
  let '(x, y) := pos in
  if cell_size g =? 0 then inl ZeroDivisionError
  else
    let x := x / cell_size g in
    let y := y / cell_size g in
    if (0 <=? x) && (x <? width (engine g)) && (0 <=? y) && (y <? height (engine g))
    then inr (Some (cell (engine g) x y))
    else inr None.

(** *** [PygameLife.run] *)

(** The events the loop looks at; [OtherEvent] is any other. *)
Inductive event : Type :=
| QUIT
| KEYUP (key : Z)
| MOUSEBUTTONDOWN (button : Z) (pos : Z * Z)
| MOUSEMOTION (buttons : bool * bool * bool) (pos : Z * Z)
| OtherEvent.

Definition K_ESCAPE : Z := 27.
Definition K_SPACE : Z := 32.
Definition K_p : Z := 112.
Definition K_q : Z := 113.

(** The variables of the loop. *)
Record loop : Type := mkLoop {
  game : PygameLife;
  paused : bool;
  drawing : bool;
  running : bool
}.

(** [self.set(p, value)] where [p] is what [screen_cell] returned: the
    subscript [None] is a [TypeError]. *)
Definition set_screen (p : option Z) (value : bool) (g : PygameLife) : error + PygameLife :=
  match p with
  | None => inl TypeError
  | Some p =>
      match set p value (engine g) with
      | Ok s => inr (with_engine g s)
      | Raise e _ => inl (EngineError e)
      end
  end.

(** The body of [for event in pygame.event.get()]. *)
Definition handle (ev : event) (st : loop) : error + loop :=
  let stop :=
    inr {| game := game st; paused := paused st; drawing := drawing st;
           running := false |} in
  let other := inr st in
  match ev with
  | QUIT => stop
  | KEYUP key =>
      if (key =? K_q) || (key =? K_ESCAPE) then stop
      else if (key =? K_p) || (key =? K_SPACE) then
        inr {| game := game st; paused := negb (paused st); drawing := drawing st;
               running := running st |}
      else other
  | MOUSEBUTTONDOWN button pos =>
      if button =? 1 then
        match screen_cell (game st) pos with
        | inl e => inl e
        | inr None => inl TypeError
        | inr (Some p) =>
            match getitem (live (engine (game st))) p with
            | None => inl (EngineError IndexError)
            | Some l =>
                match set_screen (Some p) (negb l) (game st) with
                | inl e => inl e
                | inr g => inr {| game := g; paused := true; drawing := negb l;
                                  running := running st |}
                end
            end
        end
      else other
  | MOUSEMOTION (held, _, _) pos =>
      if held then
        match screen_cell (game st) pos with
        | inl e => inl e
        | inr p =>
            match set_screen p (drawing st) (game st) with
            | inl e => inl e
            | inr g => inr {| game := g; paused := true; drawing := drawing st;
                              running := running st |}
            end
        end
      else other
  | OtherEvent => other
  end.

Fixpoint handle_all (evs : list event) (st : loop) : error + loop :=
  match evs with
  | [] => inr st
  | ev :: rest =>
      match handle ev st with
      | inl e => inl e
      | inr st' => handle_all rest st'
      end
  end.

(** One turn of [while running]: the events of [pygame.event.get()], the
    caption, a generation unless paused (the dirty set iterated in the
    order [order]), and the picture. *)
Definition frame (evs : list event) (order : list Z) (st : loop)
  : error + (loop * string * list fill) :=
  match handle_all evs st with
  | inl e => inl e
  | inr st1 =>
      if paused st1 then
        match draw (game st1) with
        | inl e => inl e
        | inr screen => inr (st1, "Paused (SPACE/P to run)"%string, screen)
        end
      else
        match update [order] (engine (game st1)) with
        | Raise e _ => inl (EngineError e)
        | Ok s =>
            let st2 := {| game := with_engine (game st1) s; paused := paused st1;
                          drawing := drawing st1; running := running st1 |} in
            match draw (game st2) with
            | inl e => inl e
            | inr screen => inr (st2, "Conways Game Of Life"%string, screen)
            end
        end
  end.

(** The colour the calls leave at the pixel [(px, py)]: that of the last
    call that covers it. *)
Definition covers (r : option rect) (px py : Z) : bool :=
  match r with
  | None => true
  | Some (x0, y0, w, h) =>
      (x0 <=? px) && (px <? x0 + w) && (y0 <=? py) && (py <? y0 + h)
  end.

Definition shown (screen : list fill) (px py : Z) : option colour :=
  foldl (fun acc '(col, r) => if covers r px py then Some col else acc) None screen.

(** The call [screen.fill] that [draw] makes for the live cell [(x, y)]. *)
Definition cell_fill (g : PygameLife) (c : Z * Z) : fill :=
  (foreground g,
   Some (c.1 * cell_size g, c.2 * cell_size g, cell_size g, cell_size g)).

(** The pixels of the window [run] opens, [width * cell_size] by
    [height * cell_size], for a board of [w] by [h] and cells of [c]. *)
Definition in_window (w h c : Z) (pos : Z * Z) : Prop :=
  0 <= pos.1 < w * c /\ 0 <= pos.2 < h * c.

Definition is_mouse (ev : event) : bool :=
  match ev with
  | MOUSEBUTTONDOWN _ _ | MOUSEMOTION _ _ => true
  | _ => false
  end.

(** The position of a mouse event, if it is one, is in the window. *)
Definition mouse_in_window (w h c : Z) (ev : event) : Prop :=
  match ev with
  | MOUSEBUTTONDOWN _ pos | MOUSEMOTION _ pos => in_window w h c pos
  | _ => True
  end.

(** [run]: the turns of [while running], each with the events
    [pygame.event.get()] returns in it and the iteration order of its
    generation; the captions and pictures, in order. The loop ends when
    [running] is false; the turns listed are those the run is followed
    for. *)
Fixpoint run_turns (turns : list (list event * list Z)) (st : loop)
  : error + (loop * list (string * list fill)) :=
  match turns with
  | [] => inr (st, [])
  | (evs, order) :: rest =>
      if running st then
        match frame evs order st with
        | inl e => inl e
        | inr (st', caption, screen) =>
            match run_turns rest st' with
            | inl e => inl e
            | inr (st'', out) => inr (st'', (caption, screen) :: out)
            end
        end
      else inr (st, [])
  end.

Definition run (g : PygameLife) (turns : list (list event * list Z))
  : error + (loop * list (string * list fill)) :=
  run_turns turns {| game := g; paused := false; drawing := false; running := true |}.

(** An event that asks the loop to end. *)
Definition is_quit (ev : event) : bool :=
  match ev with
  | QUIT => true
  | KEYUP key => (key =? K_q) || (key =? K_ESCAPE)
  | _ => false
  end.

(** One round on a board of 1 by 1: [set(-3, True)] and then
    [set(6, False)]; the state is the one the second call leaves, also when
    it raises. *)
Definition stale_round (s : Life) : Life :=
  state_of (set 6 false (state_of (set (-3) true s))).

(** [Life(1, 1)] after three such rounds. *)
Definition stale_board : Life :=
  stale_round (stale_round (stale_round (fresh 1 1))).
(** A decidable closed proposition, settled by evaluating its decision. *)
Ltac by_computation := apply (bool_decide_unpack _); by vm_compute.

(** ** Python subscripts *)

Section Subscripts.
Context {A : Type}.
Implicit Types (l : list A) (i : Z) (k : nat).

Lemma py_index_Some len i k :
  py_index len i = Some k ->
  (k < len)%nat /\
  (Z.of_nat k = i \/ Z.of_nat k = Z.of_nat len + i) /\
  - Z.of_nat len <= i < Z.of_nat len.
Proof.
  unfold py_index. repeat case_decide; intros [= <-]; lia.
Qed.

Lemma py_index_nonneg len i :
  0 <= i < Z.of_nat len -> py_index len i = Some (Z.to_nat i).
Proof. intros. unfold py_index. repeat case_decide; (done || lia). Qed.

Lemma py_index_neg len i :
  - Z.of_nat len <= i < 0 -> py_index len i = Some (Z.to_nat (Z.of_nat len + i)).
Proof. intros. unfold py_index. repeat case_decide; (done || lia). Qed.

Lemma py_index_None len i :
  py_index len i = None <-> i < - Z.of_nat len \/ Z.of_nat len <= i.
Proof. unfold py_index. repeat case_decide; split; (done || lia). Qed.

Lemma py_index_is_Some len i :
  is_Some (py_index len i) <-> - Z.of_nat len <= i < Z.of_nat len.
Proof.
  rewrite <- not_eq_None_Some, py_index_None. lia.
Qed.

Lemma setitem_length l i v l' : setitem l i v = Some l' -> length l' = length l.
Proof.
  unfold setitem. destruct (py_index _ _); intros [= <-].
  apply length_insert.
Qed.

Lemma getitem_is_Some l i :
  is_Some (getitem l i) <-> is_Some (py_index (length l) i).
Proof.
  unfold getitem. destruct (py_index (length l) i) as [k|] eqn:E.
  - apply py_index_Some in E as (Hk & _). split; [eauto|].
    intros _. by apply lookup_lt_is_Some.
  - split; intros [? ?]; done.
Qed.

Lemma setitems_length idxs v l l' :
  setitems idxs v l = Some l' -> length l' = length l.
Proof.
  revert l. induction idxs as [|i rest IH]; intros l; simpl.
  - by intros [= <-].
  - destruct (setitem l i v) as [l1|] eqn:E; [|done].
    intros H. apply IH in H. apply setitem_length in E. congruence.
Qed.

(** A run of assignments goes through exactly when every subscript is in
    range. *)
Lemma setitems_is_Some idxs v l :
  is_Some (setitems idxs v l) <->
  Forall (fun i => - Z.of_nat (length l) <= i < Z.of_nat (length l)) idxs.
Proof.
  revert l. induction idxs as [|i rest IH]; intros l; simpl.
  - split; eauto.
  - rewrite Forall_cons. unfold setitem at 1.
    destruct (py_index (length l) i) as [k|] eqn:E.
    + rewrite IH, length_insert.
      assert (is_Some (py_index (length l) i)) as Hs by eauto.
      apply py_index_is_Some in Hs. tauto.
    + apply py_index_None in E. split; [by intros [? ?]|]. lia.
Qed.

End Subscripts.

(** After a run of assignments, a slot holds [v] if some subscript denoted
    it and its old content otherwise. *)
Lemma setitems_lookup {A : Type} (idxs : list Z) (v : A) (l l' : list A) (k : nat) :
  setitems idxs v l = Some l' ->
  (k < length l)%nat ->
  l' !! k =
    if bool_decide (Some k ∈ map (py_index (length l)) idxs)
    then Some v else l !! k.
Proof.
  revert l. induction idxs as [|i rest IH]; intros l; cbn [setitems map].
  - intros [= <-] _. rewrite bool_decide_eq_false_2; [done|].
    by intros ?%elem_of_nil.
  - unfold setitem at 1.
    destruct (py_index (length l) i) as [k0|] eqn:E; [|done].
    intros H Hk. rewrite (IH _ H) by (by rewrite length_insert).
    rewrite length_insert.
    apply py_index_Some in E as (Hk0 & _).
    destruct (decide (k0 = k)) as [->|Hne].
    + rewrite (bool_decide_eq_true_2 (Some k ∈ Some k :: _)) by left.
      case_bool_decide; [done|]. by apply list_lookup_insert_eq.
    + rewrite list_lookup_insert_ne by done.
      rewrite (bool_decide_ext (Some k ∈ Some k0 :: map (py_index (length l)) rest)
                 (Some k ∈ map (py_index (length l)) rest)); [done|].
      rewrite elem_of_cons. intuition congruence.
Qed.

(** ** The constructor *)

(** The two loops of [__init__] are runs of assignments. *)
Lemma init_rows_setitems (w : Z) (ib : list bool) :
  init_rows w ib = setitems (rows_subscripts w) false ib.
Proof.
  unfold init_rows, rows_subscripts.
  generalize (py_range (w + 2)) as xs. intros xs. revert ib.
  induction xs as [|i xs IH]; intros ib; [done|].
  cbn [for_opt flat_map app setitems].
  destruct (setitem ib i false) as [ib1|]; [|done].
  destruct (setitem ib1 (- i) false) as [ib2|]; [|done].
  apply IH.
Qed.

Lemma init_cols_setitems (w h : Z) (ib : list bool) :
  init_cols w h ib = setitems (cols_subscripts w h) false ib.
Proof.
  unfold init_cols, cols_subscripts.
  generalize (py_range h) as xs. intros xs. revert ib.
  induction xs as [|j xs IH]; intros ib; [done|].
  cbn [for_opt flat_map app setitems].
  destruct (setitem ib ((j + 1) * (w + 2) - 1) false) as [ib1|]; [|done].
  destruct (setitem ib1 ((j + 1) * (w + 2)) false) as [ib2|]; [|done].
  apply IH.
Qed.

Lemma elem_of_py_range (n i : Z) : i ∈ py_range n <-> 0 <= i < n.
Proof.
  unfold py_range. rewrite list_elem_of_In, in_map_iff. split.
  - intros (k & <- & Hk). apply in_seq in Hk. lia.
  - intros Hi. exists (Z.to_nat i). split; [lia|]. apply in_seq. lia.
Qed.

Lemma length_py_range (n : Z) : length (py_range n) = Z.to_nat n.
Proof. unfold py_range. by rewrite length_map, length_seq. Qed.

Lemma lookup_py_range (n : Z) (k : nat) :
  (k < Z.to_nat n)%nat -> py_range n !! k = Some (Z.of_nat k).
Proof.
  intros Hk. unfold py_range. rewrite list_lookup_fmap.
  rewrite lookup_seq_lt by done. done.
Qed.

Lemma elem_of_rows_subscripts (w i : Z) :
  i ∈ rows_subscripts w <-> - (w + 2) < i < w + 2.
Proof.
  unfold rows_subscripts. rewrite list_elem_of_In, in_flat_map. split.
  - intros (k & Hk & Hi). apply list_elem_of_In, elem_of_py_range in Hk.
    cbn in Hi. lia.
  - intros Hi. exists (Z.abs i). split.
    + apply list_elem_of_In, elem_of_py_range. lia.
    + cbn. lia.
Qed.

Lemma elem_of_cols_subscripts (w h i : Z) :
  i ∈ cols_subscripts w h <->
  exists k, 1 <= k <= h /\ (i = k * (w + 2) - 1 \/ i = k * (w + 2)).
Proof.
  unfold cols_subscripts. rewrite list_elem_of_In, in_flat_map. split.
  - intros (j & Hj & Hi). apply list_elem_of_In, elem_of_py_range in Hj.
    exists (j + 1). cbn in Hi. lia.
  - intros (k & Hk & Hi). exists (k - 1). split.
    + apply list_elem_of_In, elem_of_py_range. lia.
    + cbn. replace (k - 1 + 1) with k by lia. lia.
Qed.

Lemma init_neighbourhood_eq (w : Z) :
  init_neighbourhood w =
  offsets (w + 2).
Proof.
  unfold init_neighbourhood, offsets. cbn. repeat (f_equal; try lia).
Qed.

(** Row and column of a storage slot of the padded grid. *)
Lemma row_col (W j : Z) :
  0 < W -> exists r c, j = W * r + c /\ 0 <= c < W /\ j / W = r /\ j mod W = c.
Proof.
  intros HW. exists (j / W), (j mod W).
  pose proof (Z.div_mod j W). pose proof (Z.mod_pos_bound j W). lia.
Qed.

Lemma mask_false_iff (w h j : Z) :
  0 < w -> 0 < h -> 0 <= j < (w + 2) * (h + 2) ->
  mask w h j = false <->
  (j < w + 2 \/ (w + 2) * (h + 2) - (w + 2) < j \/
   exists k, 1 <= k <= h /\ (j = k * (w + 2) - 1 \/ j = k * (w + 2))).
Proof.
  intros Hw Hh Hj. unfold mask, interior.
  destruct (row_col (w + 2) j) as (r & c & Hrc & Hc & -> & ->); [lia|].
  assert (0 <= r < h + 2) as Hr by nia.
  rewrite !orb_false_iff, !andb_false_iff, !Z.leb_gt, !Z.eqb_neq.
  split.
  - intros [[Hint Hb] Hb'].
    destruct (decide (r = 0)) as [->|Hr0]; [left; lia|].
    destruct (decide (r = h + 1)) as [->|Hrh].
    { right; left. assert (c <> 0) by nia. nia. }
    right; right.
    destruct (decide (c = 0)) as [->|Hc0].
    { exists r. split; [lia|]. right. lia. }
    assert (c = w + 1) as -> by lia.
    exists (r + 1). split; [|left; lia].
    assert (r <> h) by nia. lia.
  - intros [H|[H|(k & Hk & [H|H])]].
    + assert (r = 0) as -> by nia. nia.
    + assert (r = h + 1) as -> by nia. nia.
    + assert (r = k - 1) as -> by nia. assert (c = w + 1) as -> by lia. nia.
    + assert (r = k) as -> by nia. assert (c = 0) as -> by lia. nia.
Qed.

Lemma length_py_repeat {A : Type} (v : A) (n : Z) :
  length (py_repeat v n) = Z.to_nat n.
Proof. apply length_replicate. Qed.

Lemma cells_positive (w h : Z) : 0 < w -> 0 < h -> 9 <= (w + 2) * (h + 2).
Proof. nia. Qed.

(** What [__init__] builds for positive dimensions. *)
Lemma Life_init_fresh (w h : Z) :
  0 < w -> 0 < h -> Life_init w h = inr (fresh w h).
Proof.
  intros Hw Hh. pose proof (cells_positive w h Hw Hh) as HN.
  unfold Life_init. rewrite init_rows_setitems.
  destruct (setitems (rows_subscripts w) false (py_repeat true ((w + 2) * (h + 2))))
    as [ib1|] eqn:E1; cycle 1.
  { exfalso. apply eq_None_not_Some in E1. apply E1, setitems_is_Some.
    rewrite length_py_repeat. apply Forall_forall. intros i Hi.
    apply elem_of_rows_subscripts in Hi. nia. }
  pose proof (setitems_length _ _ _ _ E1) as L1. rewrite length_py_repeat in L1.
  rewrite init_cols_setitems.
  destruct (setitems (cols_subscripts w h) false ib1) as [ib2|] eqn:E2; cycle 1.
  { exfalso. apply eq_None_not_Some in E2. apply E2, setitems_is_Some.
    rewrite L1. apply Forall_forall. intros i Hi.
    apply elem_of_cols_subscripts in Hi as (k & Hk & Hi). nia. }
  pose proof (setitems_length _ _ _ _ E2) as L2. rewrite L1 in L2.
  unfold fresh, cells. rewrite init_neighbourhood_eq. do 2 f_equal.
  apply list_eq. intros k.
  destruct (decide (k < Z.to_nat ((w + 2) * (h + 2)))%nat) as [Hk|Hk]; cycle 1.
  { rewrite !lookup_ge_None_2; [done| |lia].
    rewrite length_map, length_py_range. lia. }
  rewrite list_lookup_fmap, lookup_py_range by done. cbn [fmap option_fmap option_map].
  rewrite (setitems_lookup _ _ _ _ k E2) by lia.
  rewrite (setitems_lookup _ _ _ _ k E1) by (rewrite length_py_repeat; lia).
  rewrite L1, length_py_repeat.
  unfold py_repeat. rewrite lookup_replicate_2 by done.
  assert (forall idxs : list Z,
             Some k ∈ map (py_index (Z.to_nat ((w + 2) * (h + 2)))) idxs <->
             exists i, i ∈ idxs /\
                       (i = Z.of_nat k \/ i = Z.of_nat k - (w + 2) * (h + 2))) as Hmem.
  { intros idxs. rewrite list_elem_of_fmap. split.
    - intros (i & Hi & Hin). exists i. split; [done|]. symmetry in Hi.
      apply py_index_Some in Hi. lia.
    - intros (i & Hin & Hi). exists i. split; [|done]. symmetry.
      destruct Hi as [->| ->].
      + rewrite py_index_nonneg by lia. f_equal. lia.
      + rewrite py_index_neg by lia. f_equal. lia. }
  pose proof (mask_false_iff w h (Z.of_nat k) Hw Hh ltac:(lia)) as Hm.
  destruct (mask w h (Z.of_nat k)) eqn:Em.
  - rewrite !bool_decide_eq_false_2; [done| |].
    + rewrite Hmem. intros (i & Hin & Hi). apply elem_of_rows_subscripts in Hin.
      enough (true = false) by done. apply Hm.
      destruct Hi as [->| ->]; [left; lia|right; left; lia].
    + rewrite Hmem. intros (i & Hin & Hi).
      apply elem_of_cols_subscripts in Hin as (k0 & Hk0 & Hi0).
      enough (true = false) by done. apply Hm.
      destruct Hi as [->| ->]; [right; right; eauto|]. nia.
  - destruct Hm as [Hm _]. specialize (Hm eq_refl).
    case_bool_decide; [done|]. rewrite bool_decide_eq_true_2; [done|].
    rewrite Hmem. destruct Hm as [Hm|[Hm|Hm]].
    + exists (Z.of_nat k). split; [|by left]. apply elem_of_rows_subscripts. lia.
    + exists (Z.of_nat k - (w + 2) * (h + 2)). split; [|by right].
      apply elem_of_rows_subscripts. lia.
    + exfalso. apply H. rewrite Hmem. exists (Z.of_nat k). split; [|by left].
      by apply elem_of_cols_subscripts.
Qed.

(** [__init__] raises exactly when one of its subscripts is out of range. *)
Lemma Life_init_raises (w h : Z) :
  Life_init w h = inl IndexError <->
  ~ (Forall (fun i => - Z.of_nat (Z.to_nat ((w + 2) * (h + 2))) <= i
                      < Z.of_nat (Z.to_nat ((w + 2) * (h + 2))))
            (rows_subscripts w ++ cols_subscripts w h)).
Proof.
  unfold Life_init. rewrite init_rows_setitems, Forall_app.
  destruct (setitems (rows_subscripts w) false (py_repeat true ((w + 2) * (h + 2))))
    as [ib1|] eqn:E1.
  - assert (is_Some (setitems (rows_subscripts w) false
                       (py_repeat true ((w + 2) * (h + 2))))) as H1 by eauto.
    apply setitems_is_Some in H1. rewrite length_py_repeat in H1.
    pose proof (setitems_length _ _ _ _ E1) as L1. rewrite length_py_repeat in L1.
    rewrite init_cols_setitems.
    destruct (setitems (cols_subscripts w h) false ib1) as [ib2|] eqn:E2.
    + assert (is_Some (setitems (cols_subscripts w h) false ib1)) as H2 by eauto.
      apply setitems_is_Some in H2. rewrite L1 in H2. split; [done|tauto].
    + split; [|done]. intros _ [_ H2].
      apply eq_None_not_Some in E2. apply E2, setitems_is_Some. by rewrite L1.
  - split; [|done]. intros _ [H1 _].
    apply eq_None_not_Some in E1. apply E1, setitems_is_Some.
    by rewrite length_py_repeat.
Qed.

Lemma Life_init_raises_iff (w h : Z) :
  Life_init w h = inl IndexError <->
  (-1 <= w /\ h <= -2) \/ (w <= -2 /\ 1 <= h).
Proof.
  rewrite Life_init_raises, Forall_app, !Forall_forall.
  set (N := (w + 2) * (h + 2)). split.
  - intros Hn.
    destruct (decide ((-1 <= w /\ h <= -2) \/ (w <= -2 /\ 1 <= h))) as [|Hc]; [done|].
    exfalso. apply Hn. split.
    + intros i Hi%elem_of_rows_subscripts. subst N. nia.
    + intros i (k & Hk & Hi)%elem_of_cols_subscripts. subst N. nia.
  - intros [[Hw Hh]|[Hw Hh]] [Hr Hc].
    + specialize (Hr 0). rewrite elem_of_rows_subscripts in Hr.
      specialize (Hr ltac:(lia)). subst N. nia.
    + specialize (Hc (w + 2)). rewrite elem_of_cols_subscripts in Hc.
      assert (N <= 0) by (subst N; nia).
      enough (- Z.of_nat (Z.to_nat N) <= w + 2 < Z.of_nat (Z.to_nat N)) by lia.
      apply Hc. exists 1. lia.
Qed.

(** ** The neighbour loop of [set] *)

Lemma same_frame_refl (s : Life) : same_frame s s.
Proof. done. Qed.

Lemma same_frame_trans (s1 s2 s3 : Life) :
  same_frame s1 s2 -> same_frame s2 s3 -> same_frame s1 s3.
Proof. unfold same_frame. intuition congruence. Qed.

Lemma getitem_Some {A : Type} (l : list A) (i : Z) (x : A) :
  getitem l i = Some x <-> exists k, py_index (length l) i = Some k /\ l !! k = Some x.
Proof.
  unfold getitem. destruct (py_index (length l) i) as [k|].
  - split; [eauto|]. by intros (k' & [= <-] & ?).
  - split; [done|]. by intros (k' & ? & ?).
Qed.

Lemma getitem_None {A : Type} (l : list A) (i : Z) :
  getitem l i = None <-> py_index (length l) i = None.
Proof.
  rewrite !eq_None_not_Some. by rewrite getitem_is_Some.
Qed.

(** One turn of the loop. *)
Lemma set_neighbour_Ok (p adj off : Z) (s : Life) (k : nat) :
  length (neighbours s) = length (in_bounds s) ->
  py_index (length (in_bounds s)) (off + p) = Some k ->
  exists s',
    set_neighbour p adj off s = Ok s' /\
    same_frame s s' /\ live s' = live s /\
    neighbours s' =
      (if bool_decide (in_bounds s !! k = Some true)
       then alter (fun c => c + adj) k (neighbours s) else neighbours s) /\
    needs_update s' =
      needs_update s ∪
      (if bool_decide (in_bounds s !! k = Some true) then {[ off + p ]} else ∅).
Proof.
  intros Hlen Hk. unfold set_neighbour, getitem, setitem.
  rewrite Hlen, Hk. pose proof (py_index_Some _ _ _ Hk) as (Hlt & _).
  destruct (lookup_lt_is_Some_2 (in_bounds s) k Hlt) as [b Hb]. rewrite Hb.
  destruct b.
  - destruct (lookup_lt_is_Some_2 (neighbours s) k ltac:(lia)) as [c Hc].
    rewrite Hc. eexists. split; [reflexivity|].
    rewrite bool_decide_eq_true_2 by done. cbn. split_and!; try done.
    apply list_eq. intros j.
    destruct (decide (k = j)) as [<-|Hne].
    + rewrite list_lookup_insert_eq, list_lookup_alter_eq by lia. by rewrite Hc.
    + by rewrite list_lookup_insert_ne, list_lookup_alter_ne.
  - exists s. rewrite bool_decide_eq_false_2 by done.
    split_and!; try done. by rewrite union_empty_r_L.
Qed.

Lemma set_neighbour_Raise (p adj off : Z) (s : Life) :
  py_index (length (in_bounds s)) (off + p) = None ->
  set_neighbour p adj off s = Raise IndexError s.
Proof.
  intros Hk. unfold set_neighbour, getitem. by rewrite Hk.
Qed.

(** The whole loop, when every subscript is in range. *)
Lemma set_loop_Ok (p adj : Z) (offs : list Z) (s : Life) :
  length (neighbours s) = length (in_bounds s) ->
  Forall (fun off => is_Some (py_index (length (in_bounds s)) (off + p))) offs ->
  exists s',
    for_each (set_neighbour p adj) offs s = Ok s' /\
    same_frame s s' /\ live s' = live s /\
    length (neighbours s') = length (neighbours s) /\
    (forall k, neighbours s' !! k =
               (fun c => c + adj * hits (in_bounds s) p k offs) <$> neighbours s !! k) /\
    needs_update s' = needs_update s ∪ list_to_set (touched (in_bounds s) p offs).
Proof.
  revert s. induction offs as [|off rest IH]; intros s Hlen Hall.
  - exists s. cbn. split_and!; try done.
    + intros k. destruct (neighbours s !! k) as [c|]; cbn; [f_equal; lia|done].
    + unfold touched. cbn. by rewrite union_empty_r_L.
  - apply Forall_cons in Hall as [[k Hk] Hall].
    destruct (set_neighbour_Ok p adj off s k Hlen Hk)
      as (s1 & E1 & F1 & L1 & N1 & D1).
    assert (in_bounds s1 = in_bounds s) as Hib by apply F1.
    assert (length (neighbours s1) = length (neighbours s)) as Hl1.
    { rewrite N1. case_bool_decide; [apply length_alter|done]. }
    destruct (IH s1) as (s' & E' & F' & L' & Hl' & N' & D').
    { by rewrite Hl1, Hib. }
    { by rewrite Hib. }
    exists s'. cbn [for_each]. rewrite E1. split; [done|].
    split; [by eapply same_frame_trans|].
    split; [congruence|]. split; [congruence|]. split.
    + intros j. rewrite N', Hib. cbn [hits]. rewrite N1.
      destruct (decide (j = k)) as [->|Hne].
      * rewrite (bool_decide_ext (py_index (length (in_bounds s)) (off + p) = Some k
                                  /\ in_bounds s !! k = Some true)
                   (in_bounds s !! k = Some true)) by tauto.
        case_bool_decide.
        -- rewrite list_lookup_alter_eq.
           destruct (neighbours s !! k); cbn; [f_equal; lia|done].
        -- destruct (neighbours s !! k); cbn; [f_equal; lia|done].
      * rewrite (bool_decide_eq_false_2
                   (py_index (length (in_bounds s)) (off + p) = Some j /\ _))
          by (intros [? _]; congruence).
        assert (forall l : list Z,
                   (if bool_decide (in_bounds s !! k = Some true)
                    then alter (fun c => c + adj) k l else l) !! j = l !! j) as ->.
        { intros l. case_bool_decide; [|done]. by rewrite list_lookup_alter_ne. }
        destruct (neighbours s !! j); cbn; [f_equal; lia|done].
    + rewrite D', D1, Hib. unfold touched. cbn [map filter list_filter].
      rewrite <- (assoc_L (∪)). f_equal.
      assert (getitem (in_bounds s) (off + p) = Some true
              <-> in_bounds s !! k = Some true) as Hg.
      { rewrite getitem_Some. split; [|eauto]. intros (k' & ? & ?). congruence. }
      case_bool_decide; case_decide; try tauto;
        first [by rewrite union_empty_l_L | by rewrite list_to_set_cons].
Qed.

(** The loop raises as soon as one subscript is out of range. *)
Lemma set_loop_Raise (p adj : Z) (offs : list Z) (s : Life) :
  length (neighbours s) = length (in_bounds s) ->
  Exists (fun off => py_index (length (in_bounds s)) (off + p) = None) offs ->
  exists s', for_each (set_neighbour p adj) offs s = Raise IndexError s' /\
             same_frame s s' /\ live s' = live s.
Proof.
  revert s. induction offs as [|off rest IH]; intros s Hlen Hex.
  - by apply Exists_nil in Hex.
  - cbn [for_each].
    destruct (py_index (length (in_bounds s)) (off + p)) as [k|] eqn:Hk.
    + apply Exists_cons in Hex as [Hex|Hex]; [congruence|].
      destruct (set_neighbour_Ok p adj off s k Hlen Hk)
        as (s1 & E1 & F1 & L1 & N1 & D1).
      assert (in_bounds s1 = in_bounds s) as Hib by apply F1.
      rewrite E1. destruct (IH s1) as (s' & E' & F' & L').
      { rewrite Hib, N1. case_bool_decide; [rewrite length_alter|]; done. }
      { by rewrite Hib. }
      exists s'. split; [done|]. split; [by eapply same_frame_trans|congruence].
    + rewrite set_neighbour_Raise by done. by exists s.
Qed.

(** ** Facts about the frame *)

Lemma offsets_NoDup (W : Z) : 3 <= W -> NoDup (offsets W).
Proof.
  intros HW. unfold offsets.
  repeat (apply NoDup_cons; split;
          [rewrite ?elem_of_cons, elem_of_nil; lia|]).
  apply NoDup_nil_2.
Qed.

Lemma elem_of_offsets (W d : Z) :
  d ∈ offsets W <->
  d = - W - 1 \/ d = -1 \/ d = W - 1 \/ d = - W \/ d = W \/ d = - W + 1 \/
  d = 1 \/ d = W + 1.
Proof.
  unfold offsets. rewrite !elem_of_cons, elem_of_nil. tauto.
Qed.

Lemma offsets_opp (W d : Z) : d ∈ offsets W <-> - d ∈ offsets W.
Proof. rewrite !elem_of_offsets. lia. Qed.

Lemma adjacent_sym (W q j : Z) : adjacent W q j = adjacent W j q.
Proof.
  unfold adjacent. apply bool_decide_ext.
  rewrite (offsets_opp W (j - q)). by replace (- (j - q)) with (q - j) by lia.
Qed.

Lemma mask_true_range (w h j : Z) :
  0 < w -> 0 < h -> mask w h j = true ->
  (w + 2) + 1 <= j <= cells w h - (w + 2).
Proof.
  intros Hw Hh. unfold mask, interior, cells.
  destruct (row_col (w + 2) j) as (r & c & Hrc & Hc & -> & ->); [lia|].
  rewrite !orb_true_iff, !andb_true_iff, !Z.leb_le, !Z.eqb_eq. nia.
Qed.

Section Shaped.
Context (w h : Z) (Hw : 0 < w) (Hh : 0 < h).
Context (s : Life) (Hs : shaped w h s).

Lemma shaped_cells : 9 <= cells w h.
Proof. unfold cells. nia. Qed.

Lemma shaped_in_bounds_lookup (j : Z) :
  0 <= j < cells w h -> in_bounds s !! Z.to_nat j = Some (mask w h j).
Proof.
  intros Hj. rewrite (shaped_in_bounds _ _ _ Hs). cbn.
  rewrite list_lookup_fmap, lookup_py_range by lia. cbn.
  by rewrite Z2Nat.id by lia.
Qed.

Lemma shaped_in_bounds_length : length (in_bounds s) = Z.to_nat (cells w h).
Proof.
  rewrite (shaped_in_bounds _ _ _ Hs). cbn.
  by rewrite length_map, length_py_range.
Qed.

Lemma in_bounds_at_shaped (j : Z) :
  in_bounds_at s j = bool_decide (0 <= j < cells w h) && mask w h j.
Proof.
  unfold in_bounds_at.
  destruct (decide (0 <= j < cells w h)) as [Hj|Hj].
  - rewrite !bool_decide_eq_true_2 by lia.
    by rewrite shaped_in_bounds_lookup by lia.
  - rewrite (bool_decide_eq_false_2 (0 <= j < cells w h)) by done.
    case_bool_decide; [|done].
    rewrite lookup_ge_None_2; [done|].
    rewrite shaped_in_bounds_length. lia.
Qed.

Lemma in_bounds_at_range (j : Z) :
  in_bounds_at s j = true -> (w + 2) + 1 <= j <= cells w h - (w + 2).
Proof.
  rewrite in_bounds_at_shaped, andb_true_iff. intros [_ H].
  by apply mask_true_range.
Qed.

Lemma in_bounds_at_lookup (j : Z) :
  0 <= j < cells w h ->
  in_bounds s !! Z.to_nat j = Some (in_bounds_at s j).
Proof.
  intros Hj. rewrite shaped_in_bounds_lookup, in_bounds_at_shaped by done.
  by rewrite bool_decide_eq_true_2.
Qed.

Lemma live_at_lookup (j : Z) :
  0 <= j < cells w h -> live s !! Z.to_nat j = Some (live_at s j).
Proof.
  intros Hj. unfold live_at. rewrite bool_decide_eq_true_2 by lia.
  destruct (lookup_lt_is_Some_2 (live s) (Z.to_nat j)) as [b ->]; [|done].
  rewrite (shaped_live _ _ _ Hs). lia.
Qed.

Lemma neighbours_at_lookup (j : Z) :
  0 <= j < cells w h -> neighbours s !! Z.to_nat j = Some (neighbours_at s j).
Proof.
  intros Hj. unfold neighbours_at.
  destruct (lookup_lt_is_Some_2 (neighbours s) (Z.to_nat j)) as [b ->]; [|done].
  rewrite (shaped_neighbours _ _ _ Hs). lia.
Qed.

(** The slot a subscript denotes. *)
Lemma py_index_slot (p : Z) (k : nat) :
  py_index (Z.to_nat (cells w h)) p = Some k ->
  0 <= Z.of_nat k < cells w h /\
  (p = Z.of_nat k \/ p = Z.of_nat k - cells w h).
Proof. intros H%py_index_Some. lia. Qed.
End Shaped.

(** ** One call of [set] *)

Lemma hits_count (ib : list bool) (p : Z) (k : nat) (offs : list Z) (b : bool) (d : Z) :
  NoDup offs ->
  (forall off, off ∈ offs ->
     (py_index (length ib) (off + p) = Some k /\ ib !! k = Some true) <->
     (b = true /\ off = d)) ->
  hits ib p k offs = if b && bool_decide (d ∈ offs) then 1 else 0.
Proof.
  induction offs as [|off rest IH]; intros Hnd Hoff.
  - cbn. rewrite bool_decide_eq_false_2 by apply not_elem_of_nil.
    by rewrite andb_false_r.
  - apply NoDup_cons in Hnd as [Hnotin Hnd]. cbn [hits].
    rewrite IH; [|done|intros; apply Hoff; by right].
    specialize (Hoff off ltac:(left)).
    destruct (decide (py_index (length ib) (off + p) = Some k /\ ib !! k = Some true))
      as [H1|H1];
      [rewrite (bool_decide_eq_true_2 _ H1)|rewrite (bool_decide_eq_false_2 _ H1)].
    + apply Hoff in H1 as [-> ->]. cbn.
      rewrite (bool_decide_eq_false_2 (d ∈ rest)) by done.
      by rewrite bool_decide_eq_true_2 by left.
    + destruct b; [|done]. cbn.
      assert (off <> d) as Hne by (intros ->; by apply H1, Hoff).
      rewrite (bool_decide_ext (d ∈ off :: rest) (d ∈ rest)); [lia|].
      rewrite elem_of_cons. intuition congruence.
Qed.

Section SetActive.
Context (w h : Z) (Hw : 0 < w) (Hh : 0 < h).
Context (s : Life) (Hs : shaped w h s).
Context (p q : Z) (Hq : 0 <= q < cells w h).
Context (Hp : p = q \/ p = q - cells w h).
Context (Hib : in_bounds_at s q = true).

Lemma active_index : py_index (Z.to_nat (cells w h)) p = Some (Z.to_nat q).
Proof using Hq Hp.
  destruct Hp as [->| ->].
  - by rewrite py_index_nonneg by lia.
  - rewrite py_index_neg by lia. f_equal. lia.
Qed.

Lemma active_subscripts_valid :
  ~ (0 <= p /\ cells w h <= q + (w + 2) + 1) ->
  Forall (fun off => is_Some (py_index (length (in_bounds s)) (off + p))) (offsets (w + 2)).
Proof using All.
  intros Hnr. pose proof (in_bounds_at_range w h Hw Hh s Hs q Hib) as Hr.
  pose proof (shaped_cells w h Hw Hh).
  rewrite (shaped_in_bounds_length w h s Hs).
  apply Forall_forall. intros off Hoff%elem_of_offsets.
  apply py_index_is_Some. lia.
Qed.

Lemma active_subscripts_invalid :
  0 <= p /\ cells w h <= q + (w + 2) + 1 ->
  Exists (fun off => py_index (length (in_bounds s)) (off + p) = None) (offsets (w + 2)).
Proof using All.
  intros Hr. rewrite (shaped_in_bounds_length w h s Hs).
  apply Exists_exists. exists ((w + 2) + 1). split.
  - apply elem_of_offsets. lia.
  - apply py_index_None. lia.
Qed.

Lemma active_hits (j : Z) :
  0 <= j < cells w h ->
  hits (in_bounds s) p (Z.to_nat j) (offsets (w + 2)) =
  if in_bounds_at s j && adjacent (w + 2) q j then 1 else 0.
Proof using All.
  intros Hj. unfold adjacent.
  pose proof (in_bounds_at_range w h Hw Hh s Hs q Hib) as Hr.
  pose proof (shaped_cells w h Hw Hh).
  apply hits_count; [apply offsets_NoDup; lia|].
  intros off Hoff%elem_of_offsets.
  rewrite (shaped_in_bounds_length w h s Hs).
  rewrite (in_bounds_at_lookup w h s Hs j Hj). split.
  - intros [Hi [= Hb]]. split; [done|].
    pose proof (in_bounds_at_range w h Hw Hh s Hs j Hb).
    apply py_index_Some in Hi. lia.
  - intros [Hb ->]. split; [|by rewrite Hb].
    destruct Hp as [->| ->].
    + replace (j - q + q) with j by lia. by rewrite py_index_nonneg by lia.
    + rewrite py_index_neg by lia. f_equal. lia.
Qed.

(** A call that changes slot [q] and whose subscripts are all in range. *)
Lemma set_active (v : bool) :
  live_at s q = negb v ->
  ~ (0 <= p /\ cells w h <= q + (w + 2) + 1) ->
  exists s', set p v s = Ok s' /\ set_effect w h p q v s s'.
Proof using All.
  intros Hlv Hnr. unfold set, getitem, setitem.
  rewrite (shaped_live w h s Hs), (shaped_in_bounds_length w h s Hs), active_index.
  rewrite (live_at_lookup w h s Hs q Hq), (in_bounds_at_lookup w h s Hs q Hq).
  rewrite Hlv, Hib. replace (negb (eqb v (negb v))) with true by by destruct v.
  cbn [neighbourhood with_live add_dirty with_needs_update].
  rewrite (shaped_neighbourhood w h s Hs).
  set (s1 := add_dirty p (with_live s (<[Z.to_nat q:=v]> (live s)))).
  destruct (set_loop_Ok p (if v then 1 else -1) (offsets (w + 2)) s1) as
    (s' & E & F & L & Hl & Hn & Hd).
  { cbn. by rewrite (shaped_neighbours w h s Hs), (shaped_in_bounds_length w h s Hs). }
  { apply active_subscripts_valid, Hnr. }
  exists s'. split; [exact E|].
  destruct F as (F1 & F2 & F3 & F4).
change (in_bounds s1) with (in_bounds s) in *.
change (neighbours s1) with (neighbours s) in *.
change (live s1) with (<[Z.to_nat q:=v]> (live s)) in *.
change (width s1) with (width s) in *. change (height s1) with (height s) in *.
change (neighbourhood s1) with (neighbourhood s) in *.
change (needs_update s1) with (needs_update s ∪ {[p]}) in *.
  split.
  - split; try congruence.
    + rewrite F1. apply Hs.
    + rewrite F2. apply Hs.
    + rewrite L, length_insert. apply Hs.
    + rewrite F3. apply Hs.
    + rewrite Hl. apply Hs.
    + rewrite F4. apply Hs.
  - done.
  - intros j Hj. unfold neighbours_at at 1. rewrite Hn.
    rewrite (neighbours_at_lookup w h s Hs j Hj), active_hits by done.
    cbn. unfold adjust_of.
    destruct (in_bounds_at s j && adjacent (w + 2) q j); destruct v; lia.
  - done.
Qed.

(** A call that changes slot [q] and runs into the end of the storage. *)
Lemma set_active_raises (v : bool) :
  live_at s q = negb v ->
  0 <= p /\ cells w h <= q + (w + 2) + 1 ->
  exists s', set p v s = Raise IndexError s' /\
             live s' = <[Z.to_nat q := v]> (live s).
Proof using All.
  intros Hlv Hr. unfold set, getitem, setitem.
  rewrite (shaped_live w h s Hs), (shaped_in_bounds_length w h s Hs), active_index.
  rewrite (live_at_lookup w h s Hs q Hq), (in_bounds_at_lookup w h s Hs q Hq).
  rewrite Hlv, Hib. replace (negb (eqb v (negb v))) with true by by destruct v.
  cbn [neighbourhood with_live add_dirty with_needs_update].
  rewrite (shaped_neighbourhood w h s Hs).
  set (s1 := add_dirty p (with_live s (<[Z.to_nat q:=v]> (live s)))).
  destruct (set_loop_Raise p (if v then 1 else -1) (offsets (w + 2)) s1) as
    (s' & E & F & L).
  { cbn. by rewrite (shaped_neighbours w h s Hs), (shaped_in_bounds_length w h s Hs). }
  { apply active_subscripts_invalid, Hr. }
  exists s'. split; [exact E|]. exact L.
Qed.
End SetActive.

Section SetCases.
Context (w h : Z) (Hw : 0 < w) (Hh : 0 < h).
Context (s : Life) (Hs : shaped w h s).

Lemma set_invalid (p : Z) (v : bool) :
  py_index (Z.to_nat (cells w h)) p = None -> set p v s = Raise IndexError s.
Proof using Hs.
  intros E. unfold set, getitem. by rewrite (shaped_live w h s Hs), E.
Qed.

Lemma set_same (p q : Z) (v : bool) :
  0 <= q < cells w h -> p = q \/ p = q - cells w h ->
  live_at s q = v -> set p v s = Ok s.
Proof using Hs.
  intros Hq Hp Hl. unfold set, getitem.
  rewrite (shaped_live w h s Hs), (active_index w h p q Hq Hp).
  rewrite (live_at_lookup w h s Hs q Hq), Hl. by destruct v.
Qed.

Lemma set_border (p q : Z) (v : bool) :
  0 <= q < cells w h -> p = q \/ p = q - cells w h ->
  in_bounds_at s q = false -> set p v s = Ok s.
Proof using Hs.
  intros Hq Hp Hl. unfold set, getitem.
  rewrite (shaped_live w h s Hs), (shaped_in_bounds_length w h s Hs).
  rewrite (active_index w h p q Hq Hp).
  rewrite (live_at_lookup w h s Hs q Hq), (in_bounds_at_lookup w h s Hs q Hq), Hl.
  by destruct (negb _).
Qed.

(** A call of [set] that returns either changed nothing or changed one
    slot flagged in bounds. *)
Lemma set_Ok_inv (p : Z) (v : bool) (s' : Life) :
  set p v s = Ok s' ->
  s' = s \/
  exists q, 0 <= q < cells w h /\ (p = q \/ p = q - cells w h) /\
            in_bounds_at s q = true /\ live_at s q = negb v /\
            set_effect w h p q v s s'.
Proof using All.
  intros E.
  destruct (py_index (Z.to_nat (cells w h)) p) as [k|] eqn:Ek; cycle 1.
  { rewrite set_invalid in E by done. done. }
  apply py_index_slot in Ek as [Hq Hp]. set (q := Z.of_nat k) in *.
  destruct (decide (live_at s q = v)) as [Hl|Hl].
  { rewrite (set_same p q) in E by done. left. congruence. }
  destruct (in_bounds_at s q) eqn:Hib; cycle 1.
  { rewrite (set_border p q) in E by done. left. congruence. }
  assert (live_at s q = negb v) as Hl' by (destruct (live_at s q), v; done).
  destruct (decide (0 <= p /\ cells w h <= q + (w + 2) + 1)) as [Hr|Hr].
  { destruct (set_active_raises w h Hw Hh s Hs p q Hq Hp Hib v Hl' Hr) as (s1 & E1 & _).
    congruence. }
  destruct (set_active w h Hw Hh s Hs p q Hq Hp Hib v Hl' Hr) as (s1 & E1 & Heff).
  right. exists q. assert (s1 = s') as <- by congruence. done.
Qed.

(** A call of [set] raises only [IndexError]: at once, on a subscript
    outside the storage, or in the neighbour loop of a slot flagged in
    bounds next to the end of the storage. *)
Lemma set_Raise_inv (p : Z) (v : bool) (e : exn) (s' : Life) :
  set p v s = Raise e s' ->
  (py_index (Z.to_nat (cells w h)) p = None /\ s' = s) \/
  exists q, 0 <= q < cells w h /\ p = q /\ cells w h <= q + (w + 2) + 1 /\
            in_bounds_at s q = true /\ live_at s q = negb v.
Proof using All.
  intros E.
  destruct (py_index (Z.to_nat (cells w h)) p) as [k|] eqn:Ek; cycle 1.
  { rewrite set_invalid in E by done. left. split; congruence. }
  apply py_index_slot in Ek as [Hq Hp]. set (q := Z.of_nat k) in *.
  destruct (decide (live_at s q = v)) as [Hl|Hl].
  { rewrite (set_same p q) in E by done. done. }
  destruct (in_bounds_at s q) eqn:Hib; cycle 1.
  { rewrite (set_border p q) in E by done. done. }
  assert (live_at s q = negb v) as Hl' by (destruct (live_at s q), v; done).
  destruct (decide (0 <= p /\ cells w h <= q + (w + 2) + 1)) as [Hr|Hr].
  { right. exists q. pose proof (shaped_cells w h Hw Hh). split_and!; try done; lia. }
  destruct (set_active w h Hw Hh s Hs p q Hq Hp Hib v Hl' Hr) as (s1 & E1 & Heff).
  congruence.
Qed.
End SetCases.

(** ** Counting live neighbours *)

Lemma length_filter_shift (f f' : Z -> bool) (q a : Z) (l : list Z) :
  NoDup l ->
  (forall n, n <> q -> f' n = f n) ->
  (if f' q then 1 else 0) = (if f q then 1 else 0) + a ->
  Z.of_nat (length (filter (fun n => f' n) l)) =
  Z.of_nat (length (filter (fun n => f n) l)) + (if bool_decide (q ∈ l) then a else 0).
Proof.
  intros Hnd Hne Hq. induction l as [|n l IH].
  - cbn. by rewrite bool_decide_eq_false_2 by apply not_elem_of_nil.
  - apply NoDup_cons in Hnd as [Hn Hnd]. specialize (IH Hnd).
    rewrite !filter_cons. destruct (decide (n = q)) as [->|Hnq].
    + rewrite (bool_decide_eq_true_2 (q ∈ q :: l)) by left.
      rewrite (bool_decide_eq_false_2 (q ∈ l)) in IH by done.
      destruct (f' q), (f q); repeat case_decide; try done; cbn [length]; lia.
    + rewrite (Hne n Hnq).
      rewrite (bool_decide_ext (q ∈ n :: l) (q ∈ l))
        by (rewrite elem_of_cons; intuition congruence).
      repeat case_decide; try done; cbn [length]; lia.
Qed.

Lemma surrounding_NoDup (W i : Z) : 3 <= W -> NoDup (surrounding W i).
Proof.
  intros HW. unfold surrounding.
  repeat (apply NoDup_cons; split;
          [rewrite ?elem_of_cons, elem_of_nil; lia|]).
  apply NoDup_nil_2.
Qed.

Lemma elem_of_surrounding (W i q : Z) :
  q ∈ surrounding W i <-> adjacent W i q = true.
Proof.
  unfold adjacent. rewrite bool_decide_eq_true, elem_of_offsets.
  unfold surrounding. rewrite !elem_of_cons, elem_of_nil. lia.
Qed.

Section Effect.
Context (w h : Z) (Hw : 0 < w) (Hh : 0 < h).
Context (s s' : Life) (Hs : shaped w h s).
Context (p q : Z) (v : bool) (Hq : 0 <= q < cells w h).
Context (Heff : set_effect w h p q v s s').

Lemma effect_in_bounds_at (j : Z) : in_bounds_at s' j = in_bounds_at s j.
Proof using Hs Heff.
  unfold in_bounds_at.
  by rewrite (shaped_in_bounds w h s' (effect_shaped _ _ _ _ _ _ _ Heff)),
     (shaped_in_bounds w h s Hs).
Qed.

Lemma effect_live_at (j : Z) :
  live_at s' j = if bool_decide (j = q) then v else live_at s j.
Proof using Hs Heff Hq.
  unfold live_at. rewrite (effect_live _ _ _ _ _ _ _ Heff).
  case_bool_decide as Hj0; cbn; [|by rewrite bool_decide_eq_false_2 by lia].
  case_bool_decide as Hjq.
  - subst j. rewrite list_lookup_insert_eq; [done|].
    rewrite (shaped_live w h s Hs). lia.
  - rewrite list_lookup_insert_ne; [done|]. lia.
Qed.

Lemma effect_live_neighbours (i : Z) :
  in_bounds_at s q = true -> live_at s q = negb v ->
  live_neighbours s' i =
  live_neighbours s i + (if adjacent (w + 2) i q then adjust_of v else 0).
Proof using All.
  intros Hib Hl. unfold live_neighbours.
  rewrite (shaped_width w h s' (effect_shaped _ _ _ _ _ _ _ Heff)),
    (shaped_width w h s Hs).
  rewrite (length_filter_shift (fun n => in_bounds_at s n && live_at s n)
             (fun n => in_bounds_at s' n && live_at s' n) q (adjust_of v)).
  - f_equal. destruct (adjacent (w + 2) i q) eqn:Ha.
    + rewrite bool_decide_eq_true_2; [done|]. by apply elem_of_surrounding.
    + rewrite bool_decide_eq_false_2; [done|].
      rewrite elem_of_surrounding. congruence.
  - apply surrounding_NoDup. lia.
  - intros n Hn. rewrite effect_in_bounds_at, effect_live_at.
    by rewrite bool_decide_eq_false_2.
  - rewrite effect_in_bounds_at, effect_live_at, Hib, Hl.
    rewrite bool_decide_eq_true_2 by done. by destruct v.
Qed.
End Effect.

(** [set] keeps the invariant. *)
Lemma set_consistent (w h : Z) (s s' : Life) (p : Z) (v : bool) :
  0 < w -> 0 < h -> consistent w h s -> set p v s = Ok s' -> consistent w h s'.
Proof.
  intros Hw Hh [Hs Hc Hl Hd] E.
  destruct (set_Ok_inv w h Hw Hh s Hs p v s' E)
    as [->|(q & Hq & Hp & Hib & Hlq & Heff)]; [done|].
  pose proof (effect_shaped _ _ _ _ _ _ _ Heff) as Hs'.
  split; [done| | |].
  - intros i Hi Hibi. rewrite (effect_in_bounds_at w h s s' Hs p q v Heff) in Hibi.
    rewrite (effect_neighbours _ _ _ _ _ _ _ Heff i Hi), Hibi.
    rewrite (effect_live_neighbours w h Hw Hh s s' Hs p q v Hq Heff i Hib Hlq).
    rewrite (Hc i Hi Hibi). cbn. by rewrite (adjacent_sym (w + 2) i q).
  - intros j. rewrite (effect_in_bounds_at w h s s' Hs p q v Heff).
    rewrite (effect_live_at w h s s' Hs p q v Hq Heff).
    case_bool_decide; [by subst|]. apply Hl.
  - intros n. rewrite (effect_needs_update _ _ _ _ _ _ _ Heff).
    setoid_rewrite (effect_in_bounds_at w h s s' Hs p q v Heff).
    rewrite !elem_of_union, elem_of_singleton, elem_of_list_to_set.
    intros [[Hn| ->]|Hn]; [by apply Hd|by exists q|].
    apply list_elem_of_filter in Hn as [Hn _].
    apply getitem_Some in Hn as (k & Hk & Hbk).
    rewrite (shaped_in_bounds_length w h s Hs) in Hk.
    apply py_index_slot in Hk as [Hk1 Hk2].
    pose proof (in_bounds_at_lookup w h s Hs (Z.of_nat k) Hk1) as Hx.
    rewrite Nat2Z.id in Hx.
    exists (Z.of_nat k). split_and!; try done; try lia. congruence.
Qed.

(** ** The invariant holds in every reachable state *)

Lemma live_neighbours_dead (s : Life) (i : Z) :
  (forall j, live_at s j = false) -> live_neighbours s i = 0.
Proof.
  intros Hdead. unfold live_neighbours.
  generalize (surrounding (width s + 2) i). intros l.
  induction l as [|n l IH]; [done|].
  rewrite filter_cons, Hdead, andb_false_r. by case_decide.
Qed.

Lemma fresh_shaped (w h : Z) : shaped w h (fresh w h).
Proof.
  split; try done; cbn; apply length_py_repeat.
Qed.

Lemma fresh_dead (w h j : Z) : live_at (fresh w h) j = false.
Proof.
  unfold live_at. cbn. unfold py_repeat.
  destruct (replicate _ _ !! _) as [b|] eqn:E.
  - apply lookup_replicate in E as [-> _]. by rewrite andb_false_r.
  - by rewrite andb_false_r.
Qed.

Lemma fresh_consistent (w h : Z) : 0 < w -> 0 < h -> consistent w h (fresh w h).
Proof.
  intros Hw Hh. split.
  - apply fresh_shaped.
  - intros i Hi _. rewrite live_neighbours_dead by apply fresh_dead.
    unfold neighbours_at. cbn. unfold py_repeat.
    by rewrite lookup_replicate_2 by lia.
  - intros j. by rewrite fresh_dead.
  - intros p. cbn. by intros ?%not_elem_of_empty.
Qed.

(** A loop of calls of [set] keeps the invariant. *)
Lemma for_each_consistent {A : Type} (w h : Z) (body : A -> Life -> outcome)
    (xs : list A) (s s' : Life) :
  (forall x s1 s2, consistent w h s1 -> body x s1 = Ok s2 -> consistent w h s2) ->
  consistent w h s -> for_each body xs s = Ok s' -> consistent w h s'.
Proof.
  intros Hbody. revert s. induction xs as [|x xs IH]; intros s Hc; cbn.
  - by intros [= <-].
  - destruct (body x s) as [s1|] eqn:E; [|done]. eauto.
Qed.

Lemma rule_consistent (w h : Z) (t : Z * bool * Z) (s s' : Life) :
  0 < w -> 0 < h -> consistent w h s -> rule t s = Ok s' -> consistent w h s'.
Proof.
  intros Hw Hh Hc. destruct t as [[p l] n]. unfold rule.
  repeat case_match; try (by intros [= <-]); by apply set_consistent.
Qed.

Lemma update_gen_consistent (w h : Z) (order : list Z) (s s' : Life) :
  0 < w -> 0 < h -> consistent w h s -> update_gen order s = Ok s' ->
  consistent w h s'.
Proof.
  intros Hw Hh Hc. unfold update_gen.
  destruct (snapshot s order) as [u|]; [|done].
  apply for_each_consistent.
  - intros t s1 s2. by apply rule_consistent.
  - destruct Hc as [[] Hcnt Hl Hd]. split; [by split|done|done|].
    cbn. by intros p ?%not_elem_of_empty.
Qed.

Lemma update_consistent (w h : Z) (orders : list (list Z)) (s s' : Life) :
  0 < w -> 0 < h -> consistent w h s -> update orders s = Ok s' ->
  consistent w h s'.
Proof.
  intros Hw Hh. apply for_each_consistent.
  intros order s1 s2. by apply update_gen_consistent.
Qed.

Lemma paste_consistent (w h : Z) (text : string) (x y : Z) (s s' : Life) :
  0 < w -> 0 < h -> consistent w h s -> paste text x y s = Ok s' ->
  consistent w h s'.
Proof.
  intros Hw Hh. apply for_each_consistent.
  intros [[cx cy] v] s1 s2. by apply set_consistent.
Qed.

Lemma reachable_by_set_reachable (w h : Z) (s : Life) :
  reachable_by_set w h s -> reachable w h s.
Proof.
  induction 1; [by apply reachable_init|by eapply reachable_set].
Qed.

Lemma reachable_consistent (w h : Z) (s : Life) :
  0 < w -> 0 < h -> reachable w h s -> consistent w h s.
Proof.
  intros Hw Hh.
  induction 1 as [s E|s p v s' _ IH E|s orders s' _ IH _ E|s text x y s' _ IH E].
  - rewrite Life_init_fresh in E by done. injection E as <-.
    by apply fresh_consistent.
  - by eapply set_consistent.
  - by eapply update_consistent.
  - by eapply paste_consistent.
Qed.

(** ** Cells of the logical grid *)

Lemma cell_row_col (w x y : Z) :
  0 < w -> 0 <= x < w ->
  ((w + 2) * (y + 1) + x + 1) / (w + 2) = y + 1 /\
  ((w + 2) * (y + 1) + x + 1) mod (w + 2) = x + 1.
Proof.
  intros Hw Hx. split; symmetry.
  - apply (Z.div_unique _ _ _ (x + 1)); lia.
  - apply (Z.mod_unique _ _ (y + 1)); lia.
Qed.

Section Grid.
Context (w h : Z) (Hw : 0 < w) (Hh : 0 < h).
Context (s : Life) (Hs : shaped w h s).
Context (x y : Z) (Hx : 0 <= x < w) (Hy : 0 <= y < h).

Lemma cell_interior : interior w h (cell s x y) = true.
Proof using All.
  unfold cell, interior. rewrite (shaped_width w h s Hs).
  destruct (cell_row_col w x y Hw Hx) as [-> ->].
  rewrite !andb_true_iff, !Z.leb_le. lia.
Qed.

Lemma cell_range : (w + 2) + 1 <= cell s x y <= cells w h - (w + 2) - 2.
Proof using All.
  unfold cell, cells. rewrite (shaped_width w h s Hs). nia.
Qed.

Lemma cell_in_bounds : in_bounds_at s (cell s x y) = true.
Proof using All.
  rewrite (in_bounds_at_shaped w h s Hs).
  pose proof cell_range. rewrite bool_decide_eq_true_2 by lia.
  unfold mask. by rewrite cell_interior.
Qed.

(** [set] on a cell of the grid returns. *)
Lemma set_cell_Ok (v : bool) :
  exists s', set (cell s x y) v s = Ok s' /\
             (s' = s \/ set_effect w h (cell s x y) (cell s x y) v s s').
Proof using All.
  pose proof cell_range as Hr. pose proof cell_in_bounds as Hib.
  destruct (decide (live_at s (cell s x y) = v)) as [Hl|Hl].
  - exists s. split; [|by left].
    apply (set_same w h s Hs _ (cell s x y)); [lia|by left|done].
  - assert (0 <= cell s x y < cells w h) as Hq by lia.
    assert (cell s x y = cell s x y \/ cell s x y = cell s x y - cells w h) as Hp
      by (by left).
    assert (live_at s (cell s x y) = negb v) as Hl'
      by (by destruct (live_at s (cell s x y)), v).
    assert (~ (0 <= cell s x y /\ cells w h <= cell s x y + (w + 2) + 1)) as Hnr
      by lia.
    destruct (set_active w h Hw Hh s Hs _ _ Hq Hp Hib v Hl' Hnr) as (s' & E & Heff).
    exists s'. split; [done|by right].
Qed.
End Grid.

(** ** Reading a slot through a subscript *)

Section Reading.
Context (w h : Z) (s : Life) (Hs : shaped w h s).
Context (p q : Z) (Hq : 0 <= q < cells w h) (Hp : p = q \/ p = q - cells w h).

Lemma getitem_live : getitem (live s) p = Some (live_at s q).
Proof using All.
  unfold getitem. rewrite (shaped_live w h s Hs), (active_index w h p q Hq Hp).
  by apply (live_at_lookup w h s Hs).
Qed.

Lemma getitem_in_bounds : getitem (in_bounds s) p = Some (in_bounds_at s q).
Proof using All.
  unfold getitem.
  rewrite (shaped_in_bounds_length w h s Hs), (active_index w h p q Hq Hp).
  by apply (in_bounds_at_lookup w h s Hs).
Qed.

Lemma getitem_neighbours : getitem (neighbours s) p = Some (neighbours_at s q).
Proof using All.
  unfold getitem. rewrite (shaped_neighbours w h s Hs), (active_index w h p q Hq Hp).
  by apply (neighbours_at_lookup w h s Hs).
Qed.
End Reading.

(** ** A board with no live cell *)

Lemma with_needs_update_id (s : Life) :
  needs_update s = ∅ -> with_needs_update s ∅ = s.
Proof. destruct s. cbn. by intros ->. Qed.

Lemma for_each_skip {A : Type} (body : A -> Life -> outcome) (xs : list A) (s : Life) :
  (forall x, x ∈ xs -> body x s = Ok s) -> for_each body xs s = Ok s.
Proof.
  induction xs as [|x xs IH]; intros H; [done|].
  cbn. rewrite H by left. apply IH. intros. apply H. by right.
Qed.

Lemma snapshot_dead (w h : Z) (s : Life) (order : list Z) :
  consistent w h s ->
  (forall j, live_at s j = false) ->
  (forall p, p ∈ order -> p ∈ needs_update s) ->
  snapshot s order = Some (map (fun p => (p, false, 0)) order).
Proof.
  intros [Hs Hc Hl Hd] Hdead. induction order as [|p order IH]; intros Hin; [done|].
  cbn [snapshot map].
  destruct (Hd p) as (q & Hq & Hp & Hib); [apply Hin; left|].
  rewrite (getitem_live w h s Hs p q Hq Hp), Hdead.
  rewrite (getitem_neighbours w h s Hs p q Hq Hp), (Hc q Hq Hib).
  rewrite live_neighbours_dead by done.
  rewrite IH; [done|]. intros. apply Hin. by right.
Qed.

(** On a board with no live cell a generation changes nothing and leaves
    the dirty set empty. *)
Lemma update_gen_dead (w h : Z) (s : Life) (order : list Z) :
  consistent w h s ->
  (forall j, live_at s j = false) ->
  (forall p, p ∈ order -> p ∈ needs_update s) ->
  update_gen order s = Ok (with_needs_update s ∅).
Proof.
  intros Hc Hdead Hin. unfold update_gen.
  rewrite (snapshot_dead w h s order Hc Hdead Hin).
  apply for_each_skip. intros t (p & -> & _)%list_elem_of_fmap. done.
Qed.

(** ** Calls of [set] on different slots commute *)

(** Two states with the same frame are equal when their cells, counts and
    dirty sets are. *)
Lemma shaped_ext (w h : Z) (s1 s2 : Life) :
  shaped w h s1 -> shaped w h s2 ->
  live s1 = live s2 ->
  (forall j, 0 <= j < cells w h -> neighbours_at s1 j = neighbours_at s2 j) ->
  needs_update s1 = needs_update s2 ->
  s1 = s2.
Proof.
  intros H1 H2 Hl Hn Hd.
  assert (neighbours s1 = neighbours s2) as Hnb.
  { apply list_eq. intros k.
    destruct (decide (k < Z.to_nat (cells w h))%nat) as [Hk|Hk].
    - pose proof (neighbours_at_lookup w h s1 H1 (Z.of_nat k) ltac:(lia)) as E1.
      pose proof (neighbours_at_lookup w h s2 H2 (Z.of_nat k) ltac:(lia)) as E2.
      rewrite Nat2Z.id in E1, E2. rewrite E1, E2. f_equal. apply Hn. lia.
    - rewrite !lookup_ge_None_2; [done|..].
      + rewrite (shaped_neighbours w h s2 H2). lia.
      + rewrite (shaped_neighbours w h s1 H1). lia. }
  destruct H1 as [A1 B1 C1 D1 E1 F1], H2 as [A2 B2 C2 D2 E2 F2].
  destruct s1, s2. cbn in *. congruence.
Qed.

(** A call of [set] that returns, with the slot it denotes and what it did. *)
Lemma set_Ok_cases (w h : Z) (s : Life) (p : Z) (v : bool) (s' : Life) :
  0 < w -> 0 < h -> shaped w h s -> set p v s = Ok s' ->
  exists q, 0 <= q < cells w h /\ (p = q \/ p = q - cells w h) /\
    ((s' = s /\ (live_at s q = v \/ in_bounds_at s q = false)) \/
     (in_bounds_at s q = true /\ live_at s q = negb v /\
      ~ (0 <= p /\ cells w h <= q + (w + 2) + 1) /\
      set_effect w h p q v s s')).
Proof.
  intros Hw Hh Hs E.
  destruct (py_index (Z.to_nat (cells w h)) p) as [k|] eqn:Ek; cycle 1.
  { rewrite (set_invalid w h s Hs) in E by done. done. }
  apply py_index_slot in Ek as [Hq Hp]. exists (Z.of_nat k).
  split; [done|]. split; [done|].
  destruct (decide (live_at s (Z.of_nat k) = v)) as [Hl|Hl].
  { rewrite (set_same w h s Hs p (Z.of_nat k)) in E by done. left.
    split; [congruence|by left]. }
  destruct (in_bounds_at s (Z.of_nat k)) eqn:Hib; cycle 1.
  { rewrite (set_border w h s Hs p (Z.of_nat k)) in E by done. left.
    split; [congruence|by right]. }
  assert (live_at s (Z.of_nat k) = negb v) as Hl'
    by (destruct (live_at s (Z.of_nat k)), v; done).
  destruct (decide (0 <= p /\ cells w h <= Z.of_nat k + (w + 2) + 1)) as [Hr|Hr].
  { destruct (set_active_raises w h Hw Hh s Hs p _ Hq Hp Hib v Hl' Hr)
      as (s1 & E1 & _). congruence. }
  destruct (set_active w h Hw Hh s Hs p _ Hq Hp Hib v Hl' Hr) as (s1 & E1 & Heff).
  right. assert (s1 = s') as <- by congruence. done.
Qed.

Lemma set_Ok_shaped (w h : Z) (s : Life) (p : Z) (v : bool) (s' : Life) :
  0 < w -> 0 < h -> shaped w h s -> set p v s = Ok s' -> shaped w h s'.
Proof.
  intros Hw Hh Hs E.
  destruct (set_Ok_cases w h s p v s' Hw Hh Hs E)
    as (q & _ & _ & [[-> _]|(_ & _ & _ & Heff)]); [done|apply Heff].
Qed.

Lemma union_swap (A B C D E : gset Z) : A ∪ B ∪ C ∪ D ∪ E = A ∪ D ∪ E ∪ B ∪ C.
Proof. apply set_eq. intros x. rewrite !elem_of_union. tauto. Qed.

Section Commute.
Context (w h : Z) (Hw : 0 < w) (Hh : 0 < h).
Context (px qx py qy : Z) (vx vy : bool).
Context (Hqx : 0 <= qx < cells w h) (Hpx : px = qx \/ px = qx - cells w h).
Context (Hqy : 0 <= qy < cells w h) (Hpy : py = qy \/ py = qy - cells w h).
Context (Hne : qx <> qy).

(** What the call on [py] did to a state does not show at slot [qx]. *)
Lemma set_other_slot (s s' : Life) :
  shaped w h s -> set py vy s = Ok s' ->
  live_at s' qx = live_at s qx /\ in_bounds_at s' qx = in_bounds_at s qx.
Proof using All.
  intros Hs E.
  destruct (set_Ok_cases w h s py vy s' Hw Hh Hs E)
    as (q & Hq & Hp & [[-> _]|(_ & _ & _ & Heff)]); [done|].
  assert (q = qy) as -> by lia.
  rewrite (effect_live_at w h s s' Hs py qy vy Hqy Heff).
  rewrite (effect_in_bounds_at w h s s' Hs py qy vy Heff).
  by rewrite bool_decide_eq_false_2.
Qed.

Lemma set_effect_commute (s sa sb sa' sb' : Life) :
  shaped w h s ->
  set_effect w h py qy vy s sa -> set_effect w h px qx vx sa sb ->
  set_effect w h px qx vx s sa' -> set_effect w h py qy vy sa' sb' ->
  sb' = sb.
Proof using All.
  intros Hs Ey Ex Ex' Ey'.
  pose proof (effect_shaped _ _ _ _ _ _ _ Ey) as Hsa.
  pose proof (effect_shaped _ _ _ _ _ _ _ Ex') as Hsa'.
  apply (shaped_ext w h); [apply Ey'|apply Ex| | |].
  - rewrite (effect_live _ _ _ _ _ _ _ Ey'), (effect_live _ _ _ _ _ _ _ Ex').
    rewrite (effect_live _ _ _ _ _ _ _ Ex), (effect_live _ _ _ _ _ _ _ Ey).
    apply list_insert_insert_ne. lia.
  - intros j Hj.
    rewrite (effect_neighbours _ _ _ _ _ _ _ Ey' j Hj).
    rewrite (effect_neighbours _ _ _ _ _ _ _ Ex' j Hj).
    rewrite (effect_neighbours _ _ _ _ _ _ _ Ex j Hj).
    rewrite (effect_neighbours _ _ _ _ _ _ _ Ey j Hj).
    rewrite (effect_in_bounds_at w h s sa Hs py qy vy Ey).
    rewrite (effect_in_bounds_at w h s sa' Hs px qx vx Ex'). lia.
  - rewrite (effect_needs_update _ _ _ _ _ _ _ Ey').
    rewrite (effect_needs_update _ _ _ _ _ _ _ Ex').
    rewrite (effect_needs_update _ _ _ _ _ _ _ Ex).
    rewrite (effect_needs_update _ _ _ _ _ _ _ Ey).
    rewrite (shaped_in_bounds w h sa Hsa), (shaped_in_bounds w h sa' Hsa').
    rewrite (shaped_in_bounds w h s Hs). apply union_swap.
Qed.
End Commute.

Lemma set_set_commute (w h : Z) (px qx py qy : Z) (vx vy : bool) (s sa sb : Life) :
  0 < w -> 0 < h ->
  0 <= qx < cells w h -> px = qx \/ px = qx - cells w h ->
  0 <= qy < cells w h -> py = qy \/ py = qy - cells w h ->
  qx <> qy ->
  shaped w h s ->
  set py vy s = Ok sa -> set px vx sa = Ok sb ->
  exists sa', set px vx s = Ok sa' /\ set py vy sa' = Ok sb.
Proof.
  intros Hw Hh Hqx Hpx Hqy Hpy Hne Hs Ey Ex.
  assert (qy <> qx) as Hne' by lia.
  pose proof (set_Ok_shaped w h s py vy sa Hw Hh Hs Ey) as Hsa.
  destruct (set_other_slot w h Hw Hh px qx py qy vx vy Hqx Hpx Hqy Hpy Hne s sa Hs Ey)
    as [Hlx Hibx].
  destruct (set_Ok_cases w h s py vy sa Hw Hh Hs Ey)
    as (q & Hq & Hp & [[-> Ry]|(Hiby & Hly & Hnry & Eff_y)]);
    (assert (q = qy) as -> by lia).
  - (* the call on [py] changed nothing *)
    exists sb. split; [done|].
    pose proof (set_Ok_shaped w h s px vx sb Hw Hh Hs Ex) as Hsb.
    destruct (set_other_slot w h Hw Hh py qy px qx vy vx Hqy Hpy Hqx Hpx Hne' s sb Hs Ex)
      as [Hl Hib].
    destruct Ry as [Ry|Ry].
    + apply (set_same w h sb Hsb py qy); [done..|congruence].
    + apply (set_border w h sb Hsb py qy); [done..|congruence].
  - destruct (set_Ok_cases w h sa px vx sb Hw Hh Hsa Ex)
      as (q & Hq' & Hp' & [[-> Rx]|(Hibx' & Hlx' & Hnrx & Eff_x)]);
      (assert (q = qx) as -> by lia).
    + (* the call on [px] changed nothing *)
      exists s. split; [|done]. destruct Rx as [Rx|Rx].
      * apply (set_same w h s Hs px qx); [done..|congruence].
      * apply (set_border w h s Hs px qx); [done..|congruence].
    + (* both calls changed their slot *)
      rewrite Hibx in Hibx'. rewrite Hlx in Hlx'.
      destruct (set_active w h Hw Hh s Hs px qx Hqx Hpx Hibx' vx Hlx' Hnrx)
        as (sa' & Ex' & Eff_x').
      pose proof (effect_shaped _ _ _ _ _ _ _ Eff_x') as Hsa'.
      assert (in_bounds_at sa' qy = true) as Hiby'.
      { by rewrite (effect_in_bounds_at w h s sa' Hs px qx vx Eff_x'). }
      assert (live_at sa' qy = negb vy) as Hly'.
      { rewrite (effect_live_at w h s sa' Hs px qx vx Hqx Eff_x').
        by rewrite bool_decide_eq_false_2. }
      destruct (set_active w h Hw Hh sa' Hsa' py qy Hqy Hpy Hiby' vy Hly' Hnry)
        as (sb' & Ey' & Eff_y').
      exists sa'. split; [done|]. rewrite Ey'. f_equal.
      by apply (set_effect_commute w h Hw Hh px qx py qy vx vy Hqx Hpx Hqy Hpy Hne
                  s sa sb sa' sb' Hs).
Qed.

(** ** The order of a generation *)

Lemma rule_action (t : Z * bool * Z) (s : Life) :
  rule t s = match action t with
             | Some v => set (fst (fst t)) v s
             | None => Ok s
             end.
Proof.
  destruct t as [[p l] n]. unfold rule, action. cbn [fst].
  by repeat case_match.
Qed.

Lemma snapshot_triples (s : Life) (order : list Z) (u : list (Z * bool * Z)) :
  snapshot s order = Some u -> u = map (triple s) order.
Proof.
  revert u. induction order as [|p order IH]; intros u; cbn [snapshot].
  - by intros [= <-].
  - destruct (getitem (live s) p) as [l|] eqn:El; [|done].
    destruct (getitem (neighbours s) p) as [n|] eqn:En; [|done].
    destruct (snapshot s order) as [u'|]; [|done].
    intros [= <-]. cbn [map]. unfold triple at 1. rewrite El, En. cbn.
    f_equal. by apply IH.
Qed.

Lemma snapshot_is_Some (s : Life) (order : list Z) :
  is_Some (snapshot s order) <->
  Forall (fun p => is_Some (getitem (live s) p) /\ is_Some (getitem (neighbours s) p))
         order.
Proof.
  induction order as [|p order IH]; cbn [snapshot].
  - split; [by constructor|eauto].
  - rewrite Forall_cons, <- IH.
    destruct (getitem (live s) p) as [l|], (getitem (neighbours s) p) as [n|],
      (snapshot s order) as [u|]; split; try (intros [? ?]; done);
      try (intros [[[? ?] [? ?]] [? ?]]; done); eauto.
Qed.

Lemma rule_shaped (w h : Z) (t : Z * bool * Z) (s s' : Life) :
  0 < w -> 0 < h -> shaped w h s -> rule t s = Ok s' -> shaped w h s'.
Proof.
  intros Hw Hh Hs. rewrite rule_action. destruct (action t) as [v|].
  - by apply set_Ok_shaped.
  - by intros [= <-].
Qed.

(** Two turns of the rule on different slots commute. *)
Lemma rule_rule_commute (w h : Z) (tx ty : Z * bool * Z) (s sa sb : Life) :
  0 < w -> 0 < h -> shaped w h s ->
  py_index (Z.to_nat (cells w h)) (fst (fst tx)) <>
  py_index (Z.to_nat (cells w h)) (fst (fst ty)) ->
  rule ty s = Ok sa -> rule tx sa = Ok sb ->
  exists sa', rule tx s = Ok sa' /\ rule ty sa' = Ok sb.
Proof.
  intros Hw Hh Hs Hne Ey Ex.
  assert (forall s0, rule ty s0 = match action ty with
                                  | Some v => set (fst (fst ty)) v s0
                                  | None => Ok s0
                                  end) as Ry by (intros; apply rule_action).
  assert (forall s0, rule tx s0 = match action tx with
                                  | Some v => set (fst (fst tx)) v s0
                                  | None => Ok s0
                                  end) as Rx by (intros; apply rule_action).
  rewrite Ry in Ey. rewrite Rx in Ex. setoid_rewrite Ry. setoid_rewrite Rx.
  destruct (action ty) as [vy|]; cycle 1.
  { injection Ey as <-. by exists sb. }
  destruct (action tx) as [vx|]; cycle 1.
  { injection Ex as <-. by exists s. }
  pose proof (set_Ok_shaped w h s _ vy sa Hw Hh Hs Ey) as Hsa.
  destruct (set_Ok_cases w h s _ vy sa Hw Hh Hs Ey) as (qy & Hqy & Hpy & _).
  destruct (set_Ok_cases w h sa _ vx sb Hw Hh Hsa Ex) as (qx & Hqx & Hpx & _).
  apply (set_set_commute w h _ qx _ qy vx vy s sa sb); try done.
  intros ->. apply Hne.
  by rewrite (active_index w h _ qy Hqy Hpx), (active_index w h _ qy Hqy Hpy).
Qed.

(** The rule applied along two orders of the same triples, no two on the
    same slot, ends in the same state. *)
Lemma rules_permute (w h : Z) (u1 u2 : list (Z * bool * Z)) :
  0 < w -> 0 < h ->
  Permutation u1 u2 ->
  forall s s',
    shaped w h s ->
    NoDup (map (fun t => py_index (Z.to_nat (cells w h)) (fst (fst t))) u1) ->
    for_each rule u1 s = Ok s' -> for_each rule u2 s = Ok s'.
Proof.
  intros Hw Hh. induction 1 as [|t u1 u2 Hp IH|tx ty u|u1 u2 u3 Hp1 IH1 Hp2 IH2];
    intros s s' Hs Hnd.
  - done.
  - cbn [for_each map] in *. apply NoDup_cons in Hnd as [_ Hnd].
    destruct (rule t s) as [s1|] eqn:E; [|done].
    apply IH; [|done]. by eapply rule_shaped.
  - cbn [for_each map] in *.
    apply NoDup_cons in Hnd as [[Hne _]%not_elem_of_cons _].
    destruct (rule ty s) as [sa|] eqn:Ey; [|done].
    destruct (rule tx sa) as [sb|] eqn:Ex; [|done].
    destruct (rule_rule_commute w h tx ty s sa sb Hw Hh Hs) as (sa' & -> & ->);
      try done.
  - intros E. apply IH2; [done| |by apply IH1].
    by rewrite <- Hp1.
Qed.

(** A generation does not depend on the order the dirty set is iterated
    in, when no two of its subscripts denote the same slot. *)
Lemma update_gen_permute (w h : Z) (s s1 : Life) (l1 l2 : list Z) :
  0 < w -> 0 < h -> shaped w h s ->
  no_alias w h (needs_update s) ->
  enumerates l1 s -> enumerates l2 s ->
  update_gen l1 s = Ok s1 -> update_gen l2 s = Ok s1.
Proof.
  intros Hw Hh Hs Hna [Hnd1 Hin1] [Hnd2 Hin2]. unfold update_gen.
  assert (Permutation l1 l2) as Hperm.
  { apply NoDup_Permutation; [done..|]. intros p. by rewrite Hin1, Hin2. }
  destruct (snapshot s l1) as [u1|] eqn:E1; [|done].
  destruct (snapshot s l2) as [u2|] eqn:E2; cycle 1.
  { exfalso. apply eq_None_not_Some in E2. apply E2, snapshot_is_Some.
    rewrite <- Hperm. apply snapshot_is_Some. eauto. }
  apply snapshot_triples in E1 as ->. apply snapshot_triples in E2 as ->.
  apply (rules_permute w h); [done..|by apply fmap_Permutation| |].
  - destruct Hs. by split.
  - rewrite <- list_fmap_compose.
    apply NoDup_fmap_2_strong; [|done].
    intros p1 p2 H1%Hin1 H2%Hin1. cbn. by apply Hna.
Qed.

(** ** Patterns on the board *)

Lemma no_alias_storage (w h : Z) (d : gset Z) :
  (forall p, p ∈ d -> 0 <= p < cells w h) -> no_alias w h d.
Proof.
  intros Hd p1 p2 H1%Hd H2%Hd. rewrite !py_index_nonneg by lia.
  intros [= E]. lia.
Qed.

Lemma enumerates_elements (s : Life) : enumerates (elements (needs_update s)) s.
Proof. split; [apply NoDup_elements|]. intros p. apply elem_of_elements. Qed.

Lemma place_consistent (w h : Z) (cs : list (Z * Z)) (s s' : Life) :
  0 < w -> 0 < h -> consistent w h s -> place cs s = Ok s' -> consistent w h s'.
Proof.
  intros Hw Hh. apply for_each_consistent.
  intros [x y] s1 s2. by apply set_consistent.
Qed.

Lemma place_reachable (w h : Z) (cs : list (Z * Z)) (s s' : Life) :
  reachable w h s -> place cs s = Ok s' -> reachable w h s'.
Proof.
  unfold place. revert s. induction cs as [|[x y] cs IH]; intros s Hr; cbn.
  - by intros [= <-].
  - destruct (set (cell s x y) true s) as [s1|] eqn:E; [|done].
    apply IH. by eapply reachable_set.
Qed.

Lemma storage_dirty (w h : Z) (d : gset Z) :
  forallb (fun p => (0 <=? p) && (p <? cells w h)) (elements d) = true ->
  forall p, p ∈ d -> 0 <= p < cells w h.
Proof.
  intros H p Hp%elem_of_elements%list_elem_of_In.
  rewrite forallb_forall in H. apply H in Hp. lia.
Qed.

(** ** Pasting near the edges *)

Lemma paste_unfold (text : string) (x y : Z) (s : Life) :
  paste text x y s =
  for_each paste_call (paste_calls (list_ascii_of_string text) x y) s.
Proof.
  unfold paste. generalize (paste_calls (list_ascii_of_string text) x y) as cs.
  intros cs. revert s. induction cs as [|[[cx cy] v] cs IH]; intros s; [done|].
  cbn [for_each paste_call]. destruct (set (cell s cx cy) v s); [apply IH|done].
Qed.

Lemma padded_row_col (w cx cy : Z) :
  0 < w -> -1 <= cx <= w ->
  ((w + 2) * (cy + 1) + cx + 1) / (w + 2) = cy + 1 /\
  ((w + 2) * (cy + 1) + cx + 1) mod (w + 2) = cx + 1.
Proof.
  intros Hw Hx. split; symmetry.
  - apply (Z.div_unique _ _ _ (cx + 1)); lia.
  - apply (Z.mod_unique _ _ (cy + 1)); lia.
Qed.

(** Off the grid but near it, the slot of a coordinate is a slot of the
    border ring that [__init__] cleared. *)
Lemma near_grid_border (w h : Z) (s : Life) (cx cy : Z) (v : bool) :
  0 < w -> 0 < h -> shaped w h s ->
  near_grid w h (cx, cy, v) -> in_grid w h (cx, cy, v) = false ->
  0 <= cell s cx cy < cells w h /\ in_bounds_at s (cell s cx cy) = false.
Proof.
  intros Hw Hh Hs (Hx & Hy & Hb & Hb') Hg.
  unfold cell. rewrite (shaped_width w h s Hs).
  assert (0 <= (w + 2) * (cy + 1) + cx + 1 < cells w h) as Hr by (unfold cells; nia).
  split; [done|].
  rewrite (in_bounds_at_shaped w h s Hs), bool_decide_eq_true_2 by done.
  unfold mask, interior. cbn [andb].
  destruct (padded_row_col w cx cy Hw Hx) as [-> ->].
  unfold in_grid in Hg.
  rewrite !andb_false_iff, !Z.leb_gt, !Z.ltb_ge in Hg.
  rewrite !orb_false_iff, !andb_false_iff, !Z.leb_gt, !Z.eqb_neq.
  split; [split|]; [lia| |].
  - intros E. apply Hb. nia.
  - intros E. apply Hb'. nia.
Qed.

(** The loop of [paste] over coordinates near the grid: it returns, the
    calls off the grid do nothing, and no slot outside the interior
    changes. *)
Lemma paste_calls_clip (w h : Z) (cs : list (Z * Z * bool)) (s : Life) :
  0 < w -> 0 < h -> shaped w h s ->
  Forall (near_grid w h) cs ->
  exists s',
    for_each paste_call cs s = Ok s' /\
    for_each paste_call (filter (fun c => in_grid w h c) cs) s = Ok s' /\
    shaped w h s' /\
    forall j, interior w h j = false -> live_at s' j = live_at s j.
Proof.
  intros Hw Hh. revert s. induction cs as [|[[cx cy] v] cs IH]; intros s Hs Hall.
  - by exists s.
  - apply Forall_cons in Hall as [Hnear Hall]. rewrite filter_cons.
    destruct (in_grid w h (cx, cy, v)) eqn:Hg.
    + rewrite decide_True by done.
      assert (0 <= cx < w /\ 0 <= cy < h) as [Hx Hy].
      { unfold in_grid in Hg.
        rewrite !andb_true_iff, !Z.leb_le, !Z.ltb_lt in Hg. lia. }
      destruct (set_cell_Ok w h Hw Hh s Hs cx cy Hx Hy v) as (s1 & E & Heff).
      assert (shaped w h s1) as Hs1 by (by eapply set_Ok_shaped).
      destruct (IH s1 Hs1 Hall) as (s' & E1 & E2 & Hs' & Hl).
      exists s'. cbn [for_each paste_call]. rewrite E. split_and!; try done.
      intros j Hj. rewrite (Hl j Hj). destruct Heff as [->|Heff]; [done|].
      pose proof (cell_range w h Hw Hh s Hs cx cy Hx Hy) as Hr.
      rewrite (effect_live_at w h s s1 Hs _ (cell s cx cy) v ltac:(lia) Heff).
      rewrite bool_decide_eq_false_2; [done|]. intros ->.
      by rewrite (cell_interior w h Hw Hh s Hs cx cy Hx Hy) in Hj.
    + rewrite decide_False by (intros Hd%Is_true_true; congruence).
      destruct (near_grid_border w h s cx cy v Hw Hh Hs Hnear Hg) as [Hr Hib].
      destruct (IH s Hs Hall) as (s' & E1 & E2 & Hs' & Hl).
      exists s'. cbn [for_each paste_call].
      rewrite (set_border w h s Hs _ (cell s cx cy)) by (done || by left).
      done.
Qed.

(** ** The mask against the border ring *)

(** The mask [__init__] computes against the border ring: they differ at
    the right end of the last interior row and at the bottom-left corner. *)
Lemma mask_border_ring (w h j : Z) :
  0 < w -> 0 < h -> 0 <= j < cells w h ->
  mask w h j =
  negb (border_ring w h j) || (j =? (h + 1) * (w + 2) - 1) || (j =? (h + 1) * (w + 2)).
Proof.
  intros Hw Hh Hj. unfold mask, interior, border_ring, cells in *.
  destruct (row_col (w + 2) j) as (r & c & Hrc & Hc & -> & ->); [lia|].
  assert (0 <= r < h + 2) as Hr by nia.
  do 2 f_equal. apply eq_true_iff_eq.
  rewrite negb_true_iff, !orb_false_iff, !andb_true_iff, !Z.leb_le, !Z.eqb_neq. lia.
Qed.

Lemma mask_misses_two_slots (w h : Z) :
  0 < w -> 0 < h ->
  (border_ring w h ((h + 1) * (w + 2) - 1) = true /\
   mask w h ((h + 1) * (w + 2) - 1) = true) /\
  (border_ring w h ((h + 1) * (w + 2)) = true /\
   mask w h ((h + 1) * (w + 2)) = true).
Proof.
  intros Hw Hh. unfold mask, border_ring. rewrite !Z.eqb_refl, !orb_true_r.
  split; (split; [|done]).
  - replace ((h + 1) * (w + 2) - 1) with ((w + 1) + h * (w + 2)) by lia.
    rewrite Z.mod_add, Z.mod_small by lia. rewrite Z.eqb_refl. apply orb_true_r.
  - rewrite Z.mod_mul by lia. cbn. by rewrite orb_true_r.
Qed.

(** ** Dirty sets of storage indices *)

Lemma set_storage_dirty (w h : Z) (s s' : Life) (p : Z) (v : bool) :
  0 < w -> 0 < h -> shaped w h s ->
  (forall n, n ∈ needs_update s -> 0 <= n < cells w h) ->
  0 <= p < cells w h -> set p v s = Ok s' ->
  forall n, n ∈ needs_update s' -> 0 <= n < cells w h.
Proof.
  intros Hw Hh Hs Hd Hp E.
  destruct (set_Ok_cases w h s p v s' Hw Hh Hs E)
    as (q & Hq & Hpq & [[-> _]|(Hib & _ & _ & Heff)]); [done|].
  assert (p = q) as -> by lia.
  pose proof (in_bounds_at_range w h Hw Hh s Hs q Hib) as Hr.
  intros n. rewrite (effect_needs_update _ _ _ _ _ _ _ Heff).
  rewrite !elem_of_union, elem_of_singleton, elem_of_list_to_set.
  intros [[Hn| ->]|Hn]; [by apply Hd|done|].
  apply list_elem_of_filter in Hn as [Hg Hn].
  apply list_elem_of_fmap in Hn as (off & -> & Hoff%elem_of_offsets).
  assert (is_Some (getitem (in_bounds s) (off + q))) as Hv by eauto.
  apply getitem_is_Some in Hv.
  rewrite (shaped_in_bounds_length w h s Hs) in Hv.
  apply py_index_is_Some in Hv. lia.
Qed.

Lemma rules_storage_dirty (w h : Z) (u : list (Z * bool * Z)) (s s' : Life) :
  0 < w -> 0 < h -> shaped w h s ->
  (forall n, n ∈ needs_update s -> 0 <= n < cells w h) ->
  Forall (fun t => 0 <= fst (fst t) < cells w h) u ->
  for_each rule u s = Ok s' ->
  forall n, n ∈ needs_update s' -> 0 <= n < cells w h.
Proof.
  intros Hw Hh. revert s. induction u as [|t u IH]; intros s Hs Hd Hall; cbn.
  - by intros [= <-].
  - apply Forall_cons in Hall as [Ht Hall].
    destruct (rule t s) as [s1|] eqn:E; [|done].
    apply IH; [by eapply rule_shaped| |done].
    rewrite rule_action in E. destruct (action t) as [v|].
    + by eapply set_storage_dirty.
    + by injection E as <-.
Qed.

Lemma update_gen_storage_dirty (w h : Z) (order : list Z) (s s' : Life) :
  0 < w -> 0 < h -> shaped w h s ->
  (forall n, n ∈ needs_update s -> 0 <= n < cells w h) ->
  enumerates order s -> update_gen order s = Ok s' ->
  forall n, n ∈ needs_update s' -> 0 <= n < cells w h.
Proof.
  intros Hw Hh Hs Hd [_ Hen]. unfold update_gen.
  destruct (snapshot s order) as [u|] eqn:Eu; [|done].
  apply snapshot_triples in Eu as ->.
  apply (rules_storage_dirty w h); [done..| | |].
  - destruct Hs. by split.
  - cbn. by intros n ?%not_elem_of_empty.
  - apply Forall_fmap, Forall_forall. intros p Hp%Hen. cbn. by apply Hd.
Qed.

(** When [set] is only called with storage indices, the dirty set holds
    storage indices only. *)
Lemma reachable_storage_dirty (w h : Z) (s : Life) :
  0 < w -> 0 < h -> reachable_storage w h s ->
  consistent w h s /\ forall n, n ∈ needs_update s -> 0 <= n < cells w h.
Proof.
  intros Hw Hh. induction 1 as [s E|s p v s' _ [Hc Hd] Hp E|s orders s' _ [Hc Hd] Hsch E].
  - rewrite Life_init_fresh in E by done. injection E as <-.
    split; [by apply fresh_consistent|]. cbn. by intros n ?%not_elem_of_empty.
  - split; [by eapply set_consistent|].
    exact (set_storage_dirty w h s s' p v Hw Hh (consistent_shaped _ _ _ Hc) Hd Hp E).
  - revert s Hc Hd Hsch E. unfold update.
    induction orders as [|o orders IH]; intros s Hc Hd Hsch; cbn.
    + by intros [= <-].
    + destruct Hsch as [Ho Hsch].
      destruct (update_gen o s) as [s1|] eqn:E1; [|done].
      apply IH; [by eapply update_gen_consistent| |done].
      exact (update_gen_storage_dirty w h o s s1 Hw Hh
               (consistent_shaped _ _ _ Hc) Hd Ho E1).
Qed.

(** With storage indices only, a generation does not depend on the order
    the dirty set is iterated in. *)
Lemma update_gen_permute_storage (w h : Z) (s s1 : Life) (l1 l2 : list Z) :
  0 < w -> 0 < h -> reachable_storage w h s ->
  enumerates l1 s -> enumerates l2 s ->
  update_gen l1 s = Ok s1 <-> update_gen l2 s = Ok s1.
Proof.
  intros Hw Hh Hr H1 H2.
  destruct (reachable_storage_dirty w h s Hw Hh Hr) as [[Hs _ _ _] Hd].
  apply no_alias_storage in Hd.
  split; by apply (update_gen_permute w h).
Qed.

(** ** The claims *)

(** C1. The neighbour-count invariant fails on the code: on [Life(1, 1)]
    the call [set(6, True)], on the bottom-left corner of the border ring
    that [__init__] leaves flagged in bounds, makes the slot live and
    raises [IndexError] before its loop reaches the offset of slot [4]. In
    the state the call leaves, slot [4] is flagged in bounds, its count is
    [0], and one of the eight slots around it is flagged and live. *)
Theorem neighbour_count_stale_after_raise :
  Life_init 1 1 = inr (fresh 1 1) /\
  border_ring 1 1 6 = true /\
  exists s',
    set 6 true (fresh 1 1) = Raise IndexError s' /\
    getitem (in_bounds s') 6 = Some true /\ getitem (live s') 6 = Some true /\
    getitem (in_bounds s') 4 = Some true /\
    getitem (neighbours s') 4 = Some 0 /\
    live_neighbours s' 4 = 1 /\
    getitem (neighbours s') 4 <> Some (live_neighbours s' 4).
Proof.
  split; [apply Life_init_fresh; lia|]. split; [by vm_compute|].
  eexists. split; [by vm_compute|].
  split; [by vm_compute|]. split; [by vm_compute|]. split; [by vm_compute|].
  split; [by vm_compute|]. split; by vm_compute.
Qed.

(** C2. Border immutability fails on the code: on [Life(1, 1)] the call
    [set(5, True)] on the border slot [5] makes it live, enters [5] in the
    dirty set and then raises [IndexError]; through the subscript [-4] of
    the same slot the call returns and the border slot stays live. *)
Theorem border_slot_set_live :
  Life_init 1 1 = inr (fresh 1 1) /\
  border_ring 1 1 5 = true /\
  (exists s', set 5 true (fresh 1 1) = Raise IndexError s' /\
              getitem (live s') 5 = Some true /\ 5 ∈ needs_update s') /\
  (exists s', set (-4) true (fresh 1 1) = Ok s' /\
              getitem (live s') 5 = Some true /\ -4 ∈ needs_update s').
Proof.
  split; [apply Life_init_fresh; lia|]. split; [by vm_compute|]. split.
  - eexists. split; [by vm_compute|]. split; [by vm_compute|].
    by_computation.
  - eexists. split; [by vm_compute|]. split; [by vm_compute|].
    by_computation.
Qed.

(** The same for every engine: the slot at the right end of the last
    interior row is a border slot that [set] makes live before it raises. *)
Lemma border_slot_set_live_general (w h : Z) :
  0 < w -> 0 < h ->
  border_ring w h ((h + 1) * (w + 2) - 1) = true /\
  exists s', set ((h + 1) * (w + 2) - 1) true (fresh w h) = Raise IndexError s' /\
             live s' = <[Z.to_nat ((h + 1) * (w + 2) - 1) := true]> (live (fresh w h)).
Proof.
  intros Hw Hh. split; [by apply mask_misses_two_slots|].
  pose proof (fresh_shaped w h) as Hs.
  assert (0 <= (h + 1) * (w + 2) - 1 < cells w h) as Hq by (unfold cells; nia).
  apply (set_active_raises w h Hw Hh (fresh w h) Hs _ ((h + 1) * (w + 2) - 1) Hq).
  - by left.
  - rewrite (in_bounds_at_shaped w h (fresh w h) Hs).
    rewrite bool_decide_eq_true_2 by done. by apply mask_misses_two_slots.
  - apply fresh_dead.
  - unfold cells. lia.
Qed.

(** The state a raising call leaves need not satisfy the invariant: on
    [Life(1, 1)], [set(6, True)] on the bottom-left corner raises after it
    made the slot live and before it reached the offset of slot [4], whose
    count stays [0] with one live neighbour flagged in bounds. *)
Lemma set_raise_leaves_stale_count :
  exists s', set 6 true (fresh 1 1) = Raise IndexError s' /\
             getitem (in_bounds s') 4 = Some true /\
             getitem (neighbours s') 4 = Some 0 /\
             live_neighbours s' 4 = 1.
Proof.
  eexists. split; [by vm_compute|]. split; [by vm_compute|]. split; by vm_compute.
Qed.

(** C3. Construction mask correctness fails on the code: after [Life(1, 1)]
    the slots [5] (padded row 1, rightmost column) and [6] (bottom row,
    leftmost column) of the border ring are left [True] in [in_bounds]. *)
Theorem init_mask_1x1 :
  exists s, Life_init 1 1 = inr s /\
            in_bounds s = [false; false; false; false; true; true; true; false; false] /\
            border_ring 1 1 5 = true /\ border_ring 1 1 6 = true.
Proof.
  eexists. split; [by vm_compute|]. by vm_compute.
Qed.


Lemma blinker_placed : place [(5, 5); (6, 5); (7, 5)] (fresh 20 20) = Ok blinker.
Proof. by vm_compute. Qed.

Lemma blinker_consistent : consistent 20 20 blinker.
Proof.
  eapply (place_consistent 20 20); [lia|lia| |exact blinker_placed].
  apply fresh_consistent; lia.
Qed.

Lemma blinker_step_1 :
  update_gen (elements (needs_update blinker)) blinker = Ok blinker_1.
Proof. by vm_compute. Qed.

Lemma blinker_step_2 :
  update_gen (elements (needs_update blinker_1)) blinker_1 = Ok blinker_2.
Proof. by vm_compute. Qed.

(** C4. The blinker has period 2: on the 20 by 20 board, all dead, after
    setting [(5,5)], [(6,5)], [(7,5)] alive, one generation of [update],
    whatever order it iterates the dirty set in, returns with exactly the
    cells [(6,4)], [(6,5)], [(6,6)] live, and a second generation, again in
    any order, returns with exactly the three original cells live, [live]
    being the list it was before the first. *)
Theorem blinker_period_two (l1 : list Z) :
  enumerates l1 blinker ->
  Life_init 20 20 = inr (fresh 20 20) /\
  place [(5, 5); (6, 5); (7, 5)] (fresh 20 20) = Ok blinker /\
  live_cells blinker = [(5, 5); (6, 5); (7, 5)] /\
  exists s1,
    update_gen l1 blinker = Ok s1 /\
    live_cells s1 = [(6, 4); (6, 5); (6, 6)] /\
    length (filter (fun b : bool => b) (live s1)) = 3%nat /\
    forall l2, enumerates l2 s1 ->
      exists s2,
        update_gen l2 s1 = Ok s2 /\
        live_cells s2 = [(5, 5); (6, 5); (7, 5)] /\
        live s2 = live blinker.
Proof.
  intros H1. split; [apply Life_init_fresh; lia|].
  split; [exact blinker_placed|]. split; [by vm_compute|].
  pose proof blinker_consistent as Hc.
  exists blinker_1. split.
  { apply (update_gen_permute 20 20 blinker blinker_1 (elements (needs_update blinker)));
      [lia|lia|apply Hc| |apply enumerates_elements|done|exact blinker_step_1].
    apply no_alias_storage, storage_dirty. by vm_compute. }
  split; [by vm_compute|]. split; [by vm_compute|].
  intros l2 H2. exists blinker_2. split.
  { apply (update_gen_permute 20 20 blinker_1 blinker_2
             (elements (needs_update blinker_1)));
      [lia|lia| | |apply enumerates_elements|done|exact blinker_step_2].
    - eapply (update_gen_consistent 20 20); [lia|lia|exact Hc|exact blinker_step_1].
    - apply no_alias_storage, storage_dirty. by vm_compute. }
  split; by vm_compute.
Qed.

Lemma blinker_period_two_witness :
  Life_init 20 20 = inr (fresh 20 20) /\
  place [(5, 5); (6, 5); (7, 5)] (fresh 20 20) = Ok blinker /\
  live_cells blinker = [(5, 5); (6, 5); (7, 5)] /\
  exists s1,
    update_gen (elements (needs_update blinker)) blinker = Ok s1 /\
    live_cells s1 = [(6, 4); (6, 5); (6, 6)] /\
    length (filter (fun b : bool => b) (live s1)) = 3%nat /\
    forall l2, enumerates l2 s1 ->
      exists s2,
        update_gen l2 s1 = Ok s2 /\
        live_cells s2 = [(5, 5); (6, 5); (7, 5)] /\
        live s2 = live blinker.
Proof.
  apply (blinker_period_two (elements (needs_update blinker))).
  apply enumerates_elements.
Defined.

(** C5. The claim fails on the code: [Life(0, 0)] is constructed. *)
Lemma construction_zero_succeeds :
  Life_init 0 0 =
  inr {| width := 0; height := 0;
         live := [false; false; false; false];
         in_bounds := [false; false; true; false];
         neighbours := [0; 0; 0; 0];
         neighbourhood := [-3; -1; 1; -2; 2; -1; 1; 3];
         needs_update := ∅ |}.
Proof. by vm_compute. Qed.

(** C5, amended. The constructor checks no dimension.  It builds the
    engine for every positive width and height; its only failure is the
    [IndexError] of a subscript of [in_bounds], raised exactly when
    [width >= -1] and [height <= -2], or [width <= -2] and [height >= 1]. *)
Theorem construction_outcome (w h : Z) :
  (forall e, Life_init w h = inl e <->
             e = IndexError /\ ((-1 <= w /\ h <= -2) \/ (w <= -2 /\ 1 <= h))) /\
  (~ ((-1 <= w /\ h <= -2) \/ (w <= -2 /\ 1 <= h)) ->
   exists s, Life_init w h = inr s) /\
  (0 < w /\ 0 < h -> Life_init w h = inr (fresh w h)).
Proof.
  split_and!.
  - intros []. rewrite Life_init_raises_iff. tauto.
  - intros Hc. destruct (Life_init w h) as [[]|s] eqn:E; [|by exists s].
    by apply Life_init_raises_iff in E.
  - intros [Hw Hh]. by apply Life_init_fresh.
Qed.

(** C6. The claim fails on the code for targets far from the grid.  On the
    3 by 3 board, [paste("o", 0, 5)] computes the cell [31], outside the
    storage of 25 slots, and raises [IndexError]; [paste("o", 5, 0)], whose
    target [(5, 0)] lies outside the grid, computes the cell [11] and sets
    the cell [(0, 1)] of the next row alive, entering it and its
    neighbours in the dirty set. *)
Lemma paste_far_from_grid :
  Life_init 3 3 = inr (fresh 3 3) /\
  paste "o" 0 5 (fresh 3 3) = Raise IndexError (fresh 3 3) /\
  exists s', paste "o" 5 0 (fresh 3 3) = Ok s' /\
             live_cells s' = [(0, 1)] /\
             needs_update s' = list_to_set [11; 6; 7; 12; 16; 17].
Proof.
  split; [apply Life_init_fresh; lia|]. split; [by vm_compute|].
  eexists. split; [by vm_compute|]. split; by vm_compute.
Qed.

(** C6, amended. Paste clipping near the grid: in every reachable state
    (positive width and height), for every pattern string and origin whose
    targets [(x + i, y + j)] all lie on the grid or on the ring of one cell
    around it, and are neither [(width, height - 1)] nor [(-1, height)],
    [paste] raises no error and does exactly what the calls with a target
    on the grid do: a character whose target is off the grid changes no
    state and enters nothing in the dirty set, and no slot outside the
    interior of the padded grid changes. *)
Theorem paste_clips_near_grid (w h : Z) (s : Life) (text : string) (x y : Z) :
  0 < w -> 0 < h -> reachable w h s ->
  Forall (near_grid w h) (paste_calls (list_ascii_of_string text) x y) ->
  exists s',
    paste text x y s = Ok s' /\
    for_each paste_call
      (filter (fun c => in_grid w h c) (paste_calls (list_ascii_of_string text) x y)) s
      = Ok s' /\
    forall j, interior w h j = false -> live_at s' j = live_at s j.
Proof.
  intros Hw Hh Hr Hnear.
  apply reachable_consistent in Hr as [Hs _ _ _]; [|done..].
  destruct (paste_calls_clip w h _ s Hw Hh Hs Hnear) as (s' & E1 & E2 & _ & Hl).
  exists s'. by rewrite paste_unfold.
Qed.

Lemma paste_clips_near_grid_witness :
  exists s',
    paste "oo
oo" (-1) (-1) (fresh 3 3) = Ok s' /\
    for_each paste_call
      (filter (fun c => in_grid 3 3 c)
              (paste_calls (list_ascii_of_string "oo
oo") (-1) (-1))) (fresh 3 3)
      = Ok s' /\
    forall j, interior 3 3 j = false -> live_at s' j = live_at (fresh 3 3) j.
Proof.
  apply (paste_clips_near_grid 3 3 (fresh 3 3)); [lia|lia| |].
  - apply reachable_init, Life_init_fresh; lia.
  - assert (paste_calls (list_ascii_of_string "oo
oo") (-1) (-1) = [(-1, -1, true); (0, -1, true); (-1, 0, true); (0, 0, true)]) as ->
      by (by vm_compute).
    repeat (apply Forall_cons; split; [unfold near_grid; lia|]). apply Forall_nil_2.
Defined.

Lemma set_neighbour_live (p adj off : Z) (s : Life) :
  live (state_of (set_neighbour p adj off s)) = live s.
Proof. unfold set_neighbour. by repeat case_match. Qed.

Lemma set_loop_live (p adj : Z) (offs : list Z) (s : Life) :
  live (state_of (for_each (set_neighbour p adj) offs s)) = live s.
Proof.
  revert s. induction offs as [|off rest IH]; intros s; [done|].
  cbn [for_each]. pose proof (set_neighbour_live p adj off s) as H.
  destruct (set_neighbour p adj off s) as [s1|e s1]; cbn in H.
  - by rewrite IH.
  - done.
Qed.

(** After a call that got past [self.live[p]], slot [p] holds [value]. *)
Lemma set_live_after (p : Z) (v : bool) (s : Life) :
  is_Some (getitem (live s) p) ->
  getitem (live (state_of (set p v s))) p = Some v \/
  state_of (set p v s) = s.
Proof.
  intros [lp Hlp]. unfold set. rewrite Hlp.
  destruct (eqb_spec v lp) as [->|Hne]; cbn [negb]; [by right|].
  destruct (getitem (in_bounds s) p) as [[]|]; [|by right..].
  assert (is_Some (py_index (length (live s)) p)) as [k Hk].
  { apply getitem_is_Some. eauto. }
  unfold setitem. rewrite Hk. left.
  rewrite set_loop_live. cbn. unfold getitem.
  rewrite length_insert, Hk. apply list_lookup_insert_eq.
  by apply py_index_Some in Hk as [? _].
Qed.

(** C7. Idempotence of [set]: in every state, for every subscript and
    value, a second call [set(p, value)] leaves the state the first call
    produced as it is; and when the first call returns, so does the
    second. *)
Theorem set_idempotent (s : Life) (p : Z) (v : bool) :
  state_of (set p v (state_of (set p v s))) = state_of (set p v s) /\
  (forall s1, set p v s = Ok s1 -> set p v s1 = Ok s1).
Proof.
  assert (forall s0, getitem (live s0) p = Some v -> set p v s0 = Ok s0) as Hsame.
  { intros s0 H. unfold set. rewrite H. by rewrite eqb_reflx. }
  destruct (getitem (live s) p) as [lp|] eqn:Hlp; cycle 1.
  { assert (set p v s = Raise IndexError s) as E by (unfold set; by rewrite Hlp).
    rewrite E. cbn. rewrite E. split; [done|]. intros s1 [=]. }
  destruct (set_live_after p v s) as [H|H]; [eauto| |].
  - split.
    + by rewrite (Hsame _ H).
    + intros s1 E. rewrite E in H. by apply Hsame.
  - split.
    + by rewrite H.
    + intros s1 E. rewrite E in H. cbn in H. by subst.
Qed.

(** C8. Quiescence fails on the code: on [Life(1, 1)], three rounds of
    [set(-3, True)], which returns, and [set(6, False)], which raises
    [IndexError] halfway through its neighbour loop, leave a board on which
    every cell is dead while the count of slot [4] is [3]. A call of
    [update] on that board returns with slot [4] live and a dirty set that
    is not empty. *)
Theorem update_revives_dead_board :
  Life_init 1 1 = inr (fresh 1 1) /\
  Forall (fun s => exists s1, set (-3) true s = Ok s1 /\
                              set 6 false s1 = Raise IndexError (stale_round s))
         [fresh 1 1; stale_round (fresh 1 1); stale_round (stale_round (fresh 1 1))] /\
  live stale_board = live (fresh 1 1) /\
  (forall j, live_at stale_board j = false) /\
  getitem (in_bounds stale_board) 4 = Some true /\
  getitem (neighbours stale_board) 4 = Some 3 /\
  exists s',
    update [elements (needs_update stale_board)] stale_board = Ok s' /\
    getitem (live s') 4 = Some true /\
    needs_update s' <> ∅.
Proof.
  split; [apply Life_init_fresh; lia|]. split.
  { repeat constructor; eexists; (split; by vm_compute). }
  assert (live stale_board = live (fresh 1 1)) as El by (by vm_compute).
  split; [done|]. split.
  { intros j. pose proof (fresh_dead 1 1 j) as Hd. unfold live_at in *.
    by rewrite El. }
  split; [by vm_compute|]. split; [by vm_compute|].
  eexists. split; [by vm_compute|]. split; [by vm_compute|].
  intros E. apply (not_elem_of_empty (C := gset Z) (-5)). rewrite <- E.
  by_computation.
Qed.

(** C9. In-range mutation safety: for positive width and height, in every
    reachable state, for every logical coordinate [(x, y)] of the grid and
    every value, [cell(x, y)] is the interior slot at padded row [y + 1] and
    padded column [x + 1], flagged in bounds; every subscript
    [set(cell(x, y), value)] uses, the cell and the cell plus each offset of
    the neighbourhood, lies in [[0, (width+2)*(height+2))], the length of
    the three arrays; and the call returns. *)
Theorem set_in_grid_safe (w h : Z) (s : Life) (x y : Z) (v : bool) :
  0 < w -> 0 < h -> reachable w h s ->
  0 <= x < w -> 0 <= y < h ->
  (cell s x y / (w + 2) = y + 1 /\ cell s x y mod (w + 2) = x + 1 /\
   interior w h (cell s x y) = true /\
   getitem (in_bounds s) (cell s x y) = Some true) /\
  (length (live s) = Z.to_nat (cells w h) /\
   length (in_bounds s) = Z.to_nat (cells w h) /\
   length (neighbours s) = Z.to_nat (cells w h) /\
   Forall (fun i => 0 <= i < cells w h)
          (cell s x y :: map (fun n => n + cell s x y) (neighbourhood s))) /\
  exists s', set (cell s x y) v s = Ok s'.
Proof.
  intros Hw Hh Hr Hx Hy.
  apply reachable_consistent in Hr as [Hs _ _ _]; [|done..].
  pose proof (cell_range w h Hw Hh s Hs x y Hx Hy) as Hc.
  split; [|split].
  - unfold cell at 1 2. rewrite (shaped_width w h s Hs).
    destruct (cell_row_col w x y Hw Hx) as [-> ->]. split_and!; try done.
    + by apply (cell_interior w h Hw Hh s Hs x y Hx Hy).
    + unfold getitem.
      rewrite (shaped_in_bounds_length w h s Hs), py_index_nonneg by lia.
      rewrite (in_bounds_at_lookup w h s Hs) by lia.
      by rewrite (cell_in_bounds w h Hw Hh s Hs x y Hx Hy).
  - split_and!; [apply Hs|by apply shaped_in_bounds_length|apply Hs|].
    rewrite (shaped_neighbourhood w h s Hs). unfold offsets.
    repeat (apply Forall_cons; split; [lia|]). apply Forall_nil_2.
  - destruct (set_cell_Ok w h Hw Hh s Hs x y Hx Hy v) as (s' & E & _). eauto.
Qed.

Lemma set_in_grid_safe_witness :
  exists s', set (cell (fresh 3 3) 2 2) true (fresh 3 3) = Ok s'.
Proof.
  apply (set_in_grid_safe 3 3 (fresh 3 3) 2 2 true); try lia.
  apply reachable_init, Life_init_fresh; lia.
Defined.

(** C10. The claim fails on the code when two subscripts of the dirty set
    denote the same slot.  On the 3 by 3 board, after [set(12, True)],
    [set(-13, False)] and [set(-13, True)], slot [12] is dirty as [12] and
    as [-13]; a generation that reaches [12] first leaves the dirty set
    [{12, 6, 7, 8, 11, 13, 16, 17, 18}], one that reaches [-13] first leaves
    [{-13, -19, -18, -17, -14, -12, -9, -8, -7}]. *)
Lemma update_order_matters_under_aliasing :
  let first := 12 :: -13 :: [6; 7; 8; 11; 13; 16; 17; 18;
                             -19; -18; -17; -14; -12; -9; -8; -7] in
  let second := -13 :: 12 :: [6; 7; 8; 11; 13; 16; 17; 18;
                              -19; -18; -17; -14; -12; -9; -8; -7] in
  reachable 3 3 aliased /\
  enumerates first aliased /\ enumerates second aliased /\
  exists s1 s2,
    update_gen first aliased = Ok s1 /\ update_gen second aliased = Ok s2 /\
    needs_update s1 = list_to_set [12; 6; 7; 8; 11; 13; 16; 17; 18] /\
    needs_update s2 = list_to_set [-13; -19; -18; -17; -14; -12; -9; -8; -7] /\
    s1 <> s2.
Proof.
  intros first second.
  assert (needs_update aliased = list_to_set first) as Hd by by vm_compute.
  assert (forall l, NoDup l -> l ≡ₚ first -> enumerates l aliased) as Hen.
  { intros l Hnd Hp. split; [done|]. intros p.
    by rewrite Hd, elem_of_list_to_set, Hp. }
  assert (NoDup first) as Hnd by by_computation.
  split_and!.
  - apply (reachable_set 3 3
             (state_of (set (-13) false (state_of (set 12 true (fresh 3 3)))))
             (-13) true); [|by vm_compute].
    apply (reachable_set 3 3 (state_of (set 12 true (fresh 3 3))) (-13) false);
      [|by vm_compute].
    apply (reachable_set 3 3 (fresh 3 3) 12 true); [|by vm_compute].
    apply reachable_init, Life_init_fresh; lia.
  - by apply Hen.
  - apply Hen; [|apply perm_swap].
    by_computation.
  - eexists _, _. split; [by vm_compute|]. split; [by vm_compute|].
    split; [by vm_compute|]. split; [by vm_compute|].
    intros E. apply (f_equal (fun s => bool_decide (12 ∈ needs_update s))) in E.
    vm_compute in E. done.
Qed.

(** C10, amended. Order-independence of a generation: in every reachable
    state (positive width and height) whose dirty set holds no two
    subscripts of the same slot, a generation returns under one iteration
    order of the dirty set exactly when it returns under any other, and
    with the same [live], [neighbours] and [needs_update]. *)
Theorem update_order_independent (w h : Z) (s : Life) (l1 l2 : list Z) (s1 : Life) :
  0 < w -> 0 < h -> reachable w h s ->
  no_alias w h (needs_update s) ->
  enumerates l1 s -> enumerates l2 s ->
  update_gen l1 s = Ok s1 <-> update_gen l2 s = Ok s1.
Proof.
  intros Hw Hh Hr Hna H1 H2.
  apply reachable_consistent in Hr as [Hs _ _ _]; [|done..].
  split; by apply (update_gen_permute w h).
Qed.

Lemma update_order_independent_witness :
  update_gen (elements (needs_update blinker)) blinker = Ok blinker_1 <->
  update_gen (reverse (elements (needs_update blinker))) blinker = Ok blinker_1.
Proof.
  apply (update_order_independent 20 20); [lia|lia| | | |].
  - apply (place_reachable 20 20 [(5, 5); (6, 5); (7, 5)] (fresh 20 20));
      [|by vm_compute].
    apply reachable_init, Life_init_fresh; lia.
  - apply no_alias_storage, storage_dirty. by vm_compute.
  - apply enumerates_elements.
  - destruct (enumerates_elements blinker) as [Hnd Hin]. split.
    + by rewrite reverse_Permutation.
    + intros p. by rewrite elem_of_reverse.
Defined.

(** ** Further properties of the engine *)

(** *** What [set] never does *)

Lemma set_neighbour_frame (p adj off : Z) (s : Life) :
  let s' := state_of (set_neighbour p adj off s) in
  same_frame s s' /\ live s' = live s /\
  length (neighbours s') = length (neighbours s) /\
  needs_update s ⊆ needs_update s'.
Proof.
  unfold set_neighbour, setitem.
  destruct (getitem (in_bounds s) (off + p)) as [[]|]; cbn; try done.
  destruct (getitem (neighbours s) (off + p)) as [c|]; cbn; try done.
  destruct (py_index (length (neighbours s)) (off + p)) as [k|]; cbn; try done.
  split_and!; try done.
  - apply length_insert.
  - apply union_subseteq_l.
Qed.

Lemma set_loop_frame (p adj : Z) (offs : list Z) (s : Life) :
  let s' := state_of (for_each (set_neighbour p adj) offs s) in
  same_frame s s' /\ live s' = live s /\
  length (neighbours s') = length (neighbours s) /\
  needs_update s ⊆ needs_update s'.
Proof.
  revert s. induction offs as [|off rest IH]; intros s; [done|].
  cbn [for_each].
  pose proof (set_neighbour_frame p adj off s) as (F1 & L1 & N1 & D1).
  destruct (set_neighbour p adj off s) as [s1|e s1]; cbn in F1, L1, N1, D1.
  - destruct (IH s1) as (F2 & L2 & N2 & D2). cbn zeta.
    split_and!; [by eapply same_frame_trans|congruence|congruence|].
    by transitivity (needs_update s1).
  - done.
Qed.

(** X1. Whatever the state, the subscript and the value, and whether the
    call returns or raises, [set(p, value)] leaves [width], [height],
    [in_bounds] and [neighbourhood] as they are, keeps the lengths of
    [live] and [neighbours], removes nothing from [needs_update], and
    changes [live] at no position other than the one [p] denotes. *)
Theorem set_frame (s : Life) (p : Z) (v : bool) :
  let s' := state_of (set p v s) in
  same_frame s s' /\
  length (live s') = length (live s) /\
  length (neighbours s') = length (neighbours s) /\
  needs_update s ⊆ needs_update s' /\
  forall k, py_index (length (live s)) p <> Some k -> live s' !! k = live s !! k.
Proof.
  unfold set, setitem.
  destruct (getitem (live s) p) as [lp|]; cbn; [|done].
  destruct (negb (eqb v lp)); cbn; [|done].
  destruct (getitem (in_bounds s) p) as [[]|]; cbn; try done.
  destruct (py_index (length (live s)) p) as [k0|] eqn:Ek; cbn; [|done].
  pose proof (set_loop_frame p (if v then 1 else -1) (neighbourhood s)
                (add_dirty p (with_live s (<[k0:=v]> (live s)))))
    as (F & L & N & D).
  cbn in F, L, N, D. cbn [neighbourhood add_dirty with_needs_update with_live].
  split_and!; try done.
  - rewrite L. apply length_insert.
  - etransitivity; [|exact D]. apply union_subseteq_l.
  - intros k Hk. rewrite L. apply list_lookup_insert_ne. congruence.
Qed.

(** *** The border slots [__init__] cleared *)

(** X2. In every reachable state (positive width and height), a storage
    slot with [in_bounds] false, that is every slot of the border ring but
    the two [__init__] leaves flagged, is dead, and [set] on it, with either
    value, returns and changes nothing. *)
Theorem cleared_border_immutable (w h : Z) (s : Life) (q : Z) (v : bool) :
  0 < w -> 0 < h -> reachable w h s ->
  0 <= q < cells w h ->
  mask w h q = false ->
  border_ring w h q = true /\
  getitem (in_bounds s) q = Some false /\
  getitem (live s) q = Some false /\
  set q v s = Ok s.
Proof.
  intros Hw Hh Hr Hq Hm.
  apply reachable_consistent in Hr as [Hs _ Hl _]; [|done..].
  assert (in_bounds_at s q = false) as Hib.
  { rewrite (in_bounds_at_shaped w h s Hs), Hm. apply andb_false_r. }
  split_and!.
  - rewrite (mask_border_ring w h q Hw Hh Hq) in Hm.
    rewrite !orb_false_iff, negb_false_iff in Hm. tauto.
  - by rewrite (getitem_in_bounds w h s Hs q q Hq ltac:(by left)), Hib.
  - rewrite (getitem_live w h s Hs q q Hq ltac:(by left)). f_equal.
    destruct (live_at s q) eqn:E; [|done]. apply Hl in E. congruence.
  - apply (set_border w h s Hs q q); [done|by left|done].
Qed.

Lemma cleared_border_immutable_witness :
  border_ring 3 3 4 = true /\
  getitem (in_bounds (fresh 3 3)) 4 = Some false /\
  getitem (live (fresh 3 3)) 4 = Some false /\
  set 4 true (fresh 3 3) = Ok (fresh 3 3).
Proof.
  apply (cleared_border_immutable 3 3 (fresh 3 3) 4 true); [lia|lia| |done|done].
  apply reachable_init, Life_init_fresh; lia.
Defined.

(** *** Bounds on the counts *)

Lemma live_neighbours_range (s : Life) (i : Z) : 0 <= live_neighbours s i <= 8.
Proof.
  unfold live_neighbours. split; [lia|].
  pose proof (length_filter (fun n => in_bounds_at s n && live_at s n)
                (surrounding (width s + 2) i)) as H.
  cbn [surrounding length] in H. lia.
Qed.

(** X3. In every reachable state, the count [neighbours[i]] of a slot
    flagged in bounds lies between 0 and 8. *)
Theorem neighbours_between_0_and_8 (w h : Z) (s : Life) (i : Z) :
  0 < w -> 0 < h -> reachable w h s ->
  0 <= i < cells w h ->
  getitem (in_bounds s) i = Some true ->
  exists c, getitem (neighbours s) i = Some c /\ 0 <= c <= 8.
Proof.
  intros Hw Hh Hr Hi Hib.
  apply reachable_consistent in Hr as [Hs Hc _ _]; [|done..].
  rewrite (getitem_in_bounds w h s Hs i i Hi ltac:(by left)) in Hib.
  exists (live_neighbours s i). split; [|apply live_neighbours_range].
  rewrite (getitem_neighbours w h s Hs i i Hi ltac:(by left)). f_equal.
  apply Hc; congruence.
Qed.

Lemma neighbours_between_0_and_8_witness :
  exists c, getitem (neighbours (state_of (set 12 true (fresh 3 3)))) 13 = Some c /\
            0 <= c <= 8.
Proof.
  apply (neighbours_between_0_and_8 3 3); [lia|lia| |done|by vm_compute].
  apply (reachable_set 3 3 (fresh 3 3) 12 true); [|by vm_compute].
  apply reachable_init, Life_init_fresh; lia.
Defined.


(** ** What a generation computes *)

Lemma action_conway (p : Z) (l : bool) (n : Z) :
  action (p, l, n) = if eqb (conway l n) l then None else Some (conway l n).
Proof.
  unfold action, conway.
  destruct l, (2 <=? n), (n <=? 3), (n =? 3); reflexivity.
Qed.

Lemma action_None_conway (p : Z) (l : bool) (n : Z) :
  action (p, l, n) = None <-> conway l n = l.
Proof.
  rewrite action_conway. destruct (eqb_spec (conway l n) l); split; done.
Qed.

Lemma for_each_app {A : Type} (body : A -> Life -> outcome) (l1 l2 : list A) (s : Life) :
  for_each body (l1 ++ l2) s =
  match for_each body l1 s with
  | Ok s1 => for_each body l2 s1
  | Raise e s1 => Raise e s1
  end.
Proof.
  revert s. induction l1 as [|x l1 IH]; intros s; [done|].
  cbn [app for_each]. destruct (body x s); [apply IH|done].
Qed.

Lemma shaped_in_bounds_at_eq (w h : Z) (s1 s2 : Life) (q : Z) :
  shaped w h s1 -> shaped w h s2 -> in_bounds_at s1 q = in_bounds_at s2 q.
Proof.
  intros H1 H2. unfold in_bounds_at.
  by rewrite (shaped_in_bounds w h s1 H1), (shaped_in_bounds w h s2 H2).
Qed.

Lemma triple_alias (w h : Z) (s : Life) (p q : Z) :
  shaped w h s -> 0 <= q < cells w h -> p = q \/ p = q - cells w h ->
  triple s p = (p, live_at s q, neighbours_at s q).
Proof.
  intros Hs Hq Hp. unfold triple.
  by rewrite (getitem_live w h s Hs p q Hq Hp),
     (getitem_neighbours w h s Hs p q Hq Hp).
Qed.

(** The loop of [set] enters every neighbour flagged in bounds in the
    dirty set. *)
Lemma touched_alias (w h : Z) (s : Life) (p q0 q : Z) :
  shaped w h s ->
  0 <= q0 < cells w h -> p = q0 \/ p = q0 - cells w h ->
  0 <= q < cells w h -> in_bounds_at s q = true ->
  adjacent (w + 2) q0 q = true ->
  exists n, n ∈ touched (in_bounds s) p (offsets (w + 2)) /\
            (n = q \/ n = q - cells w h).
Proof.
  intros Hs Hq0 Hp Hq Hib Hadj. exists ((q - q0) + p).
  assert ((q - q0) + p = q \/ (q - q0) + p = q - cells w h) as Hn by lia.
  split; [|done]. unfold touched. apply list_elem_of_filter. split.
  - by rewrite (getitem_in_bounds w h s Hs _ q Hq Hn), Hib.
  - apply list_elem_of_fmap. exists (q - q0). split; [done|].
    unfold adjacent in Hadj. by apply bool_decide_eq_true in Hadj.
Qed.

(** A returning call of [set] enters in the dirty set every slot flagged
    in bounds whose cell or count it changes. *)
Lemma set_changes_dirty (w h : Z) (s s' : Life) (p : Z) (v : bool) (q : Z) :
  0 < w -> 0 < h -> shaped w h s -> set p v s = Ok s' ->
  0 <= q < cells w h -> in_bounds_at s q = true ->
  (dirty_slot w h s q -> dirty_slot w h s' q) /\
  (live_at s' q <> live_at s q \/ neighbours_at s' q <> neighbours_at s q ->
   dirty_slot w h s' q).
Proof.
  intros Hw Hh Hs E Hq Hib.
  destruct (set_Ok_cases w h s p v s' Hw Hh Hs E)
    as (q0 & Hq0 & Hp & [[-> _]|(Hib0 & Hl0 & _ & Heff)]).
  { split; [done|]. intros [?|?]; done. }
  unfold dirty_slot. rewrite (effect_needs_update _ _ _ _ _ _ _ Heff).
  rewrite !elem_of_union, !elem_of_singleton, !elem_of_list_to_set.
  split; [tauto|].
  rewrite (effect_live_at w h s s' Hs p q0 v Hq0 Heff).
  rewrite (effect_neighbours _ _ _ _ _ _ _ Heff q Hq), Hib. cbn [andb].
  destruct (decide (q = q0)) as [->|Hne].
  { intros _. destruct Hp as [->| ->]; tauto. }
  rewrite bool_decide_eq_false_2 by done.
  destruct (adjacent (w + 2) q0 q) eqn:Hadj; [|intros [?|?]; [done|lia]].
  intros _.
  destruct (touched_alias w h s p q0 q Hs Hq0 Hp Hq Hib Hadj) as (n & Hn & [->| ->]);
    tauto.
Qed.

Lemma alias_dec (w h : Z) (l : list Z) (q : Z) :
  (exists p, p ∈ l /\ (p = q \/ p = q - cells w h)) \/
  ~ (exists p, p ∈ l /\ (p = q \/ p = q - cells w h)).
Proof.
  destruct (decide (q ∈ l)) as [H1|H1]; [left; eauto|].
  destruct (decide (q - cells w h ∈ l)) as [H2|H2]; [left; eauto|].
  right. intros (p & Hp & [->| ->]); done.
Qed.

Lemma outcome_eta (r : outcome) :
  match r with Ok s' => Ok s' | Raise e s' => Raise e s' end = r.
Proof. by destruct r. Qed.

(** The rule applied to the snapshot of a list of dirty subscripts: where
    the cells end, and that every change is entered in the dirty set. *)
Lemma rules_run (w h : Z) (s : Life) (order : list Z) (c : Life) :
  0 < w -> 0 < h -> consistent w h s ->
  (forall p, p ∈ order -> p ∈ needs_update s) ->
  for_each rule (map (triple s) order) (with_needs_update s ∅) = Ok c ->
  shaped w h c /\
  (forall q, 0 <= q < cells w h ->
     (exists p, p ∈ order /\ (p = q \/ p = q - cells w h)) ->
     live_at c q = conway (live_at s q) (neighbours_at s q)) /\
  (forall q, 0 <= q < cells w h ->
     ~ (exists p, p ∈ order /\ (p = q \/ p = q - cells w h)) ->
     live_at c q = live_at s q) /\
  (forall q, 0 <= q < cells w h -> in_bounds_at s q = true ->
     live_at c q <> live_at s q \/ neighbours_at c q <> neighbours_at s q ->
     dirty_slot w h c q).
Proof.
  intros Hw Hh Hc. pose proof (consistent_shaped _ _ _ Hc) as Hs.
  assert (shaped w h (with_needs_update s ∅)) as Hs0 by (destruct Hs; by split).
  revert c. induction order as [|p l IH] using rev_ind; intros c Hin.
  - cbn. intros [= <-]. split_and!; try done.
    + intros q _ (p & Hp%elem_of_nil & _). done.
    + intros q _ _ [?|?]; done.
  - rewrite map_app, for_each_app. cbn [map for_each].
    destruct (for_each rule (map (triple s) l) (with_needs_update s ∅))
      as [c0|] eqn:E0; [|done].
    rewrite outcome_eta.
    destruct (IH c0) as (Hs0' & Hb & Hk & Hd); [|done|].
    { intros p' Hp'. apply Hin, elem_of_app. by left. }
    destruct (consistent_dirty _ _ _ Hc p) as (qp & Hqp & Hp & Hibp).
    { apply Hin, elem_of_app. right. by left. }
    rewrite (triple_alias w h s p qp Hs Hqp Hp), rule_action. cbn [fst].
    rewrite action_conway.
    set (T := conway (live_at s qp) (neighbours_at s qp)).
    assert (forall q, 0 <= q < cells w h ->
              (exists p', p' ∈ l ++ [p] /\ (p' = q \/ p' = q - cells w h)) <->
              (exists p', p' ∈ l /\ (p' = q \/ p' = q - cells w h)) \/ q = qp) as Hal.
    { intros q Hq. split.
      - intros (p' & [Hp'|Hp']%elem_of_app & Ha); [left; eauto|].
        apply list_elem_of_singleton in Hp' as ->. right. lia.
      - intros [(p' & Hp' & Ha)| ->].
        + exists p'. split; [|done]. apply elem_of_app. by left.
        + exists p. split; [|done]. apply elem_of_app. right. by left. }
    assert (in_bounds_at c0 qp = true) as Hibc.
    { by rewrite (shaped_in_bounds_at_eq w h c0 s qp Hs0' Hs). }
    destruct (alias_dec w h l qp) as [Hin_l|Hnot_l].
    + (* the slot was reached before, through another subscript *)
      pose proof (Hb qp Hqp Hin_l) as Hlive. fold T in Hlive.
      assert (match (if eqb T (live_at s qp) then None else Some T) with
              | Some v => set p v c0
              | None => Ok c0
              end = Ok c0) as ->.
      { destruct (eqb T (live_at s qp)); [done|].
        apply (set_same w h c0 Hs0' p qp); done. }
      intros [= <-]. split_and!; try done.
      * intros q Hq Ha. apply (Hal q Hq) in Ha as [Ha| ->]; [by apply Hb|done].
      * intros q Hq Hn. apply Hk; [done|]. intros Ha. apply Hn, (Hal q Hq). by left.
    + pose proof (Hk qp Hqp Hnot_l) as Hlive.
      destruct (eqb_spec T (live_at s qp)) as [HT|HT].
      * intros [= <-]. split_and!; try done.
        -- intros q Hq Ha. apply (Hal q Hq) in Ha as [Ha| ->]; [by apply Hb|].
           rewrite Hlive. symmetry. exact HT.
        -- intros q Hq Hn. apply Hk; [done|]. intros Ha. apply Hn, (Hal q Hq).
           by left.
      * intros E.
        destruct (set_Ok_cases w h c0 p T c Hw Hh Hs0' E)
          as (q0 & Hq0 & Hp0 & [[-> [Hsame|Hbord]]|(Hib0 & Hl0 & _ & Heff)]).
        { assert (q0 = qp) as -> by lia. congruence. }
        { assert (q0 = qp) as -> by lia. congruence. }
        assert (q0 = qp) as -> by lia.
        pose proof (effect_shaped _ _ _ _ _ _ _ Heff) as Hsc.
        split_and!; [done| | |].
        -- intros q Hq Ha. rewrite (effect_live_at w h c0 c Hs0' p qp T Hqp Heff).
           case_bool_decide as Hq'; [by subst|].
           apply (Hal q Hq) in Ha as [Ha|?]; [by apply Hb|done].
        -- intros q Hq Hn. rewrite (effect_live_at w h c0 c Hs0' p qp T Hqp Heff).
           case_bool_decide as Hq'.
           ++ exfalso. apply Hn, (Hal q Hq). by right.
           ++ apply Hk; [done|]. intros Ha. apply Hn, (Hal q Hq). by left.
        -- intros q Hq Hib Hch.
           assert (in_bounds_at c0 q = true) as Hibq.
           { by rewrite (shaped_in_bounds_at_eq w h c0 s q Hs0' Hs). }
           destruct (set_changes_dirty w h c0 c p T q Hw Hh Hs0' E Hq Hibq)
             as [Hmono Hnew].
           destruct (decide (live_at c q = live_at c0 q /\
                             neighbours_at c q = neighbours_at c0 q)) as [[E1 E2]|Hne].
           ++ apply Hmono, Hd; [done..|]. by rewrite <- E1, <- E2.
           ++ apply Hnew. destruct (decide (live_at c q = live_at c0 q)); [|by left].
              right. intros ?. by apply Hne.
Qed.

(** ** The dirty set misses no cell *)

Lemma for_each_invariant {A : Type} (P : Life -> Prop) (body : A -> Life -> outcome)
    (xs : list A) (s s' : Life) :
  (forall x s1 s2, P s1 -> body x s1 = Ok s2 -> P s2) ->
  P s -> for_each body xs s = Ok s' -> P s'.
Proof.
  intros Hbody. revert s. induction xs as [|x xs IH]; intros s Hc; cbn.
  - by intros [= <-].
  - destruct (body x s) as [s1|] eqn:E; [|done]. eauto.
Qed.

Lemma fresh_settled (w h : Z) : settled w h (fresh w h).
Proof.
  intros q Hq _ _. rewrite fresh_dead. unfold neighbours_at. cbn.
  unfold py_repeat. by rewrite lookup_replicate_2 by lia.
Qed.

Lemma set_settled (w h : Z) (s s' : Life) (p : Z) (v : bool) :
  0 < w -> 0 < h -> shaped w h s -> settled w h s ->
  set p v s = Ok s' -> settled w h s'.
Proof.
  intros Hw Hh Hs Hst E q Hq Hib Hnd.
  pose proof (set_Ok_shaped w h s p v s' Hw Hh Hs E) as Hs'.
  rewrite (shaped_in_bounds_at_eq w h s' s q Hs' Hs) in Hib.
  destruct (set_changes_dirty w h s s' p v q Hw Hh Hs E Hq Hib) as [Hmono Hnew].
  destruct (decide (live_at s' q = live_at s q)) as [E1|E1]; [|by destruct Hnd; auto].
  destruct (decide (neighbours_at s' q = neighbours_at s q)) as [E2|E2];
    [|by destruct Hnd; auto].
  rewrite E1, E2. apply Hst; auto.
Qed.

Lemma update_gen_settled (w h : Z) (s s' : Life) (order : list Z) :
  0 < w -> 0 < h -> consistent w h s -> settled w h s ->
  enumerates order s -> update_gen order s = Ok s' -> settled w h s'.
Proof.
  intros Hw Hh Hc Hst [_ Hen]. unfold update_gen.
  destruct (snapshot s order) as [u|] eqn:Eu; [|done].
  apply snapshot_triples in Eu as ->. intros E.
  destruct (rules_run w h s order s' Hw Hh Hc) as (Hs' & Hb & Hk & Hd);
    [intros p; apply Hen|done|].
  pose proof (consistent_shaped _ _ _ Hc) as Hs.
  intros q Hq Hib Hnd.
  rewrite (shaped_in_bounds_at_eq w h s' s q Hs' Hs) in Hib.
  destruct (decide (live_at s' q = live_at s q)) as [E1|E1];
    [|by destruct Hnd; auto].
  destruct (decide (neighbours_at s' q = neighbours_at s q)) as [E2|E2];
    [|by destruct Hnd; auto].
  rewrite E1, E2. apply action_None_conway.
  destruct (alias_dec w h order q) as [Ha|Ha].
  - rewrite <- (Hb q Hq Ha). done.
  - apply (action_None_conway q), Hst; [done..|].
    intros [Hq1|Hq2]; apply Ha; [exists q|exists (q - cells w h)];
      (split; [by apply Hen|auto]).
Qed.

Lemma update_settled (w h : Z) (orders : list (list Z)) (s s' : Life) :
  0 < w -> 0 < h -> consistent w h s -> settled w h s ->
  scheduled orders s -> update orders s = Ok s' ->
  consistent w h s' /\ settled w h s'.
Proof.
  intros Hw Hh. unfold update. revert s.
  induction orders as [|o orders IH]; intros s Hc Hst Hsch; cbn.
  - by intros [= <-].
  - destruct Hsch as [Ho Hsch].
    destruct (update_gen o s) as [s1|] eqn:E1; [|done].
    apply IH; [by eapply update_gen_consistent|by eapply update_gen_settled|done].
Qed.

Lemma reachable_settled (w h : Z) (s : Life) :
  0 < w -> 0 < h -> reachable w h s -> consistent w h s /\ settled w h s.
Proof.
  intros Hw Hh.
  induction 1 as [s E|s p v s' _ [Hc Hst] E|s orders s' _ [Hc Hst] Hsch E
                 |s text x y s' _ [Hc Hst] E].
  - rewrite Life_init_fresh in E by done. injection E as <-.
    split; [by apply fresh_consistent|apply fresh_settled].
  - split; [by eapply set_consistent|].
    by apply (set_settled w h s s' p v Hw Hh (consistent_shaped _ _ _ Hc)).
  - by apply (update_settled w h orders s).
  - rewrite paste_unfold in E.
    apply (for_each_invariant (fun s => consistent w h s /\ settled w h s)
             paste_call (paste_calls (list_ascii_of_string text) x y) s s');
      [|done|done].
    intros [[cx cy] v] s1 s2 [Hc1 Hst1] E2. cbn in E2.
    split; [by eapply set_consistent|].
    by apply (set_settled w h s1 s2 (cell s1 cx cy) v Hw Hh
                (consistent_shaped _ _ _ Hc1)).
Qed.

(** X4. The dirty set misses no cell: in every reachable state, a slot
    flagged in bounds that is not in [needs_update], under either of its
    subscripts, is one the rule of [update] would leave as it is, live with
    two or three live neighbours or dead without exactly three. *)
Theorem dirty_set_complete (w h : Z) (s : Life) (q : Z) :
  0 < w -> 0 < h -> reachable w h s ->
  0 <= q < cells w h ->
  getitem (in_bounds s) q = Some true ->
  q ∉ needs_update s -> q - cells w h ∉ needs_update s ->
  exists l n, getitem (live s) q = Some l /\ getitem (neighbours s) q = Some n /\
              n = live_neighbours s q /\
              action (q, l, n) = None /\ conway l n = l.
Proof.
  intros Hw Hh Hr Hq Hib H1 H2.
  destruct (reachable_settled w h s Hw Hh Hr) as [[Hs Hc _ _] Hst].
  rewrite (getitem_in_bounds w h s Hs q q Hq ltac:(by left)) in Hib.
  injection Hib as Hib.
  exists (live_at s q), (neighbours_at s q).
  rewrite (getitem_live w h s Hs q q Hq ltac:(by left)).
  rewrite (getitem_neighbours w h s Hs q q Hq ltac:(by left)).
  assert (action (q, live_at s q, neighbours_at s q) = None) as Ha.
  { apply Hst; [done..|]. by intros [?|?]. }
  split_and!; try done; [by apply Hc|by apply action_None_conway in Ha].
Qed.

Lemma dirty_set_complete_witness :
  exists l n,
    getitem (live (state_of (set 6 true (fresh 3 3)))) 18 = Some l /\
    getitem (neighbours (state_of (set 6 true (fresh 3 3)))) 18 = Some n /\
    n = live_neighbours (state_of (set 6 true (fresh 3 3))) 18 /\
    action (18, l, n) = None /\ conway l n = l.
Proof.
  apply (dirty_set_complete 3 3); [lia|lia| |done|by vm_compute| |].
  - apply (reachable_set 3 3 (fresh 3 3) 6 true); [|by vm_compute].
    apply reachable_init, Life_init_fresh; lia.
  - apply (bool_decide_unpack _). by vm_compute.
  - apply (bool_decide_unpack _). by vm_compute.
Defined.

(** X5. A generation applies the rule of the game to every cell at once:
    in every reachable state, if [update] returns, iterating the dirty set
    in any order, then every slot flagged in bounds is live afterwards
    exactly when the rule says so for its state and its number of live
    neighbours before, and every other slot stays dead. *)
Theorem update_applies_conway (w h : Z) (s s' : Life) (order : list Z) (q : Z) :
  0 < w -> 0 < h -> reachable w h s ->
  enumerates order s -> update_gen order s = Ok s' ->
  0 <= q < cells w h ->
  live_at s' q =
  if in_bounds_at s q then conway (live_at s q) (live_neighbours s q) else false.
Proof.
  intros Hw Hh Hr [Hnd Hen] E Hq.
  destruct (reachable_settled w h s Hw Hh Hr) as [Hc Hst].
  pose proof (consistent_shaped _ _ _ Hc) as Hs.
  pose proof (update_gen_consistent w h order s s' Hw Hh Hc E) as Hc'.
  unfold update_gen in E.
  destruct (snapshot s order) as [u|] eqn:Eu; [|done].
  apply snapshot_triples in Eu as ->.
  destruct (rules_run w h s order s' Hw Hh Hc) as (Hs' & Hb & Hk & Hd);
    [intros p; apply Hen|done|].
  destruct (in_bounds_at s q) eqn:Hib.
  - rewrite <- (consistent_counts _ _ _ Hc q Hq Hib).
    destruct (alias_dec w h order q) as [Ha|Ha]; [by apply Hb|].
    rewrite (Hk q Hq Ha). symmetry. apply (action_None_conway q), Hst; [done..|].
    intros [Hq1|Hq2]; apply Ha; [exists q|exists (q - cells w h)];
      (split; [by apply Hen|auto]).
  - destruct (live_at s' q) eqn:El; [|done].
    apply (consistent_live _ _ _ Hc') in El.
    rewrite (shaped_in_bounds_at_eq w h s' s q Hs' Hs) in El. congruence.
Qed.

Lemma update_applies_conway_witness :
  live_at blinker_1 117 =
  if in_bounds_at blinker 117
  then conway (live_at blinker 117) (live_neighbours blinker 117) else false.
Proof.
  apply (update_applies_conway 20 20 blinker blinker_1
           (elements (needs_update blinker))); [lia|lia| | | |done].
  - apply (place_reachable 20 20 [(5, 5); (6, 5); (7, 5)] (fresh 20 20));
      [|by vm_compute].
    apply reachable_init, Life_init_fresh; lia.
  - apply enumerates_elements.
  - by vm_compute.
Defined.

(** ** Still lifes *)

(** The snapshot of subscripts of the dirty set never raises. *)
Lemma snapshot_valid (w h : Z) (s : Life) (order : list Z) :
  consistent w h s ->
  (forall p, p ∈ order -> p ∈ needs_update s) ->
  snapshot s order = Some (map (triple s) order).
Proof.
  intros Hc Hin.
  destruct (snapshot s order) as [u|] eqn:E.
  - by apply snapshot_triples in E as ->.
  - exfalso. apply eq_None_not_Some in E. apply E, snapshot_is_Some.
    apply Forall_forall. intros p Hp%Hin.
    destruct (consistent_dirty _ _ _ Hc p Hp) as (q & Hq & Ha & _).
    pose proof (consistent_shaped _ _ _ Hc) as Hs.
    rewrite (getitem_live w h s Hs p q Hq Ha).
    rewrite (getitem_neighbours w h s Hs p q Hq Ha). eauto.
Qed.

(** X6. Still lifes: in a reachable state in which the rule of the game
    keeps every slot flagged in bounds as it is, a generation of [update],
    in any iteration order, returns, changes no cell and no count and
    leaves the dirty set empty; every later [update] returns that state. *)
Theorem still_life_fixed (w h : Z) (s : Life) (order : list Z) :
  0 < w -> 0 < h -> reachable w h s ->
  enumerates order s ->
  (forall q, 0 <= q < cells w h -> in_bounds_at s q = true ->
             conway (live_at s q) (live_neighbours s q) = live_at s q) ->
  exists s',
    update_gen order s = Ok s' /\
    live s' = live s /\ neighbours s' = neighbours s /\ needs_update s' = ∅ /\
    forall orders, scheduled orders s' -> update orders s' = Ok s'.
Proof.
  intros Hw Hh Hr [_ Hen] Hstill.
  apply reachable_consistent in Hr as Hc; [|done..].
  pose proof (consistent_shaped _ _ _ Hc) as Hs.
  assert (forall o, (forall p, p ∈ o -> p ∈ needs_update s) ->
                    update_gen o s = Ok (with_needs_update s ∅)) as Hgen.
  { intros o Ho. unfold update_gen. rewrite (snapshot_valid w h s o Hc Ho).
    apply for_each_skip. intros t (p & -> & Hp%Ho)%list_elem_of_fmap.
    destruct (consistent_dirty _ _ _ Hc p Hp) as (q & Hq & Ha & Hib).
    rewrite (triple_alias w h s p q Hs Hq Ha), rule_action. cbn [fst].
    assert (action (p, live_at s q, neighbours_at s q) = None) as ->; [|done].
    apply action_None_conway.
    rewrite (consistent_counts _ _ _ Hc q Hq Hib). by apply Hstill. }
  exists (with_needs_update s ∅). split; [apply Hgen; intros p; apply Hen|].
  split_and!; try done.
  induction orders as [|o orders IH]; [done|].
  intros [[_ Ho] Hrest]. cbn [update for_each].
  assert (o = []) as ->.
  { destruct o as [|p o]; [done|]. exfalso.
    eapply (not_elem_of_empty (C := gset Z)), Ho. left. }
  assert (update_gen [] (with_needs_update s ∅) = Ok (with_needs_update s ∅)) as E.
  { unfold update_gen. cbn. by destruct s. }
  rewrite E in Hrest |- *. by apply IH.
Qed.

Lemma still_life_fixed_witness :
  exists s',
    update_gen (elements (needs_update
                  (state_of (place [(0, 0); (1, 0); (0, 1); (1, 1)] (fresh 3 3)))))
      (state_of (place [(0, 0); (1, 0); (0, 1); (1, 1)] (fresh 3 3))) = Ok s' /\
    live s' = live (state_of (place [(0, 0); (1, 0); (0, 1); (1, 1)] (fresh 3 3))) /\
    neighbours s' =
      neighbours (state_of (place [(0, 0); (1, 0); (0, 1); (1, 1)] (fresh 3 3))) /\
    needs_update s' = ∅ /\
    forall orders, scheduled orders s' -> update orders s' = Ok s'.
Proof.
  apply (still_life_fixed 3 3); [lia|lia| | |].
  - apply (place_reachable 3 3 [(0, 0); (1, 0); (0, 1); (1, 1)] (fresh 3 3));
      [|by vm_compute].
    apply reachable_init, Life_init_fresh; lia.
  - apply enumerates_elements.
  - intros q Hq.
    assert (exists k, (k < 25)%nat /\ q = Z.of_nat k) as (k & Hk & ->)
      by (exists (Z.to_nat q); unfold cells in Hq; lia).
    do 25 (destruct k as [|k]; [by vm_compute|]). lia.
Defined.


(** ** [update] with storage indices *)

(** With a storage index, [set] can only raise at one of the two border
    slots [__init__] leaves flagged. *)
Lemma set_storage_raise (w h : Z) (s : Life) (p : Z) (v : bool) (e : exn) (s' : Life) :
  0 < w -> 0 < h -> shaped w h s -> 0 <= p < cells w h ->
  set p v s = Raise e s' ->
  (p = (h + 1) * (w + 2) - 1 \/ p = (h + 1) * (w + 2)) /\ live_at s p = negb v.
Proof.
  intros Hw Hh Hs Hp E.
  destruct (set_Raise_inv w h Hw Hh s Hs p v e s' E)
    as [[Hn _]|(q & Hq & -> & Hlast & Hib & Hl)].
  { rewrite py_index_nonneg in Hn by lia. done. }
  split; [|done].
  pose proof (in_bounds_at_range w h Hw Hh s Hs q Hib) as Hr.
  unfold cells in *. lia.
Qed.

Lemma set_storage_flagged (w h : Z) (s : Life) (p : Z) (v : bool) (s' : Life) :
  0 < w -> 0 < h -> shaped w h s -> 0 <= p < cells w h ->
  set p v s = Ok s' -> flagged_border_dead w h s -> flagged_border_dead w h s'.
Proof.
  intros Hw Hh Hs Hp E [Hb Hb'].
  destruct (set_Ok_cases w h s p v s' Hw Hh Hs E)
    as (q & Hq & Hpq & [[-> _]|(Hib & _ & Hlast & Heff)]); [done|].
  assert (p = q) as -> by lia.
  assert (q < (h + 1) * (w + 2) - 1) as Hlt by (unfold cells in *; lia).
  unfold flagged_border_dead.
  rewrite !(effect_live_at w h s s' Hs q q v Hq Heff).
  rewrite !bool_decide_eq_false_2 by lia. done.
Qed.

Lemma live_neighbours_sum (s : Life) (i : Z) :
  live_neighbours s i =
  foldr (fun n acc => (if in_bounds_at s n && live_at s n then 1 else 0) + acc) 0
        (surrounding (width s + 2) i).
Proof.
  unfold live_neighbours.
  induction (surrounding (width s + 2) i) as [|n ns IH]; [done|].
  cbn [foldr]. rewrite <- IH, filter_cons.
  destruct (in_bounds_at s n && live_at s n); cbn [length]; [|done].
  rewrite decide_True by done. cbn [length]. lia.
Qed.

(** A dead flagged border slot has at most two live neighbours: [update]
    never calls [set] on it. *)
Lemma flagged_border_counts (w h : Z) (s : Life) :
  0 < w -> 0 < h -> shaped w h s -> flagged_border_dead w h s ->
  live_neighbours s ((h + 1) * (w + 2) - 1) <= 2 /\
  live_neighbours s ((h + 1) * (w + 2)) <= 2.
Proof.
  intros Hw Hh Hs [Hb Hb'].
  assert (forall j, cells w h - (w + 2) < j -> in_bounds_at s j = false) as Hhigh.
  { intros j Hj. destruct (in_bounds_at s j) eqn:E; [|done].
    apply (in_bounds_at_range w h Hw Hh s Hs) in E. lia. }
  assert (in_bounds_at s ((h + 1) * (w + 2) - 1 - (w + 2)) = false) as H1.
  { destruct (near_grid_border w h s w (h - 2) false Hw Hh Hs) as [_ E].
    - unfold near_grid. lia.
    - unfold in_grid. rewrite andb_false_iff, andb_false_iff, Z.ltb_ge. lia.
    - unfold cell in E. rewrite (shaped_width w h s Hs) in E.
      rewrite <- E. f_equal. lia. }
  assert (in_bounds_at s (h * (w + 2)) = false) as H2.
  { destruct (near_grid_border w h s (-1) (h - 1) false Hw Hh Hs) as [_ E].
    - unfold near_grid. lia.
    - done.
    - unfold cell in E. rewrite (shaped_width w h s Hs) in E.
      rewrite <- E. f_equal. lia. }
  assert (forall n, n = (h + 1) * (w + 2) - 1 - (w + 2) \/ n = h * (w + 2) \/
                    n = (h + 1) * (w + 2) - 1 \/ n = (h + 1) * (w + 2) \/
                    cells w h - (w + 2) < n ->
                    in_bounds_at s n && live_at s n = false) as Fz.
  { intros n [-> |[-> |[-> |[-> |Hn]]]].
    - by rewrite H1.
    - by rewrite H2.
    - by rewrite Hb, andb_false_r.
    - by rewrite Hb', andb_false_r.
    - by rewrite Hhigh. }
  rewrite !live_neighbours_sum, (shaped_width w h s Hs).
  unfold surrounding. cbn [foldr]. unfold cells in Fz.
  split.
  - set (i := (h + 1) * (w + 2) - 1).
    rewrite (Fz (i - (w + 2))), (Fz (i - (w + 2) + 1)), (Fz (i + 1)),
      (Fz (i + (w + 2) - 1)), (Fz (i + (w + 2))), (Fz (i + (w + 2) + 1))
      by (subst i; lia).
    destruct (in_bounds_at s _ && live_at s _), (in_bounds_at s _ && live_at s _); lia.
  - set (i := (h + 1) * (w + 2)).
    rewrite (Fz (i - (w + 2) - 1)), (Fz (i - (w + 2))), (Fz (i - 1)), (Fz (i + 1)),
      (Fz (i + (w + 2) - 1)), (Fz (i + (w + 2))), (Fz (i + (w + 2) + 1))
      by (subst i; lia).
    destruct (in_bounds_at s _ && live_at s _); lia.
Qed.

Lemma flagged_border_skipped (w h : Z) (s : Life) (p : Z) :
  0 < w -> 0 < h -> consistent w h s -> flagged_border_dead w h s ->
  p = (h + 1) * (w + 2) - 1 \/ p = (h + 1) * (w + 2) ->
  action (triple s p) = None.
Proof.
  intros Hw Hh Hc Hf Hp.
  pose proof (consistent_shaped _ _ _ Hc) as Hs.
  assert (0 <= p < cells w h) as Hr by (unfold cells; nia).
  assert (in_bounds_at s p = true) as Hib.
  { rewrite (in_bounds_at_shaped w h s Hs), bool_decide_eq_true_2 by done.
    unfold mask. destruct Hp as [-> | ->]; rewrite Z.eqb_refl;
      by rewrite ?orb_true_r. }
  rewrite (triple_alias w h s p p Hs Hr) by (by left).
  apply action_None_conway.
  rewrite (consistent_counts _ _ _ Hc p Hr Hib).
  destruct (flagged_border_counts w h s Hw Hh Hs Hf) as [Hn Hn'].
  destruct Hf as [Hb Hb']. unfold conway.
  destruct Hp as [-> | ->]; [rewrite Hb|rewrite Hb']; apply Z.eqb_neq; lia.
Qed.

(** The loop of a generation over storage indices: it returns, and the two
    flagged border slots stay dead. *)
Lemma rules_storage (w h : Z) (s : Life) (order : list Z) (c : Life) :
  0 < w -> 0 < h -> consistent w h s -> flagged_border_dead w h s ->
  (forall p, p ∈ order -> 0 <= p < cells w h) ->
  shaped w h c -> flagged_border_dead w h c ->
  exists c', for_each rule (map (triple s) order) c = Ok c' /\
             shaped w h c' /\ flagged_border_dead w h c'.
Proof.
  intros Hw Hh Hc Hf. revert c.
  induction order as [|p order IH]; intros c Hin Hsc Hfc; [by exists c|].
  cbn [map for_each]. rewrite rule_action.
  assert (0 <= p < cells w h) as Hp by (apply Hin; left).
  assert (forall q, q ∈ order -> 0 <= q < cells w h) as Hin'
    by (intros q Hq; apply Hin; by right).
  destruct (action (triple s p)) as [v|] eqn:Ea; [|by apply IH].
  assert ((triple s p).1.1 = p) as -> by done.
  destruct (set p v c) as [c1|e c1] eqn:E.
  - apply IH; [done|by eapply set_Ok_shaped|by eapply set_storage_flagged].
  - exfalso.
    destruct (set_storage_raise w h c p v e c1 Hw Hh Hsc Hp E) as [Hpb _].
    rewrite (flagged_border_skipped w h s p Hw Hh Hc Hf Hpb) in Ea. done.
Qed.

Lemma update_gen_storage (w h : Z) (s : Life) (order : list Z) :
  0 < w -> 0 < h -> consistent w h s -> flagged_border_dead w h s ->
  (forall n, n ∈ needs_update s -> 0 <= n < cells w h) ->
  enumerates order s ->
  exists s', update_gen order s = Ok s' /\ flagged_border_dead w h s'.
Proof.
  intros Hw Hh Hc Hf Hd [_ Hen].
  pose proof (consistent_shaped _ _ _ Hc) as Hs.
  unfold update_gen.
  rewrite (snapshot_valid w h s order Hc) by (intros p; apply Hen).
  destruct (rules_storage w h s order (with_needs_update s ∅) Hw Hh Hc Hf)
    as (c' & E & _ & Hf'); [by intros p Hp%Hen%Hd|by destruct Hs|done|].
  by exists c'.
Qed.

Lemma reachable_storage_flagged (w h : Z) (s : Life) :
  0 < w -> 0 < h -> reachable_storage w h s -> flagged_border_dead w h s.
Proof.
  intros Hw Hh Hr.
  induction Hr as [s E|s p v s' Hr IH Hp E|s orders s' Hr IH Hsch E].
  - rewrite Life_init_fresh in E by done. injection E as <-.
    split; apply fresh_dead.
  - destruct (reachable_storage_dirty w h s Hw Hh Hr) as [Hc _].
    exact (set_storage_flagged w h s p v s' Hw Hh (consistent_shaped _ _ _ Hc) Hp E IH).
  - destruct (reachable_storage_dirty w h s Hw Hh Hr) as [Hc Hd].
    clear Hr. revert s Hc Hd IH Hsch E. unfold update.
    induction orders as [|o orders IHo]; intros s Hc Hd Hf Hsch; cbn.
    + by intros [= <-].
    + destruct Hsch as [Ho Hsch].
      destruct (update_gen_storage w h s o Hw Hh Hc Hf Hd Ho) as (s1 & E1 & Hf1).
      rewrite E1 in Hsch |- *.
      apply IHo; [by eapply update_gen_consistent| |done|done].
      exact (update_gen_storage_dirty w h o s s1 Hw Hh
               (consistent_shaped _ _ _ Hc) Hd Ho E1).
Qed.

(** [update] returns on a state reached by returning calls, [set] with
    storage indices. *)
Lemma update_storage_returns (w h : Z) (s : Life) (orders : list (list Z)) :
  0 < w -> 0 < h -> reachable_storage w h s -> scheduled orders s ->
  exists s', update orders s = Ok s' /\ reachable_storage w h s'.
Proof.
  intros Hw Hh. revert s.
  induction orders as [|o orders IH]; intros s Hr Hsch; [by exists s|].
  destruct Hsch as [Ho Hsch]. unfold update. cbn [for_each].
  destruct (reachable_storage_dirty w h s Hw Hh Hr) as [Hc Hd].
  pose proof (reachable_storage_flagged w h s Hw Hh Hr) as Hf.
  destruct (update_gen_storage w h s o Hw Hh Hc Hf Hd Ho) as (s1 & E1 & _).
  rewrite E1 in Hsch |- *. apply IH; [|done].
  apply (storage_update w h s [o] s1 Hr).
  - cbn. by rewrite E1.
  - unfold update. cbn. by rewrite E1.
Qed.

(** X7. [update] never raises on a state reached from a freshly
    constructed engine by calls that all returned, [set] having been called
    with storage indices only: for every number of generations and every
    order in which each generation iterates its dirty set, the call returns
    (and the state it returns is again such a state). A call of [set] that
    raised is not covered: see [update_raises_after_raising_set]. *)
Theorem update_returns (w h : Z) (s : Life) (orders : list (list Z)) :
  0 < w -> 0 < h -> reachable_storage w h s -> scheduled orders s ->
  exists s', update orders s = Ok s' /\ reachable_storage w h s'.
Proof. apply update_storage_returns. Qed.

Lemma update_returns_witness :
  exists s', update [elements (needs_update blinker)] blinker = Ok s' /\
             reachable_storage 20 20 s'.
Proof.
  apply (update_returns 20 20 blinker [elements (needs_update blinker)]);
    [lia|lia| |].
  - apply (storage_set 20 20
             (state_of (place [(5, 5); (6, 5)] (fresh 20 20)))
             (cell (fresh 20 20) 7 5) true); [|by_computation|by vm_compute].
    apply (storage_set 20 20
             (state_of (place [(5, 5)] (fresh 20 20)))
             (cell (fresh 20 20) 6 5) true); [|by_computation|by vm_compute].
    apply (storage_set 20 20 (fresh 20 20)
             (cell (fresh 20 20) 5 5) true); [|by_computation|by vm_compute].
    apply storage_init, Life_init_fresh; lia.
  - split; [apply enumerates_elements|].
    by destruct (update_gen (elements (needs_update blinker)) blinker).
Defined.

(** That every earlier call returned is needed: on [Life(3, 3)], with
    storage indices only, [set(20, True)] raises [IndexError] after it
    raised the count of the flagged border slot [19]; [set(13, True)] and
    [set(18, True)] return and bring that count to [3]; [update] then calls
    [set(19, True)], which raises. *)
Lemma update_raises_after_raising_set :
  exists s1 s2 s3 s4,
    set 20 true (fresh 3 3) = Raise IndexError s1 /\
    set 13 true s1 = Ok s2 /\ set 18 true s2 = Ok s3 /\
    getitem (neighbours s3) 19 = Some 3 /\
    update [elements (needs_update s3)] s3 = Raise IndexError s4.
Proof.
  do 4 eexists. split; [by vm_compute|]. split; [by vm_compute|].
  split; [by vm_compute|]. split; by vm_compute.
Qed.

(** ** Writing and reading cells *)

Lemma neighbours_ext (w h : Z) (s1 s2 : Life) :
  shaped w h s1 -> shaped w h s2 ->
  (forall j, 0 <= j < cells w h -> neighbours_at s1 j = neighbours_at s2 j) ->
  neighbours s1 = neighbours s2.
Proof.
  intros H1 H2 Hn. apply list_eq. intros k.
  destruct (decide (k < Z.to_nat (cells w h))%nat) as [Hk|Hk].
  - pose proof (neighbours_at_lookup w h s1 H1 (Z.of_nat k) ltac:(lia)) as E1.
    pose proof (neighbours_at_lookup w h s2 H2 (Z.of_nat k) ltac:(lia)) as E2.
    rewrite Nat2Z.id in E1, E2. rewrite E1, E2, Hn by lia. done.
  - rewrite !lookup_ge_None_2; [done| |].
    + rewrite (shaped_neighbours w h s2 H2). lia.
    + rewrite (shaped_neighbours w h s1 H1). lia.
Qed.

(** [set] with a value the slot does not hold, on a cell of the grid. *)
Lemma set_cell_flip (w h : Z) (s : Life) (x y : Z) (v : bool) :
  0 < w -> 0 < h -> shaped w h s -> 0 <= x < w -> 0 <= y < h ->
  live_at s (cell s x y) = negb v ->
  exists s', set (cell s x y) v s = Ok s' /\
             set_effect w h (cell s x y) (cell s x y) v s s'.
Proof.
  intros Hw Hh Hs Hx Hy Hl.
  destruct (set_cell_Ok w h Hw Hh s Hs x y Hx Hy v) as (s' & E & _).
  exists s'. split; [done|].
  pose proof (cell_range w h Hw Hh s Hs x y Hx Hy) as Hr.
  pose proof (cell_in_bounds w h Hw Hh s Hs x y Hx Hy) as Hib.
  destruct (set_Ok_cases w h s _ v s' Hw Hh Hs E)
    as (q & Hq & Hpq & [[_ [Hd|Hd]]|(_ & _ & _ & Heff)]).
  - assert (q = cell s x y) as -> by lia. rewrite Hl in Hd. by destruct v.
  - assert (q = cell s x y) as -> by lia. congruence.
  - assert (q = cell s x y) as -> by lia. done.
Qed.

(** X8. Switching a cell of the grid and switching it back: in a reachable
    state both calls of [set] return, and [live] and [neighbours] are
    again what they were; the dirty set has only grown. *)
Theorem set_flip_restores (w h : Z) (s : Life) (x y : Z) :
  0 < w -> 0 < h -> reachable w h s -> 0 <= x < w -> 0 <= y < h ->
  exists l s1 s2,
    getitem (live s) (cell s x y) = Some l /\
    set (cell s x y) (negb l) s = Ok s1 /\
    getitem (live s1) (cell s x y) = Some (negb l) /\
    set (cell s x y) l s1 = Ok s2 /\
    live s2 = live s /\ neighbours s2 = neighbours s /\
    needs_update s ⊆ needs_update s2.
Proof.
  intros Hw Hh Hr Hx Hy.
  apply reachable_consistent in Hr as [Hs _ _ _]; [|done..].
  pose proof (cell_range w h Hw Hh s Hs x y Hx Hy) as Hr.
  set (q := cell s x y) in *.
  assert (0 <= q < cells w h) as Hq by lia.
  destruct (set_cell_flip w h s x y (negb (live_at s q)) Hw Hh Hs Hx Hy)
    as (s1 & E1 & Heff1); [by rewrite negb_involutive|].
  fold q in E1, Heff1.
  pose proof (effect_shaped _ _ _ _ _ _ _ Heff1) as Hs1.
  assert (cell s1 x y = q) as Hc1.
  { unfold q, cell.
    by rewrite (shaped_width w h s1 Hs1), (shaped_width w h s Hs). }
  assert (live_at s1 q = negb (live_at s q)) as Hl1.
  { rewrite (effect_live_at w h s s1 Hs q q _ Hq Heff1).
    by rewrite bool_decide_eq_true_2. }
  destruct (set_cell_flip w h s1 x y (live_at s q) Hw Hh Hs1 Hx Hy)
    as (s2 & E2 & Heff2); [by rewrite Hc1|].
  rewrite Hc1 in E2, Heff2.
  pose proof (effect_shaped _ _ _ _ _ _ _ Heff2) as Hs2.
  exists (live_at s q), s1, s2. split_and!; try done.
  - apply (getitem_live w h s Hs); [done|by left].
  - rewrite <- Hl1. apply (getitem_live w h s1 Hs1); [done|by left].
  - rewrite (effect_live _ _ _ _ _ _ _ Heff2), (effect_live _ _ _ _ _ _ _ Heff1).
    rewrite list_insert_insert_eq. apply list_insert_id.
    by rewrite (live_at_lookup w h s Hs q Hq).
  - apply (neighbours_ext w h); [done..|]. intros j Hj.
    rewrite (effect_neighbours _ _ _ _ _ _ _ Heff2 j Hj).
    rewrite (effect_neighbours _ _ _ _ _ _ _ Heff1 j Hj).
    rewrite (effect_in_bounds_at w h s s1 Hs q q _ Heff1).
    destruct (in_bounds_at s j && adjacent (w + 2) q j); [|lia].
    unfold adjust_of. destruct (live_at s q); cbn; lia.
  - rewrite (effect_needs_update _ _ _ _ _ _ _ Heff2).
    rewrite (effect_needs_update _ _ _ _ _ _ _ Heff1).
    intros n Hn. rewrite !elem_of_union. tauto.
Qed.

Lemma set_flip_restores_witness :
  exists l s1 s2,
    getitem (live blinker) (cell blinker 6 5) = Some l /\
    set (cell blinker 6 5) (negb l) blinker = Ok s1 /\
    getitem (live s1) (cell blinker 6 5) = Some (negb l) /\
    set (cell blinker 6 5) l s1 = Ok s2 /\
    live s2 = live blinker /\ neighbours s2 = neighbours blinker /\
    needs_update blinker ⊆ needs_update s2.
Proof.
  apply (set_flip_restores 20 20 blinker 6 5); [lia|lia| |lia|lia].
  apply (place_reachable 20 20 [(5, 5); (6, 5); (7, 5)] (fresh 20 20));
    [|by vm_compute].
  apply reachable_init, Life_init_fresh; lia.
Defined.

(** X9. [cell] numbers the cells of the grid one to one: two coordinates
    with columns in [[0, width)] that get the same slot are the same, and
    the slot gives the coordinate back by division by the padded width. *)
Theorem cell_injective (s : Life) (x y x' y' : Z) :
  0 < width s -> 0 <= x < width s -> 0 <= x' < width s ->
  cell s x y = cell s x' y' ->
  x = x' /\ y = y' /\
  cell s x y / (width s + 2) - 1 = y /\
  cell s x y mod (width s + 2) - 1 = x.
Proof.
  intros Hw Hx Hx' E. unfold cell in *.
  destruct (cell_row_col (width s) x y Hw Hx) as [R C].
  destruct (cell_row_col (width s) x' y' Hw Hx') as [R' C'].
  rewrite E in R, C. rewrite E. lia.
Qed.

Lemma cell_injective_witness :
  2 = 2 /\ 1 = 1 /\
  cell (fresh 3 3) 2 1 / (width (fresh 3 3) + 2) - 1 = 1 /\
  cell (fresh 3 3) 2 1 mod (width (fresh 3 3) + 2) - 1 = 2.
Proof.
  apply (cell_injective (fresh 3 3) 2 1 2 1); cbn; (lia || done).
Defined.

(** ** What [paste] writes *)

Lemma paste_calls_lookup (text : list ascii) (x y cx cy : Z) (v : bool) :
  (cx, cy, v) ∈ paste_calls text x y <->
  exists j line i ch,
    splitlines (strip text) !! j = Some line /\ strip line !! i = Some ch /\
    cx = x + Z.of_nat i /\ cy = y + Z.of_nat j /\ v = is_o ch.
Proof.
  unfold paste_calls, enumerate. rewrite list_elem_of_In, in_flat_map. split.
  - intros ([j0 line] & Hin & Hc).
    apply list_elem_of_In, elem_of_lookup_imap in Hin as (j & line' & [= -> <-] & Hj).
    apply list_elem_of_In, list_elem_of_fmap in Hc as ([i0 ch] & [= -> -> ->] & Hc).
    apply elem_of_lookup_imap in Hc as (i & ch' & [= -> <-] & Hi).
    by exists j, line, i, ch.
  - intros (j & line & i & ch & Hj & Hi & -> & -> & ->).
    exists (Z.of_nat j, line). split.
    + apply list_elem_of_In. by apply (elem_of_lookup_imap_2 (fun i x => (Z.of_nat i, x))).
    + apply list_elem_of_In, list_elem_of_fmap. exists (Z.of_nat i, ch). split; [done|].
      by apply (elem_of_lookup_imap_2 (fun i x => (Z.of_nat i, x))).
Qed.

(** A run of calls on cells of the grid: each target holds the value of
    the calls made for it, every other slot is left as it was. *)
Lemma paste_calls_write (w h : Z) (cs : list (Z * Z * bool)) (s : Life) :
  0 < w -> 0 < h -> shaped w h s ->
  Forall (fun c => in_grid w h c = true) cs ->
  (forall cx cy v v', (cx, cy, v) ∈ cs -> (cx, cy, v') ∈ cs -> v = v') ->
  exists s',
    for_each paste_call cs s = Ok s' /\ shaped w h s' /\
    (forall cx cy v, (cx, cy, v) ∈ cs -> live_at s' (cell s cx cy) = v) /\
    (forall q, (forall cx cy v, (cx, cy, v) ∈ cs -> cell s cx cy <> q) ->
               live_at s' q = live_at s q).
Proof.
  intros Hw Hh. revert s.
  induction cs as [|[[cx cy] v] cs IH]; intros s Hs Hall Hfun.
  { exists s. split_and!; try done. by intros ??? ?%elem_of_nil. }
  apply Forall_cons in Hall as [Hg Hall].
  unfold in_grid in Hg. rewrite !andb_true_iff, !Z.leb_le, !Z.ltb_lt in Hg.
  assert (0 <= cx < w) as Hx by lia. assert (0 <= cy < h) as Hy by lia.
  pose proof (cell_range w h Hw Hh s Hs cx cy Hx Hy) as Hr.
  destruct (set_cell_Ok w h Hw Hh s Hs cx cy Hx Hy v) as (s1 & E1 & Hcase).
  assert (shaped w h s1) as Hs1 by (by eapply set_Ok_shaped).
  assert (forall j, live_at s1 j =
                    if bool_decide (j = cell s cx cy) then v else live_at s j) as Hl1.
  { intros j. destruct Hcase as [->|Heff].
    - case_bool_decide as Hj; [|done]. subst j.
      destruct (set_Ok_cases w h s _ v s Hw Hh Hs E1)
        as (q & Hq & Hpq & [[_ [Hd|Hd]]|(_ & _ & _ & Heff)]).
      + assert (q = cell s cx cy) as -> by lia. done.
      + assert (q = cell s cx cy) as -> by lia.
        rewrite (cell_in_bounds w h Hw Hh s Hs cx cy Hx Hy) in Hd. done.
      + assert (q = cell s cx cy) as -> by lia.
        pose proof (effect_live_at w h s s Hs (cell s cx cy) (cell s cx cy) v Hq Heff
                      (cell s cx cy)) as Hq2.
        by rewrite bool_decide_eq_true_2 in Hq2.
    - apply (effect_live_at w h s s1 Hs (cell s cx cy) (cell s cx cy) v); [lia|done]. }
  assert (forall a b, cell s1 a b = cell s a b) as Hcell.
  { intros a b. unfold cell.
    by rewrite (shaped_width w h s1 Hs1), (shaped_width w h s Hs). }
  destruct (IH s1 Hs1 Hall) as (s' & E & Hs' & Hin & Hout).
  { intros a b u u' Hu Hu'. apply (Hfun a b); by right. }
  exists s'. split_and!; [|done| |].
  - cbn [for_each paste_call]. by rewrite E1.
  - intros a b u Hu.
    destruct (decide (exists u', (a, b, u') ∈ cs)) as [[u' Hu']|Hno].
    + rewrite <- (Hcell a b), (Hin a b u' Hu'). apply (Hfun a b); [by right|done].
    + apply elem_of_cons in Hu as [[= -> -> ->]|Hu]; [|by destruct Hno; eauto].
      rewrite Hout, Hl1, bool_decide_eq_true_2; [done..|].
      intros a b u Hu Hab. rewrite Hcell in Hab.
      assert (a = cx /\ b = cy) as [-> ->]; [|by destruct Hno; eauto].
      assert (0 <= a < w /\ 0 <= b < h) as [Ha Hb].
      { rewrite Forall_forall in Hall. apply Hall in Hu. unfold in_grid in Hu.
        rewrite !andb_true_iff, !Z.leb_le, !Z.ltb_lt in Hu. lia. }
      unfold cell in Hab. rewrite (shaped_width w h s Hs) in Hab.
      destruct (cell_row_col w a b Hw Ha) as [R C].
      destruct (cell_row_col w cx cy Hw Hx) as [R' C'].
      rewrite Hab in R, C. lia.
  - intros q Hq. rewrite Hout, Hl1.
    + rewrite bool_decide_eq_false_2; [done|]. intros ->. by eapply Hq; [left|].
    + intros a b u Hu. rewrite Hcell. apply (Hq a b u). by right.
Qed.

(** X10. When every target of [paste] is a cell of the grid, the call, on
    a reachable state, returns, and afterwards each target cell is live
    exactly when its character is ['o']: the character [i] of the stripped
    line [j] of the stripped text decides the cell [(x + i, y + j)]. Every
    slot that is no target is left as it was. *)
Theorem paste_writes_pattern (w h : Z) (s : Life) (text : string) (x y : Z) :
  0 < w -> 0 < h -> reachable w h s ->
  Forall (fun c => in_grid w h c = true)
         (paste_calls (list_ascii_of_string text) x y) ->
  exists s',
    paste text x y s = Ok s' /\
    (forall j line i ch,
       splitlines (strip (list_ascii_of_string text)) !! j = Some line ->
       strip line !! i = Some ch ->
       getitem (live s') (cell s' (x + Z.of_nat i) (y + Z.of_nat j))
       = Some (is_o ch)) /\
    (forall q, 0 <= q < cells w h ->
       (forall cx cy v, (cx, cy, v) ∈ paste_calls (list_ascii_of_string text) x y ->
                        cell s cx cy <> q) ->
       getitem (live s') q = getitem (live s) q).
Proof.
  intros Hw Hh Hr Hall.
  apply reachable_consistent in Hr as [Hs _ _ _]; [|done..].
  destruct (paste_calls_write w h _ s Hw Hh Hs Hall) as (s' & E & Hs' & Hin & Hout).
  { intros cx cy v v' (j & line & i & ch & Hj & Hi & -> & -> & ->)%paste_calls_lookup
           (j' & line' & i' & ch' & Hj' & Hi' & Hx & Hy & ->)%paste_calls_lookup.
    assert (i' = i) as -> by lia. assert (j' = j) as -> by lia. congruence. }
  exists s'. split; [by rewrite paste_unfold|]. split.
  - intros j line i ch Hj Hi.
    assert ((x + Z.of_nat i, y + Z.of_nat j, is_o ch)
              ∈ paste_calls (list_ascii_of_string text) x y) as Hc
      by (apply paste_calls_lookup; by exists j, line, i, ch).
    assert (cell s' (x + Z.of_nat i) (y + Z.of_nat j)
            = cell s (x + Z.of_nat i) (y + Z.of_nat j)) as ->.
    { unfold cell. by rewrite (shaped_width w h s' Hs'), (shaped_width w h s Hs). }
    rewrite <- (Hin _ _ _ Hc).
    rewrite Forall_forall in Hall. apply Hall in Hc as Hg. unfold in_grid in Hg.
    rewrite !andb_true_iff, !Z.leb_le, !Z.ltb_lt in Hg.
    pose proof (cell_range w h Hw Hh s Hs (x + Z.of_nat i) (y + Z.of_nat j)
                  ltac:(lia) ltac:(lia)) as Hrange.
    apply (getitem_live w h s' Hs'); [lia|by left].
  - intros q Hq Hno.
    rewrite (getitem_live w h s' Hs' q q Hq), (getitem_live w h s Hs q q Hq)
      by (by left).
    f_equal. by apply Hout.
Qed.

Lemma paste_writes_pattern_witness :
  exists s',
    paste (String "o" (String "." (String "010" (String "." (String "o" EmptyString)))))
          1 0 (fresh 3 3) = Ok s' /\
    (forall j line i ch,
       splitlines (strip (list_ascii_of_string
         (String "o" (String "." (String "010" (String "." (String "o" EmptyString)))))))
         !! j = Some line ->
       strip line !! i = Some ch ->
       getitem (live s') (cell s' (1 + Z.of_nat i) (0 + Z.of_nat j))
       = Some (is_o ch)) /\
    (forall q, 0 <= q < cells 3 3 ->
       (forall cx cy v,
          (cx, cy, v) ∈ paste_calls (list_ascii_of_string
            (String "o" (String "." (String "010" (String "." (String "o" EmptyString))))))
            1 0 ->
          cell (fresh 3 3) cx cy <> q) ->
       getitem (live s') q = getitem (live (fresh 3 3)) q).
Proof.
  apply (paste_writes_pattern 3 3 (fresh 3 3)); [lia|lia| |].
  - apply reachable_init, Life_init_fresh; lia.
  - assert (paste_calls (list_ascii_of_string
              (String "o" (String "." (String "010" (String "." (String "o" EmptyString))))))
              1 0
            = [(1, 0, true); (2, 0, false); (1, 1, false); (2, 1, true)]) as ->
      by (by vm_compute).
    repeat constructor.
Defined.

(** ** [product] *)

Lemma product_step_elem (pools : list (list Z)) (result : list (list Z)) (t : list Z) :
  t ∈ foldl (fun result pool =>
               flat_map (fun x => map (fun y => x ++ [y]) pool) result)
            result pools <->
  exists t0 t1, t = t0 ++ t1 /\ t0 ∈ result /\
                Forall2 (fun y pool => y ∈ pool) t1 pools.
Proof.
  revert result. induction pools as [|pool pools IH]; intros result; cbn [foldl].
  - split.
    + intros Ht. exists t, []. by rewrite app_nil_r.
    + intros (t0 & t1 & -> & Ht0 & ->%Forall2_nil_inv_r). by rewrite app_nil_r.
  - rewrite IH. split.
    + intros (t0 & t1 & -> & Ht0 & Ht1).
      apply list_elem_of_In, in_flat_map in Ht0 as (x & Hx%list_elem_of_In & Ht0).
      apply list_elem_of_In, list_elem_of_fmap in Ht0 as (y & -> & Hy).
      exists x, (y :: t1). rewrite <- app_assoc. split_and!; [done..|].
      by constructor.
    + intros (t0 & t1 & -> & Ht0 & Ht1).
      apply Forall2_cons_inv_r in Ht1 as (y & t1' & Hy & Ht1 & ->).
      exists (t0 ++ [y]), t1'. rewrite <- app_assoc. split_and!; [done| |done].
      apply list_elem_of_In, in_flat_map. exists t0.
      split; [by apply list_elem_of_In|].
      apply list_elem_of_In, list_elem_of_fmap. by exists y.
Qed.

Lemma product_step_length (pools : list (list Z)) (result : list (list Z)) :
  length (foldl (fun result pool =>
                   flat_map (fun x => map (fun y => x ++ [y]) pool) result)
                result pools)
  = (length result * foldr Nat.mul 1 (map length pools))%nat.
Proof.
  revert result. induction pools as [|pool pools IH]; intros result; cbn [foldl].
  - cbn. lia.
  - rewrite IH. cbn [map foldr].
    assert (length (flat_map (fun x => map (fun y => x ++ [y]) pool) result)
            = (length result * length pool)%nat) as ->; [|lia].
    induction result as [|x result IHr]; [done|].
    cbn [flat_map]. rewrite length_app, length_map, IHr. cbn [length]. lia.
Qed.

(** X11. [product] yields the cartesian product of its pools, repeated
    [repeat] times: a tuple is yielded exactly when it has one component
    from each pool, in order, and the number of tuples yielded is the
    product of the sizes of the pools. *)
Theorem product_cartesian (args : list (list Z)) (repeat : nat) :
  (forall t, t ∈ product args repeat <->
             Forall2 (fun y pool => y ∈ pool) t (concat (replicate repeat args))) /\
  length (product args repeat)
  = foldr Nat.mul 1%nat (map length (concat (replicate repeat args))).
Proof.
  unfold product. split.
  - intros t. rewrite product_step_elem. split.
    + by intros (t0 & t1 & -> & ->%list_elem_of_singleton & Ht1).
    + intros Ht. exists [], t. split_and!; [done| |done]. by apply list_elem_of_singleton.
  - rewrite product_step_length. cbn [length]. lia.
Qed.


(** ** The front end *)

Lemma div_window (c a n : Z) :
  0 < c -> (0 <= a / c < n <-> 0 <= a < n * c).
Proof.
  intros Hc. pose proof (Z.div_mod a c ltac:(lia)) as E.
  pose proof (Z.mod_pos_bound a c Hc) as Hm. nia.
Qed.

Lemma screen_cell_inside (w h : Z) (g : PygameLife) (px py : Z) :
  width (engine g) = w -> height (engine g) = h -> 0 < cell_size g ->
  in_window w h (cell_size g) (px, py) ->
  screen_cell g (px, py)
  = inr (Some (cell (engine g) (px / cell_size g) (py / cell_size g))) /\
  0 <= px / cell_size g < w /\ 0 <= py / cell_size g < h.
Proof.
  intros Ew Eh Hc [Hx Hy]. cbn [fst snd] in Hx, Hy.
  apply (div_window (cell_size g) px w Hc) in Hx.
  apply (div_window (cell_size g) py h Hc) in Hy.
  split; [|done]. unfold screen_cell.
  destruct (Z.eqb_spec (cell_size g) 0) as [E|_]; [lia|]. rewrite Ew, Eh.
  assert ((0 <=? px / cell_size g) && (px / cell_size g <? w) &&
          (0 <=? py / cell_size g) && (py / cell_size g <? h) = true) as ->; [|done].
  rewrite !andb_true_iff, !Z.leb_le, !Z.ltb_lt. lia.
Qed.

Lemma screen_cell_outside (w h : Z) (g : PygameLife) (px py : Z) :
  width (engine g) = w -> height (engine g) = h -> 0 < cell_size g ->
  ~ in_window w h (cell_size g) (px, py) ->
  screen_cell g (px, py) = inr None.
Proof.
  intros Ew Eh Hc Hout. unfold in_window in Hout. cbn [fst snd] in Hout.
  rewrite <- (div_window (cell_size g) px w Hc) in Hout.
  rewrite <- (div_window (cell_size g) py h Hc) in Hout.
  unfold screen_cell.
  destruct (Z.eqb_spec (cell_size g) 0) as [E|_]; [lia|]. rewrite Ew, Eh.
  assert ((0 <=? px / cell_size g) && (px / cell_size g <? w) &&
          (0 <=? py / cell_size g) && (py / cell_size g <? h) = false) as ->; [|done].
  apply not_true_iff_false.
  rewrite !andb_true_iff, !Z.leb_le, !Z.ltb_lt. lia.
Qed.

(** X12. With a positive cell size, [screen_cell] maps the pixels of the
    window, and only those, to cells: a pixel of the window gives the slot
    of the grid cell whose rectangle [draw] would fill covers the pixel,
    and a position outside the window gives [None]. *)
Theorem screen_cell_window (g : PygameLife) (px py : Z) :
  0 < cell_size g ->
  (in_window (width (engine g)) (height (engine g)) (cell_size g) (px, py) ->
   exists x y,
     0 <= x < width (engine g) /\ 0 <= y < height (engine g) /\
     screen_cell g (px, py) = inr (Some (cell (engine g) x y)) /\
     covers (cell_fill g (x, y)).2 px py = true) /\
  (~ in_window (width (engine g)) (height (engine g)) (cell_size g) (px, py) ->
   screen_cell g (px, py) = inr None).
Proof.
  intros Hc. split; [|by apply screen_cell_outside].
  intros Hin.
  destruct (screen_cell_inside _ _ g px py eq_refl eq_refl Hc Hin) as (E & Hx & Hy).
  exists (px / cell_size g), (py / cell_size g).
  split; [done|]. split; [done|]. split; [done|].
  unfold cell_fill. cbn [fst snd covers].
  rewrite !andb_true_iff, !Z.leb_le, !Z.ltb_lt.
  pose proof (Z.div_mod px (cell_size g) ltac:(lia)).
  pose proof (Z.mod_pos_bound px (cell_size g) Hc).
  pose proof (Z.div_mod py (cell_size g) ltac:(lia)).
  pose proof (Z.mod_pos_bound py (cell_size g) Hc). nia.
Qed.

Lemma screen_cell_window_witness :
  (in_window 3 3 4 (9, 2) ->
   exists x y,
     0 <= x < 3 /\ 0 <= y < 3 /\
     screen_cell (mkPygameLife (fresh 3 3) black white 4) (9, 2)
     = inr (Some (cell (fresh 3 3) x y)) /\
     covers (cell_fill (mkPygameLife (fresh 3 3) black white 4) (x, y)).2 9 2 = true) /\
  (~ in_window 3 3 4 (9, 2) ->
   screen_cell (mkPygameLife (fresh 3 3) black white 4) (9, 2) = inr None).
Proof.
  apply (screen_cell_window (mkPygameLife (fresh 3 3) black white 4) 9 2). cbn. lia.
Defined.

(** *** The picture *)

Lemma draw_column (g : PygameLife) (x : Z) (ys : list Z) (screen : list fill) :
  (forall y, y ∈ ys -> is_Some (getitem (live (engine g)) (cell (engine g) x y))) ->
  for_opt (fun h screen =>
             match getitem (live (engine g)) (cell (engine g) x h) with
             | None => None
             | Some true =>
                 Some (screen ++ [(foreground g,
                                   Some (x * cell_size g, h * cell_size g,
                                         cell_size g, cell_size g))])
             | Some false => Some screen
             end) ys screen
  = Some (screen ++
          map (cell_fill g)
              (flat_map (fun y =>
                           match getitem (live (engine g)) (cell (engine g) x y) with
                           | Some true => [(x, y)]
                           | _ => []
                           end) ys)).
Proof.
  revert screen. induction ys as [|y ys IH]; intros screen Hall; cbn [for_opt flat_map].
  - by rewrite app_nil_r.
  - destruct (Hall y ltac:(left)) as [l El]. rewrite El.
    assert (forall y', y' ∈ ys ->
              is_Some (getitem (live (engine g)) (cell (engine g) x y'))) as Hall'
      by (intros y' Hy'; apply Hall; by right).
    destruct l; rewrite IH by done; [|done].
    by rewrite <- app_assoc.
Qed.

Lemma draw_closed (w h : Z) (g : PygameLife) :
  0 < w -> 0 < h -> shaped w h (engine g) ->
  draw g = inr ((background g, None) :: map (cell_fill g) (live_cells (engine g))).
Proof.
  intros Hw Hh Hs. unfold draw, live_cells. cbn zeta.
  assert (forall xs screen,
            (forall x, x ∈ xs -> 0 <= x < w) ->
            for_opt (fun w0 screen0 =>
                       for_opt (fun h0 screen1 =>
                                  match getitem (live (engine g)) (cell (engine g) w0 h0) with
                                  | None => None
                                  | Some true =>
                                      Some (screen1 ++
                                            [(foreground g,
                                              Some (w0 * cell_size g, h0 * cell_size g,
                                                    cell_size g, cell_size g))])
                                  | Some false => Some screen1
                                  end) (py_range (height (engine g))) screen0)
                    xs screen
            = Some (screen ++
                    map (cell_fill g)
                        (flat_map (fun x =>
                           flat_map (fun y =>
                             match getitem (live (engine g)) (cell (engine g) x y) with
                             | Some true => [(x, y)]
                             | _ => []
                             end) (py_range (height (engine g)))) xs))) as Hrows.
  { induction xs as [|x xs IH]; intros screen Hxs; cbn [for_opt flat_map].
    - by rewrite app_nil_r.
    - rewrite draw_column.
      + rewrite IH by (intros x' Hx'; apply Hxs; by right).
        by rewrite map_app, app_assoc.
      + intros y Hy%elem_of_py_range. rewrite (shaped_height w h _ Hs) in Hy.
        pose proof (cell_range w h Hw Hh _ Hs x y (Hxs x ltac:(left)) Hy) as Hr.
        rewrite (getitem_live w h _ Hs _ (cell (engine g) x y)); [done|lia|by left]. }
  rewrite Hrows; [done|].
  intros x Hx%elem_of_py_range. by rewrite (shaped_width w h _ Hs) in Hx.
Qed.

Lemma live_cells_elem (w h : Z) (s : Life) (x y : Z) :
  0 < w -> 0 < h -> shaped w h s ->
  (x, y) ∈ live_cells s <->
  0 <= x < w /\ 0 <= y < h /\ live_at s (cell s x y) = true.
Proof.
  intros Hw Hh Hs. unfold live_cells.
  rewrite (shaped_width w h s Hs), (shaped_height w h s Hs).
  rewrite list_elem_of_In, in_flat_map. split.
  - intros (x' & Hx'%list_elem_of_In%elem_of_py_range & Hin).
    apply in_flat_map in Hin as (y' & Hy'%list_elem_of_In%elem_of_py_range & Hin).
    pose proof (cell_range w h Hw Hh s Hs x' y' Hx' Hy') as Hr.
    rewrite (getitem_live w h s Hs _ (cell s x' y')) in Hin; [|lia|by left].
    destruct (live_at s (cell s x' y')) eqn:El; [|done].
    destruct Hin as [[= -> ->]|[]]. done.
  - intros (Hx & Hy & Hl). exists x. split.
    { by apply list_elem_of_In, elem_of_py_range. }
    apply in_flat_map. exists y. split.
    { by apply list_elem_of_In, elem_of_py_range. }
    pose proof (cell_range w h Hw Hh s Hs x y Hx Hy) as Hr.
    rewrite (getitem_live w h s Hs _ (cell s x y)); [|lia|by left].
    rewrite Hl. by left.
Qed.

Lemma covers_cell_fill (g : PygameLife) (x y px py : Z) :
  0 < cell_size g ->
  covers (cell_fill g (x, y)).2 px py = true <->
  x = px / cell_size g /\ y = py / cell_size g.
Proof.
  intros Hc. unfold cell_fill. cbn [fst snd covers].
  rewrite !andb_true_iff, !Z.leb_le, !Z.ltb_lt.
  pose proof (Z.div_mod px (cell_size g) ltac:(lia)).
  pose proof (Z.mod_pos_bound px (cell_size g) Hc).
  pose proof (Z.div_mod py (cell_size g) ltac:(lia)).
  pose proof (Z.mod_pos_bound py (cell_size g) Hc). nia.
Qed.

Lemma shown_cells (g : PygameLife) (cs : list (Z * Z)) (px py : Z) (acc : option colour) :
  0 < cell_size g ->
  foldl (fun acc '(col, r) => if covers r px py then Some col else acc) acc
        (map (cell_fill g) cs)
  = if bool_decide ((px / cell_size g, py / cell_size g) ∈ cs)
    then Some (foreground g) else acc.
Proof.
  intros Hc. revert acc. induction cs as [|[x y] cs IH]; intros acc; [done|].
  cbn [map foldl]. rewrite IH.
  change (cell_fill g (x, y)) with ((foreground g, (cell_fill g (x, y)).2)).
  destruct (decide ((px / cell_size g, py / cell_size g) ∈ cs)) as [Hin|Hin].
  - rewrite !bool_decide_eq_true_2; [done|by right|done].
  - rewrite (bool_decide_eq_false_2 (_ ∈ cs)) by done.
    destruct (covers (cell_fill g (x, y)).2 px py) eqn:Ecov.
    + apply covers_cell_fill in Ecov as [-> ->]; [|done].
      rewrite bool_decide_eq_true_2; [done|by left].
    + rewrite bool_decide_eq_false_2; [done|].
      intros [[= <- <-]|?]%elem_of_cons; [|done].
      apply not_true_iff_false in Ecov. apply Ecov.
      by apply covers_cell_fill.
Qed.

(** X13. What [draw] paints is what [screen_cell] reads: on a reachable
    board and with a positive cell size, [draw] returns, and the colour it
    leaves at a pixel of the window is the foreground colour when the cell
    [screen_cell] gives for that pixel is live, the background colour when
    it is dead. *)
Theorem picture_matches_board (w h : Z) (g : PygameLife) (px py : Z) :
  0 < w -> 0 < h -> reachable w h (engine g) -> 0 < cell_size g ->
  in_window w h (cell_size g) (px, py) ->
  exists screen p l,
    draw g = inr screen /\
    screen_cell g (px, py) = inr (Some p) /\
    getitem (live (engine g)) p = Some l /\
    shown screen px py = Some (if l then foreground g else background g).
Proof.
  intros Hw Hh Hr Hc Hin.
  apply reachable_consistent in Hr as [Hs _ _ _]; [|done..].
  destruct (screen_cell_inside w h g px py (shaped_width w h _ Hs)
              (shaped_height w h _ Hs) Hc Hin) as (E & Hx & Hy).
  set (x := px / cell_size g) in *. set (y := py / cell_size g) in *.
  pose proof (cell_range w h Hw Hh _ Hs x y Hx Hy) as Hrange.
  exists ((background g, None) :: map (cell_fill g) (live_cells (engine g))),
         (cell (engine g) x y), (live_at (engine g) (cell (engine g) x y)).
  split; [by apply (draw_closed w h)|]. split; [done|].
  split; [apply (getitem_live w h _ Hs); [lia|by left]|].
  unfold shown. cbn [foldl covers]. rewrite shown_cells by done. fold x y.
  destruct (live_at (engine g) (cell (engine g) x y)) eqn:El.
  - rewrite bool_decide_eq_true_2; [done|]. by apply (live_cells_elem w h).
  - rewrite bool_decide_eq_false_2; [done|].
    intros (_ & _ & El')%(live_cells_elem w h); [congruence|done..].
Qed.

Lemma picture_matches_board_witness :
  exists screen p l,
    draw (mkPygameLife blinker black white 4) = inr screen /\
    screen_cell (mkPygameLife blinker black white 4) (25, 22) = inr (Some p) /\
    getitem (live (engine (mkPygameLife blinker black white 4))) p = Some l /\
    shown screen 25 22
    = Some (if l then foreground (mkPygameLife blinker black white 4)
            else background (mkPygameLife blinker black white 4)).
Proof.
  apply (picture_matches_board 20 20 (mkPygameLife blinker black white 4) 25 22);
    [lia|lia| |cbn; lia|unfold in_window; cbn; lia].
  apply (place_reachable 20 20 [(5, 5); (6, 5); (7, 5)] (fresh 20 20));
    [|by vm_compute].
  apply reachable_init, Life_init_fresh; lia.
Defined.

(** *** The events *)

Lemma set_cell_storage (w h : Z) (s : Life) (x y : Z) (v : bool) :
  0 < w -> 0 < h -> reachable_storage w h s -> 0 <= x < w -> 0 <= y < h ->
  exists s', set (cell s x y) v s = Ok s' /\ reachable_storage w h s'.
Proof.
  intros Hw Hh Hr Hx Hy.
  destruct (reachable_storage_dirty w h s Hw Hh Hr) as [[Hs _ _ _] _].
  destruct (set_cell_Ok w h Hw Hh s Hs x y Hx Hy v) as (s' & E & _).
  exists s'. split; [done|].
  pose proof (cell_range w h Hw Hh s Hs x y Hx Hy) as Hrange.
  apply (storage_set w h s (cell s x y) v s' Hr); [lia|done].
Qed.

(** X14. A click of the left button on a pixel of the window, on a
    reachable board and with a positive cell size: the handler returns, the
    loop is paused, the cell under the pixel is switched, [drawing] is its
    new value, and no other cell changes. *)
Theorem click_toggles (w h : Z) (st : loop) (pos : Z * Z) :
  0 < w -> 0 < h -> reachable w h (engine (game st)) ->
  0 < cell_size (game st) ->
  in_window w h (cell_size (game st)) pos ->
  exists p l st',
    screen_cell (game st) pos = inr (Some p) /\
    getitem (live (engine (game st))) p = Some l /\
    handle (MOUSEBUTTONDOWN 1 pos) st = inr st' /\
    paused st' = true /\ drawing st' = negb l /\ running st' = running st /\
    live (engine (game st')) = <[Z.to_nat p := negb l]> (live (engine (game st))) /\
    reachable w h (engine (game st')).
Proof.
  intros Hw Hh Hr Hc Hin. destruct pos as [px py].
  apply reachable_consistent in Hr as Hcons; [|done..].
  destruct Hcons as [Hs _ _ _].
  destruct (screen_cell_inside w h (game st) px py (shaped_width w h _ Hs)
              (shaped_height w h _ Hs) Hc Hin) as (E & Hx & Hy).
  set (s := engine (game st)) in *.
  set (x := px / cell_size (game st)) in *. set (y := py / cell_size (game st)) in *.
  pose proof (cell_range w h Hw Hh s Hs x y Hx Hy) as Hrange.
  assert (getitem (live s) (cell s x y) = Some (live_at s (cell s x y))) as El
    by (apply (getitem_live w h s Hs); [lia|by left]).
  destruct (set_cell_flip w h s x y (negb (live_at s (cell s x y))) Hw Hh Hs Hx Hy)
    as (s' & Eset & Heff); [by rewrite negb_involutive|].
  exists (cell s x y), (live_at s (cell s x y)),
    {| game := with_engine (game st) s'; paused := true;
       drawing := negb (live_at s (cell s x y)); running := running st |}.
  split; [done|]. split; [done|]. split.
  { unfold handle. cbv beta iota zeta. rewrite Z.eqb_refl, E. fold s.
    rewrite El. unfold set_screen. fold s. by rewrite Eset. }
  split; [done|]. split; [done|]. split; [done|]. split.
  - exact (effect_live _ _ _ _ _ _ _ Heff).
  - by eapply reachable_set.
Qed.

Lemma click_toggles_witness :
  exists p l st',
    screen_cell (game (mkLoop (mkPygameLife (fresh 3 3) black white 4) false false true))
                (9, 2) = inr (Some p) /\
    getitem (live (engine (game (mkLoop (mkPygameLife (fresh 3 3) black white 4)
                                        false false true)))) p = Some l /\
    handle (MOUSEBUTTONDOWN 1 (9, 2))
           (mkLoop (mkPygameLife (fresh 3 3) black white 4) false false true)
    = inr st' /\
    paused st' = true /\ drawing st' = negb l /\
    running st' = running (mkLoop (mkPygameLife (fresh 3 3) black white 4)
                                  false false true) /\
    live (engine (game st'))
    = <[Z.to_nat p := negb l]>
        (live (engine (game (mkLoop (mkPygameLife (fresh 3 3) black white 4)
                                    false false true)))) /\
    reachable 3 3 (engine (game st')).
Proof.
  apply (click_toggles 3 3
           (mkLoop (mkPygameLife (fresh 3 3) black white 4) false false true) (9, 2));
    [lia|lia| |cbn; lia|unfold in_window; cbn; lia].
  apply reachable_init, Life_init_fresh; lia.
Defined.

(** X15. A mouse event whose position is outside the window (a click of
    the left button, or a motion with the left button held) raises
    [TypeError]: [screen_cell] returns [None], which the handler uses as a
    subscript. *)
Theorem mouse_outside_window_raises (st : loop) (pos : Z * Z) (middle right : bool) :
  0 < cell_size (game st) ->
  ~ in_window (width (engine (game st))) (height (engine (game st)))
              (cell_size (game st)) pos ->
  handle (MOUSEBUTTONDOWN 1 pos) st = inl TypeError /\
  handle (MOUSEMOTION (true, middle, right) pos) st = inl TypeError.
Proof.
  intros Hc Hout. destruct pos as [px py].
  pose proof (screen_cell_outside _ _ (game st) px py eq_refl eq_refl Hc Hout) as E.
  unfold handle. cbv beta iota zeta. by rewrite Z.eqb_refl, E.
Qed.

Lemma mouse_outside_window_raises_witness :
  handle (MOUSEBUTTONDOWN 1 (-1, 5))
         (mkLoop (mkPygameLife (fresh 3 3) black white 4) false false true)
  = inl TypeError /\
  handle (MOUSEMOTION (true, false, false) (-1, 5))
         (mkLoop (mkPygameLife (fresh 3 3) black white 4) false false true)
  = inl TypeError.
Proof.
  apply (mouse_outside_window_raises
           (mkLoop (mkPygameLife (fresh 3 3) black white 4) false false true)
           (-1, 5) false false);
    [cbn; lia|unfold in_window; cbn; lia].
Defined.

Lemma handle_keyboard (ev : event) (st : loop) :
  is_mouse ev = false ->
  exists st', handle ev st = inr st' /\ game st' = game st /\ drawing st' = drawing st.
Proof.
  intros Hm. destruct ev as [|key|button pos|buttons pos|]; try done; unfold handle.
  - by eexists.
  - destruct ((key =? K_q) || (key =? K_ESCAPE)); [by eexists|].
    destruct ((key =? K_p) || (key =? K_SPACE)); by eexists.
  - by eexists.
Qed.

Lemma handle_all_keyboard (evs : list event) (st : loop) :
  Forall (fun ev => is_mouse ev = false) evs ->
  exists st', handle_all evs st = inr st' /\ game st' = game st /\
              drawing st' = drawing st.
Proof.
  revert st. induction evs as [|ev evs IH]; intros st Hall; [by exists st|].
  apply Forall_cons in Hall as [Hev Hall].
  destruct (handle_keyboard ev st Hev) as (st1 & E1 & G1 & D1).
  destruct (IH st1 Hall) as (st' & E & G & D).
  exists st'. cbn [handle_all]. rewrite E1. split; [done|]. split; congruence.
Qed.

(** X16. The keyboard never touches the board, and a paused turn of the
    loop leaves it alone: when no event of a turn is a mouse event, the
    events are handled without error and leave the game and [drawing] as
    they were; if the loop is then paused, the turn returns with the board
    unchanged and the picture of that board. *)
Theorem paused_frame_keeps_board (w h : Z) (st : loop) (evs : list event)
    (order : list Z) :
  0 < w -> 0 < h -> reachable w h (engine (game st)) ->
  Forall (fun ev => is_mouse ev = false) evs ->
  exists st1,
    handle_all evs st = inr st1 /\ game st1 = game st /\ drawing st1 = drawing st /\
    (paused st1 = true ->
     exists screen,
       draw (game st) = inr screen /\
       frame evs order st = inr (st1, "Paused (SPACE/P to run)"%string, screen)).
Proof.
  intros Hw Hh Hr Hall.
  apply reachable_consistent in Hr as [Hs _ _ _]; [|done..].
  destruct (handle_all_keyboard evs st Hall) as (st1 & E & G & D).
  exists st1. split; [done|]. split; [done|]. split; [done|].
  intros Hp. eexists. split; [by apply (draw_closed w h)|].
  unfold frame. rewrite E, Hp, G. by rewrite (draw_closed w h).
Qed.

Lemma paused_frame_keeps_board_witness :
  exists st1,
    handle_all [KEYUP K_SPACE; OtherEvent]
               (mkLoop (mkPygameLife blinker black white 4) false false true)
    = inr st1 /\
    game st1 = game (mkLoop (mkPygameLife blinker black white 4) false false true) /\
    drawing st1
    = drawing (mkLoop (mkPygameLife blinker black white 4) false false true) /\
    (paused st1 = true ->
     exists screen,
       draw (game (mkLoop (mkPygameLife blinker black white 4) false false true))
       = inr screen /\
       frame [KEYUP K_SPACE; OtherEvent] (elements (needs_update blinker))
             (mkLoop (mkPygameLife blinker black white 4) false false true)
       = inr (st1, "Paused (SPACE/P to run)"%string, screen)).
Proof.
  apply (paused_frame_keeps_board 20 20
           (mkLoop (mkPygameLife blinker black white 4) false false true)
           [KEYUP K_SPACE; OtherEvent] (elements (needs_update blinker)));
    [lia|lia| |by repeat constructor].
  apply (place_reachable 20 20 [(5, 5); (6, 5); (7, 5)] (fresh 20 20));
    [|by vm_compute].
  apply reachable_init, Life_init_fresh; lia.
Defined.

Lemma handle_storage (w h : Z) (ev : event) (st : loop) :
  0 < w -> 0 < h -> reachable_storage w h (engine (game st)) ->
  0 < cell_size (game st) ->
  mouse_in_window w h (cell_size (game st)) ev ->
  exists st', handle ev st = inr st' /\
              reachable_storage w h (engine (game st')) /\
              cell_size (game st') = cell_size (game st).
Proof.
  intros Hw Hh Hr Hc Hin.
  destruct (reachable_storage_dirty w h _ Hw Hh Hr) as [[Hs _ _ _] _].
  destruct ev as [|key|button [px py]|[[held middle] right] [px py]|]; unfold handle;
    cbv beta iota zeta.
  - by eexists.
  - destruct ((key =? K_q) || (key =? K_ESCAPE)); [by eexists|].
    destruct ((key =? K_p) || (key =? K_SPACE)); by eexists.
  - destruct (button =? 1); [|by eexists].
    destruct (screen_cell_inside w h (game st) px py (shaped_width w h _ Hs)
                (shaped_height w h _ Hs) Hc Hin) as (E & Hx & Hy).
    rewrite E.
    set (x := px / cell_size (game st)) in *. set (y := py / cell_size (game st)) in *.
    pose proof (cell_range w h Hw Hh _ Hs x y Hx Hy) as Hrange.
    rewrite (getitem_live w h _ Hs _ (cell (engine (game st)) x y)); [|lia|by left].
    destruct (set_cell_storage w h _ x y
                (negb (live_at (engine (game st)) (cell (engine (game st)) x y)))
                Hw Hh Hr Hx Hy) as (s' & Eset & Hr').
    unfold set_screen. rewrite Eset. by eexists.
  - destruct held; [|by eexists].
    destruct (screen_cell_inside w h (game st) px py (shaped_width w h _ Hs)
                (shaped_height w h _ Hs) Hc Hin) as (E & Hx & Hy).
    rewrite E.
    destruct (set_cell_storage w h _ (px / cell_size (game st))
                (py / cell_size (game st)) (drawing st) Hw Hh Hr Hx Hy)
      as (s' & Eset & Hr').
    unfold set_screen. rewrite Eset. by eexists.
  - by eexists.
Qed.

Lemma handle_all_storage (w h : Z) (evs : list event) (st : loop) :
  0 < w -> 0 < h -> reachable_storage w h (engine (game st)) ->
  0 < cell_size (game st) ->
  Forall (mouse_in_window w h (cell_size (game st))) evs ->
  exists st', handle_all evs st = inr st' /\
              reachable_storage w h (engine (game st')) /\
              cell_size (game st') = cell_size (game st).
Proof.
  intros Hw Hh. revert st.
  induction evs as [|ev evs IH]; intros st Hr Hc Hall; [by exists st|].
  apply Forall_cons in Hall as [Hev Hall].
  destruct (handle_storage w h ev st Hw Hh Hr Hc Hev) as (st1 & E1 & Hr1 & C1).
  destruct (IH st1 Hr1) as (st' & E & Hr' & C'); [lia|by rewrite C1|].
  exists st'. cbn [handle_all]. rewrite E1. split; [done|]. split; [done|]. congruence.
Qed.

(** X17. A turn of the loop never raises while the mouse stays in the
    window: from a board reached from a freshly constructed engine by calls
    that all returned, [set] having been called with storage indices only
    (as the slots of grid cells are), with a positive cell size and every
    mouse event of the turn inside the window, the events, the generation
    (for any iteration order of the dirty set) and [draw] all return, and
    the board is again such a board. *)
Theorem frame_returns (w h : Z) (st : loop) (evs : list event) (order : list Z) :
  0 < w -> 0 < h -> reachable_storage w h (engine (game st)) ->
  0 < cell_size (game st) ->
  Forall (mouse_in_window w h (cell_size (game st))) evs ->
  (forall st1, handle_all evs st = inr st1 -> enumerates order (engine (game st1))) ->
  exists st' caption screen,
    frame evs order st = inr (st', caption, screen) /\
    reachable_storage w h (engine (game st')) /\
    cell_size (game st') = cell_size (game st).
Proof.
  intros Hw Hh Hr Hc Hall Horder.
  destruct (handle_all_storage w h evs st Hw Hh Hr Hc Hall) as (st1 & E & Hr1 & C1).
  specialize (Horder st1 E).
  destruct (reachable_storage_dirty w h _ Hw Hh Hr1) as [[Hs1 _ _ _] _].
  unfold frame. rewrite E.
  destruct (paused st1).
  - rewrite (draw_closed w h (game st1) Hw Hh Hs1). by eexists _, _, _.
  - destruct (update_storage_returns w h (engine (game st1)) [order] Hw Hh Hr1)
      as (s2 & E2 & Hr2).
    { split; [done|]. by destruct (update_gen order (engine (game st1))). }
    rewrite E2.
    destruct (reachable_storage_dirty w h _ Hw Hh Hr2) as [[Hs2 _ _ _] _].
    cbn [game]. rewrite (draw_closed w h (with_engine (game st1) s2) Hw Hh Hs2).
    by eexists _, _, _.
Qed.

Lemma frame_returns_witness :
  exists st' caption screen,
    frame [MOUSEBUTTONDOWN 1 (10, 10); KEYUP K_p]
          (elements (needs_update (state_of (set (cell blinker 2 2) true blinker))))
          (mkLoop (mkPygameLife blinker black white 4) false false true)
    = inr (st', caption, screen) /\
    reachable_storage 20 20 (engine (game st')) /\
    cell_size (game st')
    = cell_size (game (mkLoop (mkPygameLife blinker black white 4) false false true)).
Proof.
  apply (frame_returns 20 20
           (mkLoop (mkPygameLife blinker black white 4) false false true)
           [MOUSEBUTTONDOWN 1 (10, 10); KEYUP K_p]
           (elements (needs_update (state_of (set (cell blinker 2 2) true blinker)))));
    [lia|lia| |cbn; lia| |].
  - apply (storage_set 20 20
             (state_of (place [(5, 5); (6, 5)] (fresh 20 20)))
             (cell (fresh 20 20) 7 5) true); [|by_computation|by vm_compute].
    apply (storage_set 20 20
             (state_of (place [(5, 5)] (fresh 20 20)))
             (cell (fresh 20 20) 6 5) true); [|by_computation|by vm_compute].
    apply (storage_set 20 20 (fresh 20 20)
             (cell (fresh 20 20) 5 5) true); [|by_computation|by vm_compute].
    apply storage_init, Life_init_fresh; lia.
  - repeat constructor; cbn; lia.
  - intros st1 H.
    assert (handle_all [MOUSEBUTTONDOWN 1 (10, 10); KEYUP K_p]
              (mkLoop (mkPygameLife blinker black white 4) false false true)
            = inr (mkLoop (mkPygameLife
                             (state_of (set (cell blinker 2 2) true blinker))
                             black white 4) false true true)) as E
      by (by vm_compute).
    rewrite E in H. apply (inj inr) in H. subst st1. cbn [engine game].
    apply enumerates_elements.
Defined.


(** *** Dragging *)

Lemma set_cell_live (w h : Z) (s : Life) (x y : Z) (v : bool) :
  0 < w -> 0 < h -> shaped w h s -> 0 <= x < w -> 0 <= y < h ->
  exists s', set (cell s x y) v s = Ok s' /\
             live s' = <[Z.to_nat (cell s x y) := v]> (live s).
Proof.
  intros Hw Hh Hs Hx Hy.
  pose proof (cell_range w h Hw Hh s Hs x y Hx Hy) as Hr.
  destruct (decide (live_at s (cell s x y) = v)) as [Hl|Hl].
  - exists s. split.
    + apply (set_same w h s Hs _ (cell s x y)); [lia|by left|done].
    + symmetry. apply list_insert_id.
      rewrite (live_at_lookup w h s Hs) by lia. by rewrite Hl.
  - destruct (set_cell_flip w h s x y v Hw Hh Hs Hx Hy) as (s' & E & Heff).
    { by destruct (live_at s (cell s x y)), v. }
    exists s'. split; [done|]. exact (effect_live _ _ _ _ _ _ _ Heff).
Qed.

(** X18. Moving the mouse with the left button held over a pixel of the
    window (reachable board, positive cell size) paints with [drawing]: the
    handler returns, the loop is paused, the cell under the pixel holds the
    value of [drawing], which stays as it was, and no other cell changes. *)
Theorem drag_paints (w h : Z) (st : loop) (pos : Z * Z) (middle right : bool) :
  0 < w -> 0 < h -> reachable w h (engine (game st)) ->
  0 < cell_size (game st) ->
  in_window w h (cell_size (game st)) pos ->
  exists p st',
    screen_cell (game st) pos = inr (Some p) /\
    handle (MOUSEMOTION (true, middle, right) pos) st = inr st' /\
    paused st' = true /\ drawing st' = drawing st /\ running st' = running st /\
    live (engine (game st'))
    = <[Z.to_nat p := drawing st]> (live (engine (game st))) /\
    reachable w h (engine (game st')).
Proof.
  intros Hw Hh Hr Hc Hin. destruct pos as [px py].
  apply reachable_consistent in Hr as Hcons; [|done..].
  destruct Hcons as [Hs _ _ _].
  destruct (screen_cell_inside w h (game st) px py (shaped_width w h _ Hs)
              (shaped_height w h _ Hs) Hc Hin) as (E & Hx & Hy).
  destruct (set_cell_live w h (engine (game st)) (px / cell_size (game st))
              (py / cell_size (game st)) (drawing st) Hw Hh Hs Hx Hy)
    as (s' & Eset & El).
  exists (cell (engine (game st)) (px / cell_size (game st)) (py / cell_size (game st))),
    {| game := with_engine (game st) s'; paused := true;
       drawing := drawing st; running := running st |}.
  split; [done|]. split.
  { unfold handle. cbv beta iota zeta. rewrite E. unfold set_screen. by rewrite Eset. }
  split; [done|]. split; [done|]. split; [done|]. split; [done|].
  by eapply reachable_set.
Qed.

Lemma drag_paints_witness :
  exists p st',
    screen_cell (game (mkLoop (mkPygameLife (fresh 3 3) black white 4) true true true))
                (9, 2) = inr (Some p) /\
    handle (MOUSEMOTION (true, false, false) (9, 2))
           (mkLoop (mkPygameLife (fresh 3 3) black white 4) true true true)
    = inr st' /\
    paused st' = true /\
    drawing st'
    = drawing (mkLoop (mkPygameLife (fresh 3 3) black white 4) true true true) /\
    running st'
    = running (mkLoop (mkPygameLife (fresh 3 3) black white 4) true true true) /\
    live (engine (game st'))
    = <[Z.to_nat p :=
          drawing (mkLoop (mkPygameLife (fresh 3 3) black white 4) true true true)]>
        (live (engine (game (mkLoop (mkPygameLife (fresh 3 3) black white 4)
                                    true true true)))) /\
    reachable 3 3 (engine (game st')).
Proof.
  apply (drag_paints 3 3
           (mkLoop (mkPygameLife (fresh 3 3) black white 4) true true true)
           (9, 2) false false);
    [lia|lia| |cbn; lia|unfold in_window; cbn; lia].
  apply reachable_init, Life_init_fresh; lia.
Defined.

(** *** The new dirty set *)

Lemma rules_dirty (w h : Z) (s : Life) (order : list Z) (c c' : Life) :
  0 < w -> 0 < h -> shaped w h c ->
  for_each rule (map (triple s) order) c = Ok c' ->
  forall n, n ∈ needs_update c' ->
    n ∈ needs_update c \/
    exists p, p ∈ order /\ action (triple s p) <> None /\
              (n = p \/ (n - p) ∈ offsets (w + 2)).
Proof.
  intros Hw Hh. revert c.
  induction order as [|p order IH]; intros c Hs E n Hn; cbn [map for_each] in E.
  { injection E as <-. by left. }
  rewrite rule_action in E.
  assert ((triple s p).1.1 = p) as Ep by done.
  destruct (action (triple s p)) as [v|] eqn:Ea.
  - rewrite Ep in E.
    destruct (set p v c) as [c1|] eqn:E1; [|done].
    destruct (IH c1 (set_Ok_shaped w h c p v c1 Hw Hh Hs E1) E n Hn)
      as [Hc1|(p' & Hp' & Ha' & Hnp)]; cycle 1.
    { right. exists p'. split; [by right|done]. }
    destruct (set_Ok_cases w h c p v c1 Hw Hh Hs E1)
      as (q & Hq & Hpq & [[-> _]|(_ & _ & _ & Heff)]); [by left|].
    rewrite (effect_needs_update _ _ _ _ _ _ _ Heff) in Hc1.
    rewrite !elem_of_union, elem_of_singleton, elem_of_list_to_set in Hc1.
    destruct Hc1 as [[Hc1| ->]|Ht]; [by left| |].
    + right. exists p. rewrite Ea. split; [left|]. by split; [|left].
    + right. exists p. rewrite Ea. split; [left|]. split; [done|]. right.
      apply list_elem_of_filter in Ht as [_ Ht].
      apply list_elem_of_fmap in Ht as (off & -> & Hoff).
      by replace (off + p - p) with off by lia.
  - destruct (IH c Hs E n Hn) as [Hc1|(p' & Hp' & Ha' & Hnp)]; [by left|].
    right. exists p'. split; [by right|done].
Qed.

(** X19. A generation of [update] enters in the new dirty set only cells
    it changed and their neighbours: in a reachable state, when the
    generation returns, every member of the new [needs_update] is the
    subscript [p] of a slot whose [live] value the generation changed, or
    [p] plus one of the eight neighbour offsets. *)
Theorem dirty_set_local (w h : Z) (s s' : Life) (order : list Z) (n : Z) :
  0 < w -> 0 < h -> reachable w h s ->
  enumerates order s -> update_gen order s = Ok s' ->
  n ∈ needs_update s' ->
  exists p q,
    p ∈ needs_update s /\
    0 <= q < cells w h /\ (p = q \/ p = q - cells w h) /\
    live_at s' q <> live_at s q /\
    (n = p \/ (n - p) ∈ offsets (w + 2)).
Proof.
  intros Hw Hh Hr [_ Hen] E Hn.
  apply reachable_consistent in Hr as Hc; [|done..].
  pose proof (consistent_shaped _ _ _ Hc) as Hs.
  unfold update_gen in E.
  destruct (snapshot s order) as [u|] eqn:Eu; [|done].
  apply snapshot_triples in Eu as ->.
  destruct (rules_dirty w h s order (with_needs_update s ∅) s' Hw Hh
              ltac:(by destruct Hs) E n Hn) as [He|(p & Hp & Ha & Hnp)].
  { by apply not_elem_of_empty in He. }
  apply Hen in Hp as Hd.
  destruct (consistent_dirty _ _ _ Hc p Hd) as (q & Hq & Hpq & Hib).
  exists p, q. split; [done|]. split; [done|]. split; [done|]. split; [|done].
  destruct (rules_run w h s order s' Hw Hh Hc) as (_ & Hb & _ & _);
    [intros p'; apply Hen|done|].
  rewrite (Hb q Hq) by (exists p; by split).
  rewrite (triple_alias w h s p q Hs Hq Hpq) in Ha.
  intros Hcon. by apply Ha, action_None_conway.
Qed.

Lemma dirty_set_local_witness :
  exists p q,
    p ∈ needs_update blinker /\
    0 <= q < cells 20 20 /\ (p = q \/ p = q - cells 20 20) /\
    live_at blinker_1 q <> live_at blinker q /\
    (94 = p \/ (94 - p) ∈ offsets (20 + 2)).
Proof.
  apply (dirty_set_local 20 20 blinker blinker_1 (elements (needs_update blinker)) 94);
    [lia|lia| |apply enumerates_elements|by vm_compute|by_computation].
  apply (place_reachable 20 20 [(5, 5); (6, 5); (7, 5)] (fresh 20 20));
    [|by vm_compute].
  apply reachable_init, Life_init_fresh; lia.
Defined.

(** *** Leaving the loop *)

Lemma handle_stopped (ev : event) (st st' : loop) :
  handle ev st = inr st' -> running st = false \/ is_quit ev = true ->
  running st' = false.
Proof.
  intros E Hstop.
  destruct ev as [|key|button [px py]|[[held middle] right] [px py]|];
    unfold handle in E; cbv beta iota zeta in E; cbn [is_quit] in Hstop.
  - by injection E as <-.
  - destruct ((key =? K_q) || (key =? K_ESCAPE)); [by injection E as <-|].
    destruct Hstop as [Hstop|]; [|done].
    destruct ((key =? K_p) || (key =? K_SPACE)); by injection E as <-.
  - destruct Hstop as [Hstop|]; [|done].
    destruct (button =? 1); [|by injection E as <-].
    destruct (screen_cell (game st) (px, py)) as [|[p|]]; try done.
    destruct (getitem (live (engine (game st))) p); [|done].
    destruct (set_screen (Some p) _ (game st)); [done|]. by injection E as <-.
  - destruct Hstop as [Hstop|]; [|done].
    destruct held; [|by injection E as <-].
    destruct (screen_cell (game st) (px, py)) as [|p]; [done|].
    destruct (set_screen p _ (game st)); [done|]. by injection E as <-.
  - destruct Hstop as [Hstop|]; [|done]. by injection E as <-.
Qed.

Lemma handle_all_stopped (evs : list event) (st st' : loop) :
  handle_all evs st = inr st' ->
  running st = false \/ Exists (fun ev => is_quit ev = true) evs ->
  running st' = false.
Proof.
  revert st. induction evs as [|ev evs IH]; intros st E Hstop; cbn [handle_all] in E.
  - injection E as <-. destruct Hstop as [|H%Exists_nil]; done.
  - destruct (handle ev st) as [|st1] eqn:E1; [done|].
    apply (IH st1 E).
    destruct Hstop as [Hstop|[Hq|Hex]%Exists_cons].
    + left. apply (handle_stopped ev st st1 E1). by left.
    + left. apply (handle_stopped ev st st1 E1). by right.
    + by right.
Qed.

(** X20. Leaving the loop: when the events of a turn contain [QUIT] or the
    release of [q] or [Esc] and the turn returns, the turn is completed
    (the later events of the turn, the generation unless paused, the
    picture) and it is the last one: [running] is false and the loop takes
    no further turn. *)
Theorem quit_ends_after_turn (evs : list event) (order : list Z)
    (rest : list (list event * list Z)) (st st' : loop) (caption : string)
    (screen : list fill) :
  running st = true ->
  Exists (fun ev => is_quit ev = true) evs ->
  frame evs order st = inr (st', caption, screen) ->
  running st' = false /\
  run_turns ((evs, order) :: rest) st = inr (st', [(caption, screen)]).
Proof.
  intros Hrun Hq E.
  assert (running st' = false) as Hstop.
  { unfold frame in E.
    destruct (handle_all evs st) as [|st1] eqn:E1; [done|].
    pose proof (handle_all_stopped evs st st1 E1 ltac:(by right)) as H1.
    destruct (paused st1).
    - destruct (draw (game st1)); [done|]. by injection E as <- _ _.
    - destruct (update [order] (engine (game st1))); [|done].
      destruct (draw _); [done|]. by injection E as <- _ _. }
  split; [done|]. cbn [run_turns]. rewrite Hrun, E.
  destruct rest as [|[evs' order'] rest]; cbn [run_turns]; [done|].
  by rewrite Hstop.
Qed.

Lemma quit_ends_after_turn_witness :
  running (mkLoop (mkPygameLife (fresh 3 3) black white 4) true false false) = false /\
  run_turns [([KEYUP K_q; OtherEvent], []); ([], [])]
            (mkLoop (mkPygameLife (fresh 3 3) black white 4) true false true)
  = inr (mkLoop (mkPygameLife (fresh 3 3) black white 4) true false false,
         [("Paused (SPACE/P to run)"%string, [(black, None)])]).
Proof.
  apply (quit_ends_after_turn [KEYUP K_q; OtherEvent] [] [([], [])]
           (mkLoop (mkPygameLife (fresh 3 3) black white 4) true false true)
           (mkLoop (mkPygameLife (fresh 3 3) black white 4) true false false)
           "Paused (SPACE/P to run)"%string [(black, None)]);
    [done|by left|by vm_compute].
Defined.

(** ** The invariants while every call returns *)

(** X21. The neighbour-count invariant while every call returns: in every
    state reached from a freshly constructed engine (positive width and
    height) by calls of [set] that return, for every storage index [i] with [in_bounds[i]] true,
    [neighbours[i]] is the number of the eight surrounding storage slots
    that are flagged in bounds and live. *)
Theorem neighbour_count_invariant (w h : Z) (s : Life) (i : Z) :
  0 < w -> 0 < h ->
  reachable_by_set w h s ->
  0 <= i < cells w h ->
  getitem (in_bounds s) i = Some true ->
  getitem (neighbours s) i = Some (live_neighbours s i).
Proof.
  intros Hw Hh Hr Hi Hib.
  apply reachable_by_set_reachable, reachable_consistent in Hr; [|done..].
  destruct Hr as [Hs Hc _ _].
  unfold getitem in *.
  rewrite (shaped_in_bounds_length w h s Hs), py_index_nonneg in Hib by lia.
  rewrite (shaped_neighbours w h s Hs), py_index_nonneg by lia.
  rewrite (in_bounds_at_lookup w h s Hs i Hi) in Hib.
  rewrite (neighbours_at_lookup w h s Hs i Hi). f_equal. apply Hc; congruence.
Qed.

Lemma neighbour_count_invariant_witness :
  getitem (neighbours (state_of (set 12 true (fresh 3 3)))) 13 =
  Some (live_neighbours (state_of (set 12 true (fresh 3 3))) 13).
Proof.
  apply (neighbour_count_invariant 3 3); [lia|lia| |done|by vm_compute].
  apply (by_set_step 3 3 (fresh 3 3) 12 true).
  - apply by_set_init, Life_init_fresh; lia.
  - vm_compute. reflexivity.
Defined.

(** X22. Quiescence while every call returns: in a reachable state (one
    reached through calls that all returned) in which every cell is dead,
    one call of [update], whatever order it iterates the dirty set in, returns,
    changes no cell and leaves [needs_update] empty; and every later
    [update], of any number of generations, returns that same state: all
    dead, the dirty set empty. *)
Theorem update_quiescent (w h : Z) (s : Life) (order : list Z) :
  0 < w -> 0 < h -> reachable w h s ->
  (forall j, live_at s j = false) ->
  enumerates order s ->
  exists s1,
    update_gen order s = Ok s1 /\
    needs_update s1 = ∅ /\ (forall j, live_at s1 j = false) /\
    forall orders, scheduled orders s1 -> update orders s1 = Ok s1.
Proof.
  intros Hw Hh Hr Hdead [_ Hen].
  apply reachable_consistent in Hr; [|done..].
  exists (with_needs_update s ∅).
  assert (consistent w h (with_needs_update s ∅)) as Hc1.
  { eapply update_gen_consistent; [done..|].
    apply (update_gen_dead w h s order Hr Hdead). intros p. apply Hen. }
  split_and!; [|done|done|].
  - apply (update_gen_dead w h s order Hr Hdead). intros p. apply Hen.
  - induction orders as [|o orders IH]; [done|].
    intros [[_ Ho] Hrest]. cbn [update for_each].
    assert (o = []) as ->.
    { destruct o as [|p o]; [done|]. exfalso.
      eapply (not_elem_of_empty (C := gset Z)), Ho. left. }
    rewrite (update_gen_dead w h _ [] Hc1 Hdead) in Hrest |- *
      by (intros p ?%elem_of_nil; done).
    rewrite with_needs_update_id in Hrest |- * by done. by apply IH.
Qed.

Lemma update_quiescent_witness :
  exists s1,
    update_gen
      (elements (needs_update
                   (state_of (set 12 false (state_of (set 12 true (fresh 3 3)))))))
      (state_of (set 12 false (state_of (set 12 true (fresh 3 3)))))
      = Ok s1 /\
    needs_update s1 = ∅ /\ (forall j, live_at s1 j = false) /\
    forall orders, scheduled orders s1 -> update orders s1 = Ok s1.
Proof.
  apply (update_quiescent 3 3); [lia|lia| | |].
  - apply (reachable_set 3 3 (state_of (set 12 true (fresh 3 3))) 12 false);
      [|by vm_compute].
    apply (reachable_set 3 3 (fresh 3 3) 12 true); [|by vm_compute].
    apply reachable_init, Life_init_fresh; lia.
  - intros j. unfold live_at.
    destruct (decide (0 <= j < 25)) as [Hj|Hj].
    + assert (exists k, (k < 25)%nat /\ j = Z.of_nat k) as (k & Hk & ->)
        by (exists (Z.to_nat j); lia).
      rewrite Nat2Z.id.
      do 25 (destruct k as [|k]; [by vm_compute|]). lia.
    + case_bool_decide; [|done]. rewrite lookup_ge_None_2; [done|].
      vm_compute length. lia.
  - split; [apply NoDup_elements|]. intros p. apply elem_of_elements.
Defined.
